(** * mykv: the SSTable builder and reader, embedded and verified

    A shallow embedding of the on-disk table format (base.h), of the
    sequential writer (SSTableBuilder) and of the point-lookup reader
    (SSTableReader), followed by the properties of the specification.

    Conventions of the embedding
    - a [std::string] / [std::string_view] is a [list byte]; its [size()] is
      the list length as a [Z].  A string never holds more than
      [max_size() < 2^63] bytes, so [size_t] sums of a string size and a
      32-bit quantity are written without wrap-around; every conversion to
      [uint32_t] or [uint64_t] that the source performs is written out
      ([u32], [u64]);
    - fixed-width integers are stored in native byte order, taken to be
      little-endian ([le_bytes], [le_value]);
    - member functions take the object and return the updated object;
      output parameters become components of the result;
    - output to [std::cout] / [std::cerr] is not modelled;
    - the operating system never fails a write or truncates a read of bytes
      that are in the file: a stream fails only for the reasons the code
      itself can cause (unopened file, bad seek, read past the end). *)

From Stdlib Require Import List ZArith Lia Bool Sorted.
From Stdlib.Strings Require Import Byte.
From Stdlib.Strings Require String.
Import ListNotations.
Local Open Scope Z_scope.

(* ================================================================== *)
(** * Bytes, sizes and fixed-width integers *)

Definition bytes := list byte.

Definition size (s : bytes) : Z := Z.of_nat (length s).

Definition empty (s : bytes) : bool :=
  match s with [] => true | _ => false end.

Definition u32 (z : Z) : Z := z mod 2 ^ 32.
Definition u64 (z : Z) : Z := z mod 2 ^ 64.

(** Conversion of a [uint64_t] to the signed [std::streamoff]. *)
Definition s64 (z : Z) : Z := if z <? 2 ^ 63 then z else z - 2 ^ 64.

Definition byte_of_Z (z : Z) : byte :=
  match Byte.of_N (Z.to_N (z mod 256)) with
  | Some b => b
  | None => x00
  end.

Definition Z_of_byte (b : byte) : Z := Z.of_N (Byte.to_N b).

(** The [n] bytes of the object representation of an unsigned integer. *)
Fixpoint le_bytes (n : nat) (z : Z) : bytes :=
  match n with
  | O => []
  | S n' => byte_of_Z z :: le_bytes n' (z / 256)
  end.

(** The unsigned integer whose object representation is [bs]. *)
Fixpoint le_value (bs : bytes) : Z :=
  match bs with
  | [] => 0
  | b :: bs' => Z_of_byte b + 256 * le_value bs'
  end.

(** [memcpy(&x, p, n)] into an unsigned integer [x] of [n] bytes. *)
Definition memcpy_uint (n : nat) (p : bytes) : Z := le_value (firstn n p).

(** [std::string_view::remove_prefix]. *)
Definition remove_prefix (n : Z) (s : bytes) : bytes := skipn (Z.to_nat n) s.

(** [std::string_view(p, n)]: the first [n] bytes at [p]. *)
Definition view (n : Z) (p : bytes) : bytes := firstn (Z.to_nat n) p.

(** [std::string_view::substr(pos, n)] for [pos <= size()]. *)
Definition substr (s : bytes) (pos n : Z) : bytes :=
  firstn (Z.to_nat n) (skipn (Z.to_nat pos) s).

(** Comparison of strings: [std::char_traits<char>::compare] on the common
    prefix (bytes as unsigned values), then the shorter string first. *)
Fixpoint compare (a b : bytes) : comparison :=
  match a, b with
  | [], [] => Eq
  | [], _ :: _ => Lt
  | _ :: _, [] => Gt
  | x :: a', y :: b' =>
      match N.compare (Byte.to_N x) (Byte.to_N y) with
      | Eq => compare a' b'
      | c => c
      end
  end.

Definition str_eqb (a b : bytes) : bool :=
  match compare a b with Eq => true | _ => false end.
Definition str_ltb (a b : bytes) : bool :=
  match compare a b with Lt => true | _ => false end.
Definition str_leb (a b : bytes) : bool :=
  match compare a b with Gt => false | _ => true end.
Definition str_gtb (a b : bytes) : bool :=
  match compare a b with Gt => true | _ => false end.

(* ================================================================== *)
(** * base.h: layout constants, BlockHandle, Footer, key/value records *)

Definition DATA_BLOCK_SIZE_THRESHOLD : Z := 128.
Definition SSTABLE_MAGIC_NUMBER : Z := 0xDEADBEEFCAFEF00D.
Definition BLOCK_HANDLE_SIZE : Z := 8 + 4.
Definition FOOTER_SIZE : Z := BLOCK_HANDLE_SIZE + 8.

Record BlockHandle := mkBlockHandle { offset_ : Z; size_ : Z }.

Definition BlockHandle_default : BlockHandle := mkBlockHandle 0 0.

Definition BlockHandle_EncodeTo (h : BlockHandle) (dst : bytes) : bytes :=
  (dst ++ le_bytes 8 (offset_ h)) ++ le_bytes 4 (size_ h).

(** [BlockHandle::DecodeFrom(&input)]: the result, the handle and the view
    after the call. *)
Definition BlockHandle_DecodeFrom (h : BlockHandle) (input : bytes)
  : bool * BlockHandle * bytes :=
  if size input <? 8 + 4 then (false, h, input)
  else
    let off := memcpy_uint 8 input in
    let input := remove_prefix 8 input in
    let sz := memcpy_uint 4 input in
    let input := remove_prefix 4 input in
    (true, mkBlockHandle off sz, input).

Record Footer := mkFooter { index_block_handle_ : BlockHandle; magic_number_ : Z }.

Definition Footer_default : Footer := mkFooter BlockHandle_default 0.

Definition Footer_EncodeTo (f : Footer) (dst : bytes) : bytes :=
  BlockHandle_EncodeTo (index_block_handle_ f) dst ++ le_bytes 8 (magic_number_ f).

(** [Footer::DecodeFrom(input)]: the result and the footer after the call.
    The magic field is overwritten before it is compared. *)
Definition Footer_DecodeFrom (f : Footer) (input : bytes) : bool * Footer :=
  if size input <? BLOCK_HANDLE_SIZE + 8 then (false, f)
  else
    let magic := memcpy_uint 8 (remove_prefix BLOCK_HANDLE_SIZE input) in
    let f := mkFooter (index_block_handle_ f) magic in
    if negb (magic =? SSTABLE_MAGIC_NUMBER) then (false, f)
    else
      let handle_input := substr input 0 BLOCK_HANDLE_SIZE in
      let '(ok, h, _) := BlockHandle_DecodeFrom (index_block_handle_ f) handle_input in
      (ok, mkFooter h magic).

Definition writeKV (buffer key value : bytes) : bytes :=
  let key_len := u32 (size key) in
  let value_len := u32 (size value) in
  (((buffer ++ le_bytes 4 key_len) ++ key) ++ le_bytes 4 value_len) ++ value.

Definition getEntrySize (key value : bytes) : Z :=
  u32 (4 + size key + 4 + size value).

(** [readKV(&input, &key, &value)]: the result and the three views after the
    call (a failing call leaves [input] where the failing test found it, and
    may already have set [key]). *)
Definition readKV (input key value : bytes) : bool * bytes * bytes * bytes :=
  if size input <? 4 then (false, input, key, value)
  else
    let key_len := memcpy_uint 4 input in
    let input := remove_prefix 4 input in
    if size input <? key_len then (false, input, key, value)
    else
      let key := view key_len input in
      let input := remove_prefix key_len input in
      if size input <? 4 then (false, input, key, value)
      else
        let value_len := memcpy_uint 4 input in
        let input := remove_prefix 4 input in
        if size input <? value_len then (false, input, key, value)
        else
          let value := view value_len input in
          let input := remove_prefix value_len input in
          (true, input, key, value).

(** ** readKV on views proper

    A [std::string_view] is a pointer and a length.  [sv_data] is the
    position of the first viewed byte in the storage [mem] the view points
    into.  [readKV_sv] is [readKV] at this level; its last component lists
    the ranges [(p, n)] of storage that the two [memcpy] calls read. *)

Record string_view := mk_sv { sv_data : Z; sv_size : Z }.

Definition sv_bytes (mem : bytes) (v : string_view) : bytes :=
  substr mem (sv_data v) (sv_size v).

Definition sv_remove_prefix (n : Z) (v : string_view) : string_view :=
  mk_sv (sv_data v + n) (sv_size v - n).

Definition memcpy_at (mem : bytes) (p : Z) (n : nat) : Z :=
  memcpy_uint n (skipn (Z.to_nat p) mem).

Definition readKV_sv (mem : bytes) (input key value : string_view)
  : bool * string_view * string_view * string_view * list (Z * Z) :=
  if sv_size input <? 4 then (false, input, key, value, [])
  else
    let key_len := memcpy_at mem (sv_data input) 4 in
    let rd1 := [(sv_data input, 4)] in
    let input := sv_remove_prefix 4 input in
    if sv_size input <? key_len then (false, input, key, value, rd1)
    else
      let key := mk_sv (sv_data input) key_len in
      let input := sv_remove_prefix key_len input in
      if sv_size input <? 4 then (false, input, key, value, rd1)
      else
        let value_len := memcpy_at mem (sv_data input) 4 in
        let rd2 := rd1 ++ [(sv_data input, 4)] in
        let input := sv_remove_prefix 4 input in
        if sv_size input <? value_len then (false, input, key, value, rd2)
        else
          let value := mk_sv (sv_data input) value_len in
          let input := sv_remove_prefix value_len input in
          (true, input, key, value, rd2).

(* ================================================================== *)
(** * std::map<std::string, BlockHandle> *)

(** The map as the list of its entries in ascending key order. *)
Definition index_map := list (bytes * BlockHandle).

(** [m[k] = h]. *)
Fixpoint map_assign (m : index_map) (k : bytes) (h : BlockHandle) : index_map :=
  match m with
  | [] => [(k, h)]
  | (k', h') :: m' =>
      match compare k k' with
      | Lt => (k, h) :: m
      | Eq => (k', h) :: m'
      | Gt => (k', h') :: map_assign m' k h
      end
  end.

(** [m.lower_bound(k)]: the first entry whose key is not less than [k];
    [None] is [m.end()]. *)
Fixpoint lower_bound (m : index_map) (k : bytes) : option (bytes * BlockHandle) :=
  match m with
  | [] => None
  | (k', h') :: m' => if str_ltb k' k then lower_bound m' k else Some (k', h')
  end.

(* ================================================================== *)
(** * std::ofstream, as the builder uses it *)

Record ofstream := mk_ofstream {
  of_is_open : bool;   (* is_open() *)
  of_fail : bool;      (* fail(), the value of [!ofs_] *)
  of_data : bytes      (* the bytes written to the file so far *)
}.

(** [std::ofstream(filename, binary | trunc)]; [can_open] tells whether the
    file system lets the file be created. *)
Definition ofstream_open (can_open : bool) : ofstream :=
  if can_open then mk_ofstream true false [] else mk_ofstream false true [].

Definition of_write (s : ofstream) (buf : bytes) : ofstream :=
  if of_fail s then s
  else mk_ofstream (of_is_open s) (of_fail s) (of_data s ++ buf).

Definition of_tellp (s : ofstream) : Z :=
  if of_fail s then -1 else size (of_data s).

Definition of_close (s : ofstream) : ofstream :=
  if of_is_open s then mk_ofstream false (of_fail s) (of_data s)
  else mk_ofstream false true (of_data s).

(* ================================================================== *)
(** * SSTableBuilder *)

Module SSTableBuilder.

Record t := mk {
  ofs_ : ofstream;
  finished_ : bool;
  cur_data_block_ : bytes;
  last_key_in_block_ : bytes;
  cur_data_block_offset_ : Z;
  index_data_ : index_map
}.

(** The constructor; [can_open] as in [ofstream_open]. *)
Definition new (can_open : bool) : t :=
  mk (ofstream_open can_open) false [] [] 0 [].

Definition is_open (b : t) : bool := of_is_open (ofs_ b).

Definition FlushDataBlock (b : t) : t :=
  if empty (cur_data_block_ b) then b
  else
    let ofs := of_write (ofs_ b) (cur_data_block_ b) in
    let handle :=
      mkBlockHandle (cur_data_block_offset_ b) (u32 (size (cur_data_block_ b))) in
    let index := map_assign (index_data_ b) (last_key_in_block_ b) handle in
    mk ofs (finished_ b) [] (last_key_in_block_ b)
       (cur_data_block_offset_ b) index.

Definition set_offset (b : t) (off : Z) : t :=
  mk (ofs_ b) (finished_ b) (cur_data_block_ b) (last_key_in_block_ b)
     off (index_data_ b).

Definition Add (b : t) (key value : bytes) : bool * t :=
  if finished_ b || of_fail (ofs_ b) then (false, b)
  else if negb (empty (last_key_in_block_ b)) && empty (cur_data_block_ b)
          && str_leb key (last_key_in_block_ b)
  then (false, b)
  else
    let entry_size := getEntrySize key value in
    let b :=
      if empty (cur_data_block_ b)
      then set_offset b (u64 (of_tellp (ofs_ b)))
      else if size (cur_data_block_ b) + entry_size >? DATA_BLOCK_SIZE_THRESHOLD
      then let b := FlushDataBlock b in set_offset b (u64 (of_tellp (ofs_ b)))
      else b in
    (true,
     mk (ofs_ b) (finished_ b)
        (writeKV (cur_data_block_ b) key value)
        key
        (cur_data_block_offset_ b) (index_data_ b)).

(** The loop of [Finish] over the index: one record per entry, in ascending
    key order, appended to [buffer]. *)
Fixpoint index_block (m : index_map) (buffer : bytes) : bytes :=
  match m with
  | [] => buffer
  | (last_key, handle) :: m' =>
      let handle_encoded := BlockHandle_EncodeTo handle [] in
      index_block m' (writeKV buffer last_key handle_encoded)
  end.

Definition Finish (b : t) : bool * t :=
  if finished_ b || of_fail (ofs_ b) then (false, b)
  else
    let b := FlushDataBlock b in
    let index_block_offset := u64 (of_tellp (ofs_ b)) in
    let index_block_buffer := index_block (index_data_ b) [] in
    let ofs := of_write (ofs_ b) index_block_buffer in
    let footer :=
      mkFooter (mkBlockHandle index_block_offset (u32 (size index_block_buffer)))
               SSTABLE_MAGIC_NUMBER in
    let footer_encoded := Footer_EncodeTo footer [] in
    let ofs := of_write ofs (view FOOTER_SIZE footer_encoded) in
    let ofs := of_close ofs in
    (true,
     mk ofs true (cur_data_block_ b) (last_key_in_block_ b)
        (cur_data_block_offset_ b) (index_data_ b)).

End SSTableBuilder.

(** A client's calls on a builder, and their results in order. *)
Inductive builder_call :=
| CallAdd (key value : bytes)
| CallFinish.

Definition call (b : SSTableBuilder.t) (c : builder_call) : bool * SSTableBuilder.t :=
  match c with
  | CallAdd key value => SSTableBuilder.Add b key value
  | CallFinish => SSTableBuilder.Finish b
  end.

Fixpoint calls (b : SSTableBuilder.t) (cs : list builder_call)
  : list bool * SSTableBuilder.t :=
  match cs with
  | [] => ([], b)
  | c :: cs' =>
      let '(r, b1) := call b c in
      let '(rs, b2) := calls b1 cs' in
      (r :: rs, b2)
  end.

(** [for (const auto& pair : test_data) builder.Add(pair.first, pair.second);]
    as the driver does it: every record is offered in turn. *)
Fixpoint AddAll (b : SSTableBuilder.t) (kvs : list (bytes * bytes)) : SSTableBuilder.t :=
  match kvs with
  | [] => b
  | (k, v) :: kvs' => AddAll (snd (SSTableBuilder.Add b k v)) kvs'
  end.

(** The file a fresh builder leaves behind when every record of [kvs] has
    been offered to it and [Finish] has been called. *)
Definition build (kvs : list (bytes * bytes)) : bytes :=
  of_data (SSTableBuilder.ofs_
             (snd (SSTableBuilder.Finish (AddAll (SSTableBuilder.new true) kvs)))).

(* ================================================================== *)
(** * std::ifstream, as the reader uses it *)

Record ifstream := mk_ifstream {
  if_is_open : bool;        (* is_open() *)
  if_fail : bool;           (* fail(); eofbit is only ever set along with it *)
  if_pos : Z;               (* the get position *)
  if_data : bytes;          (* the bytes of the file *)
  if_log : list (Z * Z)     (* every read issued: position and count *)
}.

(** [std::ifstream(filename, binary | ate)]; [None] when the file cannot be
    opened.  [ate] leaves the get position at the end. *)
Definition ifstream_open (file : option bytes) : ifstream :=
  match file with
  | Some data => mk_ifstream true false (size data) data []
  | None => mk_ifstream false true 0 [] []
  end.

Definition if_tellg (s : ifstream) : Z :=
  if if_fail s then -1 else if_pos s.

(** [seekg(pos)]: nothing on a failed stream; a negative position fails;
    any other position is accepted, also past the end. *)
Definition if_seekg (s : ifstream) (pos : Z) : ifstream :=
  if if_fail s || negb (if_is_open s) then
    mk_ifstream (if_is_open s) true (if_pos s) (if_data s) (if_log s)
  else if pos <? 0 then
    mk_ifstream (if_is_open s) true (if_pos s) (if_data s) (if_log s)
  else mk_ifstream (if_is_open s) false pos (if_data s) (if_log s).

(** [read(p, n)]: the stream after the call and the bytes extracted
    ([gcount()] is their number).  Fewer than [n] bytes left sets failbit. *)
Definition if_read (s : ifstream) (n : Z) : ifstream * bytes :=
  let log := if_log s ++ [(if_pos s, n)] in
  if if_fail s || negb (if_is_open s) then
    (mk_ifstream (if_is_open s) true (if_pos s) (if_data s) log, [])
  else
    let got := substr (if_data s) (if_pos s) n in
    (mk_ifstream (if_is_open s) (size got <? n) (if_pos s + size got) (if_data s) log,
     got).

Definition if_close (s : ifstream) : ifstream :=
  mk_ifstream false (if_fail s || negb (if_is_open s)) (if_pos s) (if_data s) (if_log s).

(** [std::string::resize(n)] on a string holding [got]: what a buffer of [n]
    zero bytes holds once [got] has been read into its front. *)
Definition resized (n : Z) (got : bytes) : bytes :=
  got ++ repeat x00 (Z.to_nat n - length got).

(* ================================================================== *)
(** * SSTableReader *)

Module SSTableReader.

Record t := mk {
  ifs_ : ifstream;
  footer_ : Footer;
  is_valid_ : bool;
  index_data_ : index_map
}.

Definition is_valid (r : t) : bool := is_valid_ r.

Definition set_ifs (r : t) (s : ifstream) : t :=
  mk s (footer_ r) (is_valid_ r) (index_data_ r).

Definition ReadDataBlock (r : t) (handle : BlockHandle) : bool * bytes * t :=
  let ifs := if_seekg (ifs_ r) (s64 (offset_ handle)) in
  let '(ifs, got) := if_read ifs (size_ handle) in
  let block_content := resized (size_ handle) got in
  (size got =? size_ handle, block_content, set_ifs r ifs).

(** The [while (!input.empty())] loop of [LoadIndex]: the result and the
    index when the loop is left.  Every turn consumes input, so [fuel] turns
    are enough for an input of [fuel] bytes; [None] is the loop cut short. *)
Fixpoint LoadIndex_loop (fuel : nat) (input : bytes) (index : index_map)
  : option (bool * index_map) :=
  if empty input then Some (true, index)
  else
    match fuel with
    | O => None
    | S fuel' =>
        let '(ok, input, last_key, handle_data) := readKV input [] [] in
        if negb ok then Some (false, index)
        else
          let '(ok, handle, _) := BlockHandle_DecodeFrom BlockHandle_default handle_data in
          if negb ok then Some (false, index)
          else LoadIndex_loop fuel' input (map_assign index last_key handle)
    end.

Definition LoadIndex (r : t) : bool * t :=
  let file_size := if_tellg (ifs_ r) in
  if file_size <? FOOTER_SIZE then (false, r)
  else
    let ifs := if_seekg (ifs_ r) (file_size - FOOTER_SIZE) in
    let '(ifs, got) := if_read ifs FOOTER_SIZE in
    let footer_buf := resized FOOTER_SIZE got in
    let r := set_ifs r ifs in
    if negb (size got =? FOOTER_SIZE) then (false, r)
    else
      let '(ok, footer) := Footer_DecodeFrom (footer_ r) footer_buf in
      let r := mk (ifs_ r) footer (is_valid_ r) (index_data_ r) in
      if negb ok then (false, r)
      else
        let '(ok, index_block_content, r) :=
          ReadDataBlock r (index_block_handle_ (footer_ r)) in
        if negb ok then (false, r)
        else
          match LoadIndex_loop (length index_block_content) index_block_content
                               (index_data_ r) with
          | Some (ok, index) => (ok, mk (ifs_ r) (footer_ r) (is_valid_ r) index)
          | None => (false, r)
          end.

(** The constructor; [file] is the content of the named file, [None] when it
    cannot be opened. *)
Definition new (file : option bytes) : t :=
  let r := mk (ifstream_open file) Footer_default false [] in
  if if_fail (ifs_ r) then r
  else
    let '(ok, r) := LoadIndex r in
    if negb ok then set_ifs r (if_close (ifs_ r))
    else mk (ifs_ r) (footer_ r) true (index_data_ r).

(** The scan of [FindInBlock]: [Some (Some v)] found, [Some None] not found,
    [None] the loop cut short ([fuel] as in [LoadIndex_loop]). *)
Fixpoint FindInBlock_loop (fuel : nat) (input key : bytes) : option (option bytes) :=
  if empty input then Some None
  else
    match fuel with
    | O => None
    | S fuel' =>
        let '(ok, input, current_key, current_value) := readKV input [] [] in
        if negb ok then Some None
        else if str_eqb current_key key then Some (Some current_value)
        else if str_gtb current_key key then Some None
        else FindInBlock_loop fuel' input key
    end.

Definition FindInBlock (block_content key : bytes) : option bytes :=
  match FindInBlock_loop (length block_content) block_content key with
  | Some found => found
  | None => None
  end.

(** [Get(key, &value)]: [Some v] for [true] with [*value = v], [None] for
    [false]; and the reader after the call. *)
Definition Get (r : t) (key : bytes) : option bytes * t :=
  if negb (is_valid_ r) then (None, r)
  else
    match lower_bound (index_data_ r) key with
    | None => (None, r)
    | Some (_, handle) =>
        let '(ok, block_content, r) := ReadDataBlock r handle in
        if negb ok then (None, r)
        else (FindInBlock block_content key, r)
    end.

End SSTableReader.

(** The reader after the lookups of [qs], in order. *)
Fixpoint GetAll (r : SSTableReader.t) (qs : list bytes) : SSTableReader.t :=
  match qs with
  | [] => r
  | q :: qs' => GetAll (snd (SSTableReader.Get r q)) qs'
  end.

(* ================================================================== *)
(** * Notions used in the statements *)

(** The strict order of [std::string]: [a < b]. *)
Definition str_lt (a b : bytes) : Prop := compare a b = Lt.

(** The encoding of one record: what [writeKV] appends to a buffer. *)
Definition record (key value : bytes) : bytes := writeKV [] key value.

(** A record whose encoded size a [uint32_t] can hold. *)
Definition fits32 (key value : bytes) : Prop := 8 + size key + size value < 2 ^ 32.

(** A view that lies inside its storage. *)
Definition sv_within (mem : bytes) (v : string_view) : Prop :=
  0 <= sv_data v /\ 0 <= sv_size v /\ sv_data v + sv_size v <= size mem.

(** A builder that accepts calls: not finished, stream not failed. *)
Definition usable (b : SSTableBuilder.t) : Prop :=
  SSTableBuilder.finished_ b = false /\ of_fail (SSTableBuilder.ofs_ b) = false.

(** The bytes the builder has written to its file. *)
Definition written (b : SSTableBuilder.t) : bytes := of_data (SSTableBuilder.ofs_ b).

(** A value of [2^32 - 8] zero bytes: with the empty key its record takes
    [2^32] bytes. *)
Definition value_4G_minus_8 : bytes := repeat x00 (Z.to_nat (2 ^ 32 - 8)).

(** A value of [2^32] zero bytes. *)
Definition value_4G : bytes := repeat x00 (Z.to_nat (2 ^ 32)).

(** The block buffer holds at most [DATA_BLOCK_SIZE_THRESHOLD] bytes or is
    one record. *)
Definition small_or_single (buffer : bytes) : Prop :=
  size buffer <= DATA_BLOCK_SIZE_THRESHOLD \/
  exists key value, buffer = record key value.

(** What every builder between the constructor and [Finish] satisfies: it is
    usable, and its buffer is empty only while no key has been recorded. *)
Definition accepting (b : SSTableBuilder.t) : Prop :=
  usable b /\
  (SSTableBuilder.cur_data_block_ b = [] -> SSTableBuilder.last_key_in_block_ b = []).

(** ** The layout of a table, as the statements describe it *)

(** The records of one data block, in the order they were added. *)
Definition block := list (bytes * bytes).

Definition encode_block (blk : block) : bytes :=
  concat (map (fun kv => record (fst kv) (snd kv)) blk).

(** The data blocks of a file, one after the other. *)
Definition encode_blocks (blocks : list block) : bytes :=
  concat (map encode_block blocks).

(** The greatest key of a block whose keys ascend: its last key. *)
Definition block_last_key (blk : block) : bytes := fst (last blk ([], [])).

(** The index of the blocks [blocks] written from offset [off] on, with the
    conversions of [FlushDataBlock] to the handle's field types. *)
Fixpoint index_of (blocks : list block) (off : Z) : index_map :=
  match blocks with
  | [] => []
  | blk :: rest =>
      (block_last_key blk, mkBlockHandle (u64 off) (u32 (size (encode_block blk))))
        :: index_of rest (off + size (encode_block blk))
  end.

(** The value recorded for [key] in a list of records. *)
Fixpoint assoc (key : bytes) (kvs : list (bytes * bytes)) : option bytes :=
  match kvs with
  | [] => None
  | (k, v) :: rest => if str_eqb k key then Some v else assoc key rest
  end.

(** Keys in strictly ascending order. *)
Definition ascending (keys : list bytes) : Prop := Sorted str_lt keys.

(** The builder's state when the blocks [done] have been flushed and the
    records [cur] are in the buffer. *)
Definition layout (done : list block) (cur : block) (b : SSTableBuilder.t) : Prop :=
  usable b /\
  of_is_open (SSTableBuilder.ofs_ b) = true /\
  written b = encode_blocks done /\
  SSTableBuilder.cur_data_block_ b = encode_block cur /\
  SSTableBuilder.index_data_ b = index_of done 0 /\
  SSTableBuilder.last_key_in_block_ b = block_last_key (concat done ++ cur) /\
  (cur <> [] -> SSTableBuilder.cur_data_block_offset_ b = u64 (size (written b))) /\
  (cur = [] -> done = []) /\
  Forall (fun blk => blk <> [] /\ size (encode_block blk) < 2 ^ 32) done /\
  size (encode_block cur) < 2 ^ 32 /\
  StronglySorted str_lt (map fst (concat done ++ cur)).

(** The blocks of the finished table. *)
Definition blocks_of (done : list block) (cur : block) : list block :=
  match cur with [] => done | _ => done ++ [cur] end.

(** The encoded index block of an index. *)
Definition encode_index (index : index_map) : bytes :=
  SSTableBuilder.index_block index [].

(** The footer [Finish] writes after data of [data_size] bytes and an index
    block of [index_size] bytes. *)
Definition encode_footer (data_size index_size : Z) : bytes :=
  Footer_EncodeTo
    (mkFooter (mkBlockHandle (u64 data_size) (u32 index_size)) SSTABLE_MAGIC_NUMBER) [].

(** The size of the index block of the table built from [kvs]. *)
Definition index_block_size (kvs : list (bytes * bytes)) : Z :=
  size (encode_index
          (SSTableBuilder.index_data_
             (snd (SSTableBuilder.Finish (AddAll (SSTableBuilder.new true) kvs))))).

(** The index-block record of one index entry. *)
Definition index_entry (e : bytes * BlockHandle) : bytes :=
  record (fst e) (BlockHandle_EncodeTo (snd e) []).

(** A reader that serves the file [file] with the index [index]: valid, its
    stream open on [file] and not failed. *)
Definition serving (file : bytes) (index : index_map) (r : SSTableReader.t) : Prop :=
  SSTableReader.is_valid_ r = true /\
  SSTableReader.index_data_ r = index /\
  if_data (SSTableReader.ifs_ r) = file /\
  if_fail (SSTableReader.ifs_ r) = false /\
  if_is_open (SSTableReader.ifs_ r) = true.

(** A handle whose fields are values of their types and whose range lies in
    a file of [file_size] bytes. *)
Definition handle_in (file_size : Z) (h : BlockHandle) : Prop :=
  0 <= offset_ h < 2 ^ 63 /\ 0 <= size_ h < 2 ^ 32 /\ offset_ h + size_ h <= file_size.

(** The records of the driver's test ([main]), in the order its [std::map]
    yields them. *)
Module Driver.
Import String.
Definition test_data : list (bytes * bytes) :=
  map (fun p => (list_byte_of_string (fst p), list_byte_of_string (snd p)))
    [("s01_David", "88"); ("s02_Bob", "82"); ("s03_Alice", "95");
     ("s04_Frank", "70"); ("s05_Ivy", "92"); ("s06_Eve", "85");
     ("s07_Grace", "100"); ("s08_Heidi", "78"); ("s09_Charlie", "76");
     ("s10_Jack", "89"); ("s11_Kate", "91"); ("s12_Liam", "77");
     ("s13_Mia", "83"); ("s14_Noah", "90"); ("s15_Olivia", "99")]%string.

(** The keys the test looks up: inserted ones, and ones never inserted. *)
Definition s01_David : bytes := list_byte_of_string "s01_David".
Definition s03_Alice : bytes := list_byte_of_string "s03_Alice".
Definition s08_Heidi : bytes := list_byte_of_string "s08_Heidi".
Definition s15_Olivia : bytes := list_byte_of_string "s15_Olivia".
Definition s01_MiddleKey : bytes := list_byte_of_string "s01_MiddleKey".
Definition zzz_Nobody : bytes := list_byte_of_string "zzz_Nobody".
Definition aaa_Nobody : bytes := list_byte_of_string "aaa_Nobody".
End Driver.

(** The calls that offer every record of [kvs] and then finish. *)
Definition build_calls (kvs : list (bytes * bytes)) : list builder_call :=
  map (fun kv => CallAdd (fst kv) (snd kv)) kvs ++ [CallFinish].

(** A key of [2^32] bytes whose first 16 bytes are the tail of an index
    entry: a value length of 12 and the handle of the 20 bytes at offset 0. *)
Definition crafted_key : bytes :=
  (le_bytes 4 12 ++ BlockHandle_EncodeTo (mkBlockHandle 0 20) []) ++
  repeat x00 (Z.to_nat (2 ^ 32 - 16)).

(* ================================================================== *)
(** * memtable: the in-memory write buffer *)

(** [std::map<std::string, V>] as the list of its entries in ascending key
    order, with the three operations the code uses. *)
Definition str_map (V : Type) := list (bytes * V).

(** [m[k] = v]. *)
Fixpoint smap_assign {V : Type} (m : str_map V) (k : bytes) (v : V) : str_map V :=
  match m with
  | [] => [(k, v)]
  | (k', v') :: m' =>
      match compare k k' with
      | Lt => (k, v) :: m
      | Eq => (k', v) :: m'
      | Gt => (k', v') :: smap_assign m' k v
      end
  end.

(** [m.lower_bound(k)]; [None] is [m.end()]. *)
Fixpoint smap_lower_bound {V : Type} (m : str_map V) (k : bytes) : option (bytes * V) :=
  match m with
  | [] => None
  | (k', v') :: m' => if str_ltb k' k then smap_lower_bound m' k else Some (k', v')
  end.

(** [m.find(k)]: the entry at [lower_bound(k)] unless [k] is below its key. *)
Definition smap_find {V : Type} (m : str_map V) (k : bytes) : option (bytes * V) :=
  match smap_lower_bound m k with
  | None => None
  | Some (k', v') => if str_ltb k k' then None else Some (k', v')
  end.

Module memtable.

Record t := mk { memtable_ : str_map bytes }.

(** [memtable() = default]. *)
Definition new : t := mk [].

Definition put (m : t) (key value : bytes) : t :=
  mk (smap_assign (memtable_ m) key value).

(** [get(key, &value)]: [Some v] for [true] with [*value = v], [None] for
    [false]. *)
Definition get (m : t) (key : bytes) : option bytes :=
  match smap_find (memtable_ m) key with
  | Some (_, value) => Some value
  | None => None
  end.

Definition GetMap (m : t) : str_map bytes := memtable_ m.

End memtable.

(** The memtable after the writes of [writes], in order. *)
Fixpoint PutAll (m : memtable.t) (writes : list (bytes * bytes)) : memtable.t :=
  match writes with
  | [] => m
  | (k, v) :: writes' => PutAll (memtable.put m k v) writes'
  end.

(** ** Notions used in the further statements *)

(** [a] is the beginning of [b]. *)
Definition prefix_of (a b : bytes) : Prop := exists rest, b = a ++ rest.

(** A handle whose fields are values of their types. *)
Definition handle_typed (h : BlockHandle) : Prop :=
  0 <= offset_ h < 2 ^ 64 /\ 0 <= size_ h < 2 ^ 32.

(** A handle whose range lies in the first [n] bytes of the file. *)
Definition handle_within (n : Z) (h : BlockHandle) : Prop :=
  handle_typed h /\ offset_ h + size_ h <= n.

(** A sequence of encoded records: a block free of damage. *)
Inductive records : bytes -> Prop :=
| records_nil : records []
| records_cons (k v rest : bytes) :
    size k < 2 ^ 32 -> size v < 2 ^ 32 -> records rest ->
    records (record k v ++ rest).

(** What the builder keeps true of its index at every moment: the keys
    ascend, every handle lies in the bytes written, the offset tag is a
    position in them, and a failed stream has an empty buffer. *)
Definition index_sound (b : SSTableBuilder.t) : Prop :=
  StronglySorted str_lt (map fst (SSTableBuilder.index_data_ b)) /\
  Forall (fun e => handle_within (size (written b)) (snd e))
         (SSTableBuilder.index_data_ b) /\
  0 <= SSTableBuilder.cur_data_block_offset_ b <= size (written b) /\
  SSTableBuilder.cur_data_block_offset_ b < 2 ^ 64 /\
  (of_fail (SSTableBuilder.ofs_ b) = true -> SSTableBuilder.cur_data_block_ b = []).

(* ================================================================== *)
(** * Bytes and fixed-width integers: basic facts *)

Lemma Z_of_byte_range (b : byte) : 0 <= Z_of_byte b < 256.
Proof.
  unfold Z_of_byte. pose proof (Byte.to_N_bounded b). lia.
Qed.

Lemma Z_of_byte_of_Z (z : Z) : Z_of_byte (byte_of_Z z) = z mod 256.
Proof.
  unfold Z_of_byte, byte_of_Z.
  assert (Hr : 0 <= z mod 256 < 256) by (apply Z.mod_pos_bound; lia).
  destruct (Byte.of_N (Z.to_N (z mod 256))) as [b|] eqn:E.
  - apply Byte.to_of_N in E. rewrite E. lia.
  - apply Byte.of_N_None_iff in E. lia.
Qed.

Lemma byte_of_Z_of_byte (b : byte) : byte_of_Z (Z_of_byte b) = b.
Proof.
  unfold byte_of_Z. pose proof (Z_of_byte_range b) as Hr.
  rewrite Z.mod_small by exact Hr.
  unfold Z_of_byte. rewrite N2Z.id, Byte.of_to_N. reflexivity.
Qed.

Lemma Z_of_byte_inj (a b : byte) : Z_of_byte a = Z_of_byte b -> a = b.
Proof.
  intros H. rewrite <- (byte_of_Z_of_byte a), <- (byte_of_Z_of_byte b), H.
  reflexivity.
Qed.

Lemma le_bytes_length (n : nat) (z : Z) : length (le_bytes n z) = n.
Proof.
  revert z. induction n as [|n IH]; intros z; simpl; [reflexivity|].
  now rewrite IH.
Qed.

Lemma le_value_range (bs : bytes) : 0 <= le_value bs < 256 ^ Z.of_nat (length bs).
Proof.
  induction bs as [|b bs IH].
  - simpl. lia.
  - cbn [le_value length]. rewrite Nat2Z.inj_succ, Z.pow_succ_r by lia.
    pose proof (Z_of_byte_range b). lia.
Qed.

Lemma le_value_le_bytes (n : nat) (z : Z) :
  le_value (le_bytes n z) = z mod 256 ^ Z.of_nat n.
Proof.
  revert z. induction n as [|n IH]; intros z.
  - simpl. now rewrite Z.mod_1_r.
  - cbn [le_bytes le_value]. rewrite IH, Z_of_byte_of_Z.
    rewrite Nat2Z.inj_succ, Z.pow_succ_r by lia.
    rewrite Z.rem_mul_r by (try apply Z.pow_nonzero; lia). reflexivity.
Qed.

Lemma le_bytes_le_value (bs : bytes) : le_bytes (length bs) (le_value bs) = bs.
Proof.
  induction bs as [|b bs IH]; [reflexivity|].
  cbn [length le_bytes le_value].
  pose proof (Z_of_byte_range b) as Hb.
  set (v := le_value bs) in *.
  assert (Hm : (Z_of_byte b + 256 * v) mod 256 = Z_of_byte b)
    by (rewrite (Z.mul_comm 256 v), Z.mod_add by lia; now apply Z.mod_small).
  assert (Hd : (Z_of_byte b + 256 * v) / 256 = v)
    by (rewrite (Z.mul_comm 256 v), Z.div_add by lia;
        rewrite (Z.div_small _ _ Hb); lia).
  f_equal.
  - rewrite <- (byte_of_Z_of_byte b) at 2. unfold byte_of_Z.
    rewrite Hm. now rewrite (Z.mod_small _ _ Hb).
  - rewrite Hd. exact IH.
Qed.

Lemma le_bytes_inj (n : nat) (x y : Z) :
  le_bytes n x = le_bytes n y -> x mod 256 ^ Z.of_nat n = y mod 256 ^ Z.of_nat n.
Proof.
  intros H. rewrite <- !le_value_le_bytes. now rewrite H.
Qed.

Lemma u32_small (z : Z) : 0 <= z < 2 ^ 32 -> u32 z = z.
Proof. intros H. unfold u32. now apply Z.mod_small. Qed.

Lemma u64_small (z : Z) : 0 <= z < 2 ^ 64 -> u64 z = z.
Proof. intros H. unfold u64. now apply Z.mod_small. Qed.

Lemma u32_range (z : Z) : 0 <= u32 z < 2 ^ 32.
Proof. unfold u32. apply Z.mod_pos_bound. lia. Qed.

Lemma s64_small (z : Z) : 0 <= z < 2 ^ 63 -> s64 z = z.
Proof.
  intros H. unfold s64. destruct (Z.ltb_spec z (2 ^ 63)); lia.
Qed.

Lemma le4_value (z : Z) : le_value (le_bytes 4 z) = u32 z.
Proof. rewrite le_value_le_bytes. reflexivity. Qed.

Lemma le8_value (z : Z) : le_value (le_bytes 8 z) = u64 z.
Proof. rewrite le_value_le_bytes. reflexivity. Qed.

Lemma size_nonneg (s : bytes) : 0 <= size s.
Proof. unfold size. lia. Qed.

Lemma size_app (a b : bytes) : size (a ++ b) = size a + size b.
Proof. unfold size. rewrite length_app. lia. Qed.

Lemma size_nil : size [] = 0.
Proof. reflexivity. Qed.

Lemma size_le_bytes (n : nat) (z : Z) : size (le_bytes n z) = Z.of_nat n.
Proof. unfold size. now rewrite le_bytes_length. Qed.

Lemma empty_true_iff (s : bytes) : empty s = true <-> s = [].
Proof. destruct s; simpl; split; congruence. Qed.

Lemma empty_false_iff (s : bytes) : empty s = false <-> s <> [].
Proof. destruct s; simpl; split; congruence. Qed.

Lemma empty_size (s : bytes) : empty s = (size s =? 0).
Proof. destruct s; [reflexivity|]. unfold size. simpl length.
  symmetry. apply Z.eqb_neq. lia. Qed.

(** ** Views of a concatenation *)

Lemma memcpy_uint_app (n : nat) (a rest : bytes) :
  length a = n -> memcpy_uint n (a ++ rest) = le_value a.
Proof.
  intros H. unfold memcpy_uint. subst n.
  rewrite firstn_app, Nat.sub_diag, firstn_all. simpl. now rewrite app_nil_r.
Qed.

Lemma remove_prefix_app (n : Z) (a rest : bytes) :
  size a = n -> remove_prefix n (a ++ rest) = rest.
Proof.
  intros H. unfold remove_prefix, size in *. subst n.
  rewrite Nat2Z.id, skipn_app, Nat.sub_diag, skipn_all. reflexivity.
Qed.

Lemma view_app (n : Z) (a rest : bytes) :
  size a = n -> view n (a ++ rest) = a.
Proof.
  intros H. unfold view, size in *. subst n.
  rewrite Nat2Z.id, firstn_app, Nat.sub_diag, firstn_all. simpl.
  now rewrite app_nil_r.
Qed.

Lemma substr_app_mid (pre a rest : bytes) (pos n : Z) :
  size pre = pos -> size a = n -> substr ((pre ++ a) ++ rest) pos n = a.
Proof.
  intros Hp Hn. unfold substr. rewrite <- app_assoc.
  fold (remove_prefix pos (pre ++ a ++ rest)).
  rewrite (remove_prefix_app _ _ _ Hp).
  exact (view_app _ _ _ Hn).
Qed.

(** ** The order on strings *)

Lemma byte_compare_eq (x y : byte) :
  N.compare (Byte.to_N x) (Byte.to_N y) = Eq -> x = y.
Proof.
  intros H. apply N.compare_eq in H.
  apply Z_of_byte_inj. unfold Z_of_byte. now rewrite H.
Qed.

Lemma compare_refl (a : bytes) : compare a a = Eq.
Proof.
  induction a as [|x a IH]; [reflexivity|].
  simpl. now rewrite N.compare_refl.
Qed.

Lemma compare_eq (a b : bytes) : compare a b = Eq -> a = b.
Proof.
  revert b. induction a as [|x a IH]; intros [|y b]; simpl; try congruence.
  destruct (N.compare (Byte.to_N x) (Byte.to_N y)) eqn:E; try congruence.
  intros H. apply byte_compare_eq in E. f_equal; auto.
Qed.

Lemma compare_antisym (a b : bytes) : compare b a = CompOpp (compare a b).
Proof.
  revert b. induction a as [|x a IH]; intros [|y b]; simpl; try reflexivity.
  rewrite (N.compare_antisym (Byte.to_N x) (Byte.to_N y)).
  destruct (N.compare (Byte.to_N x) (Byte.to_N y)); simpl; auto.
Qed.

Lemma str_lt_trans (a b c : bytes) : str_lt a b -> str_lt b c -> str_lt a c.
Proof.
  unfold str_lt. revert b c.
  induction a as [|x a IH]; intros [|y b] [|z c]; simpl; try congruence.
  destruct (N.compare (Byte.to_N x) (Byte.to_N y)) eqn:Exy;
    destruct (N.compare (Byte.to_N y) (Byte.to_N z)) eqn:Eyz; try congruence.
  - apply N.compare_eq in Exy, Eyz. rewrite Exy, Eyz, N.compare_refl. apply IH.
  - apply N.compare_eq in Exy. rewrite Exy, Eyz. reflexivity.
  - apply N.compare_eq in Eyz. rewrite <- Eyz, Exy. reflexivity.
  - rewrite N.compare_lt_iff in Exy, Eyz.
    assert (E : N.compare (Byte.to_N x) (Byte.to_N z) = Lt)
      by (apply N.compare_lt_iff; lia).
    rewrite E. reflexivity.
Qed.

Lemma str_lt_irrefl (a : bytes) : ~ str_lt a a.
Proof. unfold str_lt. rewrite compare_refl. congruence. Qed.

Lemma str_lt_gt (a b : bytes) : str_lt a b <-> compare b a = Gt.
Proof.
  unfold str_lt. rewrite (compare_antisym a b).
  destruct (compare a b); simpl; split; congruence.
Qed.

Lemma str_ltb_lt (a b : bytes) : str_ltb a b = true <-> str_lt a b.
Proof. unfold str_ltb, str_lt. destruct (compare a b); split; congruence. Qed.

Lemma str_ltb_nlt (a b : bytes) : str_ltb a b = false <-> ~ str_lt a b.
Proof. unfold str_ltb, str_lt. destruct (compare a b); split; congruence. Qed.

Lemma str_eqb_eq (a b : bytes) : str_eqb a b = true <-> a = b.
Proof.
  unfold str_eqb. split.
  - destruct (compare a b) eqn:E; try congruence. intros _. now apply compare_eq.
  - intros ->. now rewrite compare_refl.
Qed.

Lemma str_eqb_neq (a b : bytes) : str_eqb a b = false <-> a <> b.
Proof.
  rewrite <- str_eqb_eq. destruct (str_eqb a b); split; congruence.
Qed.

Lemma str_gtb_lt (a b : bytes) : str_gtb a b = true <-> str_lt b a.
Proof.
  rewrite str_lt_gt. unfold str_gtb. destruct (compare a b); split; congruence.
Qed.

Lemma str_leb_nlt (a b : bytes) : str_leb a b = true <-> ~ str_lt b a.
Proof.
  rewrite str_lt_gt. unfold str_leb. destruct (compare a b); split; congruence.
Qed.

Lemma str_lt_total (a b : bytes) : str_lt a b \/ a = b \/ str_lt b a.
Proof.
  destruct (compare a b) eqn:E.
  - right; left. now apply compare_eq.
  - now left.
  - right; right. now apply str_lt_gt.
Qed.

(** ** Records *)

Lemma writeKV_record (buffer key value : bytes) :
  writeKV buffer key value = buffer ++ record key value.
Proof.
  unfold record, writeKV. simpl. now rewrite <- !app_assoc.
Qed.

Lemma record_unfold (key value : bytes) :
  record key value =
  le_bytes 4 (u32 (size key)) ++ key ++ le_bytes 4 (u32 (size value)) ++ value.
Proof. unfold record, writeKV. simpl app. now rewrite <- !app_assoc. Qed.

Lemma size_record (key value : bytes) : size (record key value) = 8 + size key + size value.
Proof.
  rewrite record_unfold, !size_app, !size_le_bytes. lia.
Qed.

Lemma record_not_nil (key value : bytes) : record key value <> [].
Proof.
  intros H. apply (f_equal size) in H. rewrite size_record, size_nil in H.
  pose proof (size_nonneg key). pose proof (size_nonneg value). lia.
Qed.

Lemma getEntrySize_fits (key value : bytes) :
  fits32 key value -> getEntrySize key value = size (record key value).
Proof.
  unfold fits32, getEntrySize. intros H. rewrite size_record.
  pose proof (size_nonneg key). pose proof (size_nonneg value).
  rewrite u32_small; lia.
Qed.

Lemma readKV_record (key value rest key0 value0 : bytes) :
  size key < 2 ^ 32 -> size value < 2 ^ 32 ->
  readKV (record key value ++ rest) key0 value0 = (true, rest, key, value).
Proof.
  intros Hk Hv.
  pose proof (size_nonneg key). pose proof (size_nonneg value).
  pose proof (size_nonneg rest).
  rewrite record_unfold, <- !app_assoc.
  rewrite !u32_small by lia.
  unfold readKV.
  rewrite (memcpy_uint_app 4) by apply le_bytes_length.
  rewrite remove_prefix_app by apply size_le_bytes.
  rewrite le4_value, u32_small by lia.
  rewrite view_app, remove_prefix_app by reflexivity.
  rewrite (memcpy_uint_app 4) by apply le_bytes_length.
  rewrite remove_prefix_app by apply size_le_bytes.
  rewrite le4_value, u32_small by lia.
  rewrite view_app, remove_prefix_app by reflexivity.
  rewrite !size_app, !size_le_bytes.
  repeat match goal with
         | |- context [?a <? ?b] => destruct (Z.ltb_spec a b); [lia|]
         end.
  reflexivity.
Qed.

(** ** Substrings *)

Lemma size_substr (s : bytes) (pos n : Z) :
  0 <= pos -> 0 <= n -> pos + n <= size s -> size (substr s pos n) = n.
Proof.
  intros Hp Hn Hs. unfold substr, size in *.
  rewrite length_firstn, length_skipn. lia.
Qed.

Lemma substr_split (s : bytes) (pos a b : Z) :
  0 <= pos -> 0 <= a -> 0 <= b ->
  substr s pos (a + b) = substr s pos a ++ substr s (pos + a) b.
Proof.
  intros Hp Ha Hb. unfold substr.
  rewrite !Z2Nat.inj_add by lia.
  rewrite (Nat.add_comm (Z.to_nat pos)), <- skipn_skipn.
  set (l := skipn (Z.to_nat pos) s).
  rewrite <- (firstn_skipn (Z.to_nat a) l) at 1.
  rewrite firstn_app, length_firstn.
  destruct (Nat.le_ge_cases (Z.to_nat a) (length l)) as [Hl|Hl].
  - rewrite Nat.min_l by exact Hl.
    rewrite firstn_firstn.
    replace (Nat.min (Z.to_nat a + Z.to_nat b) (Z.to_nat a)) with (Z.to_nat a) by lia.
    f_equal. f_equal; lia.
  - rewrite (skipn_all2 l) by exact Hl.
    rewrite !firstn_nil, !app_nil_r, firstn_firstn. f_equal; lia.
Qed.

Lemma substr_0_all (s : bytes) : substr s 0 (size s) = s.
Proof. unfold substr, size. rewrite Nat2Z.id. simpl. apply firstn_all. Qed.

Lemma bytes_of_value (n : nat) (bs : bytes) :
  length bs = n -> le_bytes n (le_value bs) = bs.
Proof. intros <-. apply le_bytes_le_value. Qed.

(* ================================================================== *)
(** * Footer decoding *)

Lemma magic_range : 0 <= SSTABLE_MAGIC_NUMBER < 2 ^ 64.
Proof. unfold SSTABLE_MAGIC_NUMBER. lia. Qed.

Lemma value_eq_iff_bytes (n : nat) (bs : bytes) (z : Z) :
  length bs = n -> 0 <= z < 256 ^ Z.of_nat n ->
  (le_value bs = z <-> bs = le_bytes n z).
Proof.
  intros Hl Hz. split.
  - intros <-. symmetry. now apply bytes_of_value.
  - intros ->. rewrite le_value_le_bytes. now apply Z.mod_small.
Qed.

Lemma Footer_DecodeFrom_cases (f : Footer) (input : bytes) :
  (fst (Footer_DecodeFrom f input) = false <->
     size input < 20 \/ substr input 12 8 <> le_bytes 8 SSTABLE_MAGIC_NUMBER) /\
  (fst (Footer_DecodeFrom f input) = false ->
     index_block_handle_ (snd (Footer_DecodeFrom f input)) = index_block_handle_ f) /\
  (fst (Footer_DecodeFrom f input) = true ->
     index_block_handle_ (snd (Footer_DecodeFrom f input)) =
     mkBlockHandle (le_value (substr input 0 8)) (le_value (substr input 8 4))).
Proof.
  unfold Footer_DecodeFrom.
  change (BLOCK_HANDLE_SIZE + 8) with 20. change BLOCK_HANDLE_SIZE with 12.
  destruct (Z.ltb_spec (size input) 20) as [Hs|Hs].
  { cbn [fst snd]. repeat split; try congruence. intros _. now left. }
  assert (Hmagic : memcpy_uint 8 (remove_prefix 12 input) = le_value (substr input 12 8))
    by reflexivity.
  rewrite Hmagic.
  assert (Hlen : length (substr input 12 8) = 8%nat).
  { pose proof (size_substr input 12 8) as E. unfold size in *. lia. }
  pose proof (value_eq_iff_bytes 8 (substr input 12 8) SSTABLE_MAGIC_NUMBER Hlen magic_range)
    as Hiff.
  destruct (Z.eqb_spec (le_value (substr input 12 8)) SSTABLE_MAGIC_NUMBER) as [E|E];
    cbn [negb fst snd index_block_handle_].
  - assert (Hh : size (substr input 0 12) = 12) by (apply size_substr; lia).
    unfold BlockHandle_DecodeFrom. change (8 + 4) with 12. rewrite Hh.
    cbn [Z.ltb Z.compare Pos.compare Pos.compare_cont fst snd index_block_handle_].
    repeat split; try congruence.
    + intros [Hlt|Hne]; [lia|]. exfalso. apply Hne. now apply Hiff.
    + intros _.
      change 12 with (8 + 4). rewrite (substr_split input 0 8 4) by lia.
      assert (H8 : size (substr input 0 8) = 8) by (apply size_substr; lia).
      assert (H4 : size (substr input (0 + 8) 4) = 4) by (apply size_substr; lia).
      rewrite (memcpy_uint_app 8) by (unfold size in H8; lia).
      rewrite (remove_prefix_app 8) by exact H8.
      rewrite <- (app_nil_r (substr input (0 + 8) 4)) at 1.
      rewrite (memcpy_uint_app 4) by (unfold size in H4; lia).
      reflexivity.
  - repeat split; try congruence.
    intros _. right. intros Hb. apply E. now apply Hiff.
Qed.

(** C5. [Footer::DecodeFrom] fails exactly when the input is shorter than 20
    bytes or the 8 bytes at offset 12 are not the magic constant; when it
    fails the footer keeps the index-block handle it had, and when it
    succeeds the handle is the offset and size stored in the first 12 bytes. *)
Theorem Footer_DecodeFrom_fail_closed (f : Footer) (input : bytes) :
  (fst (Footer_DecodeFrom f input) = false <->
     size input < 20 \/ substr input 12 8 <> le_bytes 8 SSTABLE_MAGIC_NUMBER) /\
  (fst (Footer_DecodeFrom f input) = false ->
     index_block_handle_ (snd (Footer_DecodeFrom f input)) = index_block_handle_ f) /\
  (fst (Footer_DecodeFrom f input) = true ->
     index_block_handle_ (snd (Footer_DecodeFrom f input)) =
     mkBlockHandle (le_value (substr input 0 8)) (le_value (substr input 8 4))).
Proof. exact (Footer_DecodeFrom_cases f input). Qed.


(* ================================================================== *)
(** * readKV: bounds and result *)

Lemma le_value_nonneg (bs : bytes) : 0 <= le_value bs.
Proof. apply le_value_range. Qed.

Lemma memcpy_at_nonneg (mem : bytes) (p : Z) (n : nat) : 0 <= memcpy_at mem p n.
Proof. apply le_value_nonneg. Qed.

Lemma memcpy_at_substr (mem : bytes) (p : Z) (n : nat) :
  memcpy_at mem p n = le_value (substr mem p (Z.of_nat n)).
Proof. unfold memcpy_at, memcpy_uint, substr. now rewrite Nat2Z.id. Qed.

Lemma substr_is_le4 (mem : bytes) (p : Z) :
  0 <= p -> p + 4 <= size mem ->
  substr mem p 4 = le_bytes 4 (memcpy_at mem p 4).
Proof.
  intros Hp Hs. rewrite (memcpy_at_substr mem p 4). symmetry.
  apply bytes_of_value.
  pose proof (size_substr mem p 4) as E. unfold size in *.
  change (Z.of_nat 4) with 4. lia.
Qed.

(** C6. [readKV] on a view of [n] bytes at [p]: it fails exactly when the
    view is too short for a length field or a declared length exceeds the
    bytes that remain; the bytes its two [memcpy] calls read lie inside the
    view; and when it succeeds, the key and the value are the declared
    ranges, the remaining view is the input without the consumed record, and
    the input is that record followed by the remaining view. *)
Theorem readKV_sv_bounds (mem : bytes) (input key value : string_view)
  (Hin : sv_within mem input) :
  let p := sv_data input in
  let n := sv_size input in
  let key_len := memcpy_at mem p 4 in
  let value_len := memcpy_at mem (p + 4 + key_len) 4 in
  let '(ok, input', key', value', reads) := readKV_sv mem input key value in
  (ok = false <->
     n < 4 \/ n - 4 < key_len \/ n - 4 - key_len < 4 \/ n - 8 - key_len < value_len) /\
  Forall (fun rd => p <= fst rd /\ fst rd + snd rd <= p + n) reads /\
  (ok = true ->
     key' = mk_sv (p + 4) key_len /\
     value' = mk_sv (p + 8 + key_len) value_len /\
     input' = mk_sv (p + 8 + key_len + value_len) (n - (8 + key_len + value_len)) /\
     sv_within mem key' /\ sv_within mem value' /\ sv_within mem input' /\
     sv_bytes mem input =
       le_bytes 4 key_len ++ sv_bytes mem key' ++
       le_bytes 4 value_len ++ sv_bytes mem value' ++ sv_bytes mem input').
Proof.
  destruct Hin as (Hp & Hn & Hm).
  destruct input as [p n]. cbn [sv_data sv_size] in *.
  cbv zeta. unfold readKV_sv, sv_remove_prefix. cbn [sv_data sv_size].
  pose proof (memcpy_at_nonneg mem p 4) as Hk.
  set (key_len := memcpy_at mem p 4) in *.
  replace (p + 4 + key_len + 4) with (p + 8 + key_len) by lia.
  replace (n - 4 - key_len - 4) with (n - 8 - key_len) by lia.
  pose proof (memcpy_at_nonneg mem (p + 4 + key_len) 4) as Hv.
  set (value_len := memcpy_at mem (p + 4 + key_len) 4) in *.
  assert (Hfail : forall (reads : list (Z * Z)) (D : Prop),
            D -> Forall (fun rd => p <= fst rd /\ fst rd + snd rd <= p + n) reads ->
            forall Q : Prop, (false = false <-> D) /\
              Forall (fun rd => p <= fst rd /\ fst rd + snd rd <= p + n) reads /\
              (false = true -> Q)).
  { intros reads D HD HF Q. repeat split; auto; discriminate. }
  destruct (Z.ltb_spec n 4) as [H1|H1].
  { apply Hfail; [lia | constructor]. }
  destruct (Z.ltb_spec (n - 4) key_len) as [H2|H2].
  { apply Hfail; [lia | repeat (constructor; [cbn [fst snd]; lia |]); constructor]. }
  destruct (Z.ltb_spec (n - 4 - key_len) 4) as [H3|H3].
  { apply Hfail; [lia | repeat (constructor; [cbn [fst snd]; lia |]); constructor]. }
  destruct (Z.ltb_spec (n - 8 - key_len) value_len) as [H4|H4].
  { apply Hfail; [lia | repeat (constructor; [cbn [fst snd]; lia |]); constructor]. }
  split; [|split].
  - split; [congruence|]. intros [?|[?|[?|?]]]; lia.
  - repeat (constructor; [cbn [fst snd]; lia |]). constructor.
  - intros _.
    replace (p + 8 + key_len + value_len) with (p + 4 + key_len + 4 + value_len) by lia.
    replace (p + 8 + key_len) with (p + 4 + key_len + 4) by lia.
    repeat apply conj; cbn [sv_data sv_size]; try lia; try (f_equal; lia).
    unfold sv_bytes. cbn [sv_data sv_size].
    replace (substr mem p n) with
      (substr mem p (4 + (key_len + (4 + (value_len + (n - 8 - key_len - value_len))))))
      by (f_equal; lia).
    rewrite !substr_split by lia.
    rewrite (substr_is_le4 mem p) by lia.
    rewrite (substr_is_le4 mem (p + 4 + key_len)) by lia.
    fold key_len value_len.
    reflexivity.
Qed.

(** Three records in storage, and a view of the last two: the second
    record is read. *)
Lemma readKV_sv_bounds_witness :
  let mem := record [x61] [x31] ++ record [x62; x63] [x32] ++ record [x64] [] in
  let input := mk_sv 10 20 in
  sv_within mem input /\
  fst (fst (fst (fst (readKV_sv mem input (mk_sv 0 0) (mk_sv 0 0))))) = true /\
  sv_bytes mem input =
    le_bytes 4 2 ++ [x62; x63] ++ le_bytes 4 1 ++ [x32] ++ record [x64] [].
Proof.
  cbv zeta.
  assert (Hin : sv_within (record [x61] [x31] ++ record [x62; x63] [x32] ++ record [x64] [])
                          (mk_sv 10 20))
    by (repeat split; vm_compute; discriminate).
  split; [exact Hin|].
  pose proof (readKV_sv_bounds _ _ (mk_sv 0 0) (mk_sv 0 0) Hin) as H.
  cbv zeta in H.
  destruct (readKV_sv _ _ _ _) as [[[[ok input'] key'] value'] reads] eqn:E in H |- *.
  destruct H as (Hfail & _ & Hok).
  assert (Hs : ok = true).
  { destruct ok; [reflexivity|]. exfalso.
    destruct Hfail as [Hfail _]. specialize (Hfail eq_refl).
    vm_compute in Hfail. intuition discriminate. }
  split; [exact Hs|].
  destruct (Hok Hs) as (_ & _ & _ & _ & _ & _ & Hb).
  rewrite Hb. vm_compute in E. injection E as _ <- <- <- _. reflexivity.
Defined.

(** [readKV] on lists of bytes is [readKV_sv] seen through the views. *)
Lemma readKV_refines (mem : bytes) (input key value : string_view) :
  sv_within mem input ->
  let '(ok, input', key', value', _) := readKV_sv mem input key value in
  readKV (sv_bytes mem input) (sv_bytes mem key) (sv_bytes mem value) =
    (ok, sv_bytes mem input', sv_bytes mem key', sv_bytes mem value').
Proof.
  intros (Hp & Hn & Hm).
  destruct input as [p n]. cbn [sv_data sv_size] in *.
  unfold readKV_sv, readKV, sv_remove_prefix, sv_bytes. cbn [sv_data sv_size].
  rewrite (size_substr mem p n) by lia.
  destruct (Z.ltb_spec n 4) as [H1|H1]; [reflexivity|].
  assert (Hrp : forall q m a, 0 <= q -> 0 <= a -> a <= m -> q + m <= size mem ->
            remove_prefix a (substr mem q m) = substr mem (q + a) (m - a)).
  { intros q m a Hq Ha Ham Hqm.
    replace m with (a + (m - a)) at 1 by lia.
    rewrite substr_split by lia. apply remove_prefix_app. apply size_substr; lia. }
  assert (Hvw : forall q m a, 0 <= q -> 0 <= a -> a <= m -> q + m <= size mem ->
            view a (substr mem q m) = substr mem q a).
  { intros q m a Hq Ha Ham Hqm.
    replace m with (a + (m - a)) at 1 by lia.
    rewrite substr_split by lia. apply view_app. apply size_substr; lia. }
  assert (Hmc : forall q m, 0 <= q -> 4 <= m -> q + m <= size mem ->
            memcpy_uint 4 (substr mem q m) = memcpy_at mem q 4).
  { intros q m Hq H4m Hqm. rewrite memcpy_at_substr.
    change (Z.of_nat 4) with 4.
    rewrite <- (Hvw q m 4) by lia. reflexivity. }
  rewrite Hmc, Hrp by lia.
  pose proof (memcpy_at_nonneg mem p 4) as Hk.
  set (key_len := memcpy_at mem p 4) in *.
  rewrite size_substr by lia.
  destruct (Z.ltb_spec (n - 4) key_len) as [H2|H2]; [reflexivity|].
  rewrite Hvw, Hrp by lia.
  rewrite size_substr by lia.
  destruct (Z.ltb_spec (n - 4 - key_len) 4) as [H3|H3]; [reflexivity|].
  rewrite Hmc, Hrp by lia.
  pose proof (memcpy_at_nonneg mem (p + 4 + key_len) 4) as Hv.
  set (value_len := memcpy_at mem (p + 4 + key_len) 4) in *.
  rewrite size_substr by lia.
  destruct (Z.ltb_spec (n - 4 - key_len - 4) value_len) as [H4|H4]; [reflexivity|].
  rewrite Hvw, Hrp by lia.
  reflexivity.
Qed.

(* ================================================================== *)
(** * The builder after Finish, and the builder that could not open *)

Lemma Add_closed (b : SSTableBuilder.t) (key value : bytes) :
  SSTableBuilder.finished_ b || of_fail (SSTableBuilder.ofs_ b) = true ->
  SSTableBuilder.Add b key value = (false, b).
Proof. intros H. unfold SSTableBuilder.Add. now rewrite H. Qed.

Lemma Finish_closed (b : SSTableBuilder.t) :
  SSTableBuilder.finished_ b || of_fail (SSTableBuilder.ofs_ b) = true ->
  SSTableBuilder.Finish b = (false, b).
Proof. intros H. unfold SSTableBuilder.Finish. now rewrite H. Qed.

Lemma Finish_true_finished (b0 b : SSTableBuilder.t) :
  SSTableBuilder.Finish b0 = (true, b) -> SSTableBuilder.finished_ b = true.
Proof.
  unfold SSTableBuilder.Finish.
  destruct (SSTableBuilder.finished_ b0 || of_fail (SSTableBuilder.ofs_ b0));
    intros H; inversion H; reflexivity.
Qed.

Lemma calls_closed (b : SSTableBuilder.t) (cs : list builder_call) :
  SSTableBuilder.finished_ b || of_fail (SSTableBuilder.ofs_ b) = true ->
  calls b cs = (map (fun _ => false) cs, b).
Proof.
  intros H. induction cs as [|c cs IH]; [reflexivity|].
  cbn [calls map]. destruct c as [key value|]; cbn [call].
  - rewrite (Add_closed b key value H), IH. reflexivity.
  - rewrite (Finish_closed b H), IH. reflexivity.
Qed.

(** C8. On a builder whose [Finish] has succeeded, and on a builder whose
    file could not be opened, every later [Add] and [Finish], in any number
    and order, returns [false] and leaves the builder, with the bytes
    written, as it was. *)
Theorem calls_after_Finish_or_failed_open
  (b : SSTableBuilder.t) (cs : list builder_call)
  (Hb : b = SSTableBuilder.new false \/
        exists b0, SSTableBuilder.Finish b0 = (true, b)) :
  calls b cs = (map (fun _ => false) cs, b).
Proof.
  apply calls_closed. destruct Hb as [-> | [b0 Hb0]].
  - reflexivity.
  - rewrite (Finish_true_finished b0 b Hb0). reflexivity.
Qed.

(** After one record and [Finish]: an [Add], a [Finish], an [Add]. *)
Lemma calls_after_Finish_or_failed_open_witness :
  let b0 := snd (SSTableBuilder.Add (SSTableBuilder.new true) [x61] [x31]) in
  let b := snd (SSTableBuilder.Finish b0) in
  let cs := [CallAdd [x62] [x32]; CallFinish; CallAdd [x63] []] in
  SSTableBuilder.Finish b0 = (true, b) /\
  calls b cs = ([false; false; false], b).
Proof.
  cbv zeta.
  assert (H : SSTableBuilder.Finish
                (snd (SSTableBuilder.Add (SSTableBuilder.new true) [x61] [x31])) =
              (true, snd (SSTableBuilder.Finish
                            (snd (SSTableBuilder.Add (SSTableBuilder.new true) [x61] [x31])))))
    by reflexivity.
  split; [exact H|].
  exact (calls_after_Finish_or_failed_open _
           [CallAdd [x62] [x32]; CallFinish; CallAdd [x63] []]
           (or_intror (ex_intro _ _ H))).
Defined.

(* ================================================================== *)
(** * The invalid reader *)

Lemma Get_invalid (r : SSTableReader.t) (key : bytes) :
  SSTableReader.is_valid r = false -> SSTableReader.Get r key = (None, r).
Proof.
  unfold SSTableReader.is_valid, SSTableReader.Get. intros ->. reflexivity.
Qed.

Lemma resized_full (n : Z) (got : bytes) : size got = n -> resized n got = got.
Proof.
  intros H. unfold resized, size in *.
  replace (Z.to_nat n - length got)%nat with 0%nat by lia.
  simpl. apply app_nil_r.
Qed.

Lemma substr_substr (s : bytes) (p n q m : Z) :
  0 <= p -> 0 <= q -> 0 <= m -> q + m <= n -> p + n <= size s ->
  substr (substr s p n) q m = substr s (p + q) m.
Proof.
  intros Hp Hq Hm Hqm Hn.
  replace n with (q + (m + (n - q - m))) by lia.
  rewrite (substr_split s p q) by lia.
  rewrite (substr_split s (p + q) m) by lia.
  rewrite app_assoc.
  apply substr_app_mid; apply size_substr; lia.
Qed.

Lemma ReadDataBlock_reader (r : SSTableReader.t) (h : BlockHandle) :
  snd (SSTableReader.ReadDataBlock r h) =
  SSTableReader.set_ifs r (SSTableReader.ifs_ (snd (SSTableReader.ReadDataBlock r h))).
Proof.
  unfold SSTableReader.ReadDataBlock.
  destruct (if_read _ _) as [ifs got]. reflexivity.
Qed.

Lemma LoadIndex_keeps_valid (r : SSTableReader.t) :
  SSTableReader.is_valid_ (snd (SSTableReader.LoadIndex r)) = SSTableReader.is_valid_ r.
Proof.
  unfold SSTableReader.LoadIndex.
  destruct (_ <? _); [reflexivity|].
  destruct (if_read _ _) as [ifs got].
  destruct (negb _); [reflexivity|].
  destruct (Footer_DecodeFrom _ _) as [ok footer].
  destruct (negb ok); [reflexivity|].
  match goal with
  | |- context [SSTableReader.ReadDataBlock ?r0 ?h] =>
      pose proof (ReadDataBlock_reader r0 h) as Hr;
      destruct (SSTableReader.ReadDataBlock r0 h) as [[ok1 content] r1]
  end.
  cbn [snd] in Hr.
  assert (Hv : SSTableReader.is_valid_ r1 = SSTableReader.is_valid_ r)
    by (rewrite Hr; reflexivity).
  destruct (negb ok1); [exact Hv|].
  destruct (SSTableReader.LoadIndex_loop _ _ _) as [[ok2 index]|]; exact Hv.
Qed.

Lemma new_valid_LoadIndex (data : bytes) :
  SSTableReader.is_valid (SSTableReader.new (Some data)) =
  fst (SSTableReader.LoadIndex
         (SSTableReader.mk (ifstream_open (Some data)) Footer_default false [])).
Proof.
  unfold SSTableReader.new. cbn [ifstream_open SSTableReader.ifs_ if_fail].
  pose proof (LoadIndex_keeps_valid
                (SSTableReader.mk (mk_ifstream true false (size data) data [])
                                  Footer_default false [])) as Hv.
  destruct (SSTableReader.LoadIndex _) as [[|] r]; [reflexivity|].
  cbn in Hv |- *. exact Hv.
Qed.

Lemma LoadIndex_small (data : bytes) :
  size data < 20 ->
  fst (SSTableReader.LoadIndex
         (SSTableReader.mk (ifstream_open (Some data)) Footer_default false [])) = false.
Proof.
  intros H. unfold SSTableReader.LoadIndex.
  cbn [ifstream_open SSTableReader.ifs_ if_tellg if_fail if_pos].
  change FOOTER_SIZE with 20.
  destruct (Z.ltb_spec (size data) 20); [reflexivity | lia].
Qed.

(** The footer read of [LoadIndex] on a file of at least 20 bytes. *)
Lemma footer_read (data : bytes) :
  20 <= size data ->
  if_read (if_seekg (mk_ifstream true false (size data) data []) (size data - 20)) 20 =
  (mk_ifstream true false (size data) data [(size data - 20, 20)],
   substr data (size data - 20) 20).
Proof.
  intros H. unfold if_seekg, if_read.
  cbn [if_fail if_is_open if_pos if_data if_log negb orb].
  destruct (Z.ltb_spec (size data - 20) 0); [lia|].
  cbn [if_fail if_is_open if_pos if_data if_log negb orb app].
  rewrite size_substr by lia.
  replace (size data - 20 + 20) with (size data) by lia. reflexivity.
Qed.

Lemma LoadIndex_bad_magic (data : bytes) :
  20 <= size data ->
  substr data (size data - 8) 8 <> le_bytes 8 SSTABLE_MAGIC_NUMBER ->
  fst (SSTableReader.LoadIndex
         (SSTableReader.mk (ifstream_open (Some data)) Footer_default false [])) = false.
Proof.
  intros Hs Hm. unfold SSTableReader.LoadIndex.
  cbn [ifstream_open SSTableReader.ifs_ if_tellg if_fail if_pos].
  change FOOTER_SIZE with 20.
  destruct (Z.ltb_spec (size data) 20); [lia|].
  rewrite footer_read by lia.
  assert (Hg : size (substr data (size data - 20) 20) = 20) by (apply size_substr; lia).
  rewrite Hg, resized_full by exact Hg.
  cbn [Z.eqb Pos.eqb negb SSTableReader.set_ifs SSTableReader.footer_].
  destruct (Footer_DecodeFrom_cases Footer_default (substr data (size data - 20) 20))
    as ((_ & Hfail) & _ & _).
  destruct (Footer_DecodeFrom Footer_default (substr data (size data - 20) 20))
    as [ok footer] eqn:E.
  cbn [fst] in Hfail. rewrite Hfail; [reflexivity|].
  right. rewrite substr_substr by lia.
  replace (size data - 20 + 12) with (size data - 8) by lia. exact Hm.
Qed.

(** C4. A file whose last 8 bytes are not the magic constant, and a file of
    fewer than 20 bytes, give a reader that reports invalid; and on an
    invalid reader every [Get] returns not-found and leaves the reader, with
    the log of the reads it has issued, untouched. *)
Theorem invalid_reader_serves_nothing :
  (forall data : bytes,
     size data < 20 \/ substr data (size data - 8) 8 <> le_bytes 8 SSTABLE_MAGIC_NUMBER ->
     SSTableReader.is_valid (SSTableReader.new (Some data)) = false) /\
  (forall (r : SSTableReader.t) (key : bytes),
     SSTableReader.is_valid r = false -> SSTableReader.Get r key = (None, r)).
Proof.
  split.
  - intros data H. rewrite new_valid_LoadIndex.
    destruct (Z.lt_ge_cases (size data) 20) as [Hs|Hs].
    + now apply LoadIndex_small.
    + destruct H as [H|H]; [lia|]. now apply LoadIndex_bad_magic.
  - exact Get_invalid.
Qed.

(** The table of no records with the last byte of its magic number changed,
    and the same table cut to 19 bytes. *)
Lemma invalid_reader_serves_nothing_witness :
  let corrupted := firstn 19 (build []) ++ [x00] in
  let truncated := firstn 19 (build []) in
  SSTableReader.is_valid (SSTableReader.new (Some (build []))) = true /\
  SSTableReader.is_valid (SSTableReader.new (Some corrupted)) = false /\
  SSTableReader.is_valid (SSTableReader.new (Some truncated)) = false /\
  SSTableReader.Get (SSTableReader.new (Some corrupted)) [x61] =
    (None, SSTableReader.new (Some corrupted)).
Proof.
  cbv zeta. destruct invalid_reader_serves_nothing as [Hnew Hget].
  split; [reflexivity|]. split; [|split].
  - apply Hnew. right. vm_compute. discriminate.
  - apply Hnew. left. vm_compute. reflexivity.
  - apply Hget. apply Hnew. right. vm_compute. discriminate.
Defined.

(* ================================================================== *)
(** * The table of no records *)

(** C10. [Finish] on a fresh builder succeeds and leaves a file of 20 bytes:
    no index-block bytes, and the footer whose handle has offset 0 and size
    0.  The reader opened on that file is valid, its index has no entry, and
    [Get] returns not-found for every key and leaves the reader, with the
    log of the reads it has issued, untouched. *)
Theorem Finish_without_Add :
  fst (SSTableBuilder.Finish (SSTableBuilder.new true)) = true /\
  build [] = Footer_EncodeTo (mkFooter (mkBlockHandle 0 0) SSTABLE_MAGIC_NUMBER) [] /\
  size (build []) = 20 /\
  SSTableReader.is_valid (SSTableReader.new (Some (build []))) = true /\
  SSTableReader.index_data_ (SSTableReader.new (Some (build []))) = [] /\
  index_block_handle_ (SSTableReader.footer_ (SSTableReader.new (Some (build [])))) =
    mkBlockHandle 0 0 /\
  forall key : bytes,
    SSTableReader.Get (SSTableReader.new (Some (build []))) key =
    (None, SSTableReader.new (Some (build []))).
Proof.
  repeat split; try (vm_compute; reflexivity).
Qed.

(* ================================================================== *)
(** * Add, case by case *)

Lemma usable_open (b : SSTableBuilder.t) :
  usable b -> SSTableBuilder.finished_ b || of_fail (SSTableBuilder.ofs_ b) = false.
Proof. intros [-> ->]. reflexivity. Qed.

Lemma Add_true_usable (b : SSTableBuilder.t) (key value : bytes) :
  fst (SSTableBuilder.Add b key value) = true -> usable b.
Proof.
  unfold SSTableBuilder.Add, usable.
  destruct (SSTableBuilder.finished_ b), (of_fail (SSTableBuilder.ofs_ b));
    cbn; try discriminate. auto.
Qed.

Lemma of_write_ok (s : ofstream) (buf : bytes) :
  of_fail s = false ->
  of_write s buf = mk_ofstream (of_is_open s) false (of_data s ++ buf).
Proof. intros H. unfold of_write. rewrite H. reflexivity. Qed.

Lemma of_tellp_ok (s : ofstream) : of_fail s = false -> of_tellp s = size (of_data s).
Proof. intros H. unfold of_tellp. now rewrite H. Qed.

(** The first record of a block, on a builder with no key recorded or a
    key that passes the order test. *)
Lemma Add_first (b : SSTableBuilder.t) (key value : bytes) :
  usable b -> SSTableBuilder.cur_data_block_ b = [] ->
  SSTableBuilder.last_key_in_block_ b = [] \/
  str_lt (SSTableBuilder.last_key_in_block_ b) key ->
  SSTableBuilder.Add b key value =
  (true, SSTableBuilder.mk (SSTableBuilder.ofs_ b) false (record key value) key
           (u64 (size (written b))) (SSTableBuilder.index_data_ b)).
Proof.
  intros Hu Hc Hk. unfold SSTableBuilder.Add.
  rewrite (usable_open b Hu), Hc. destruct Hu as [Hf Hs].
  assert (Hchk : negb (empty (SSTableBuilder.last_key_in_block_ b)) && empty []
                 && str_leb key (SSTableBuilder.last_key_in_block_ b) = false).
  { destruct Hk as [-> | Hlt]; [reflexivity|].
    destruct (str_leb key _) eqn:E; [|apply andb_false_r].
    apply str_leb_nlt in E. contradiction. }
  rewrite Hchk. cbn [empty SSTableBuilder.set_offset SSTableBuilder.ofs_
    SSTableBuilder.finished_ SSTableBuilder.cur_data_block_
    SSTableBuilder.cur_data_block_offset_ SSTableBuilder.index_data_].
  rewrite of_tellp_ok, Hf, Hc by exact Hs. reflexivity.
Qed.

(** The order test, where it is consulted. *)
Lemma Add_reject (b : SSTableBuilder.t) (key value : bytes) :
  SSTableBuilder.cur_data_block_ b = [] ->
  SSTableBuilder.last_key_in_block_ b <> [] ->
  ~ str_lt (SSTableBuilder.last_key_in_block_ b) key ->
  SSTableBuilder.Add b key value = (false, b).
Proof.
  intros Hc Hl Hk. unfold SSTableBuilder.Add.
  destruct (_ || _); [reflexivity|].
  rewrite Hc. apply empty_false_iff in Hl. rewrite Hl.
  apply str_leb_nlt in Hk. rewrite Hk. reflexivity.
Qed.

(** A record added to a block that has room for it. *)
Lemma Add_append (b : SSTableBuilder.t) (key value : bytes) :
  usable b -> SSTableBuilder.cur_data_block_ b <> [] ->
  size (SSTableBuilder.cur_data_block_ b) + getEntrySize key value
    <= DATA_BLOCK_SIZE_THRESHOLD ->
  SSTableBuilder.Add b key value =
  (true, SSTableBuilder.mk (SSTableBuilder.ofs_ b) false
           (SSTableBuilder.cur_data_block_ b ++ record key value) key
           (SSTableBuilder.cur_data_block_offset_ b) (SSTableBuilder.index_data_ b)).
Proof.
  intros Hu Hc Hs. unfold SSTableBuilder.Add.
  rewrite (usable_open b Hu). destruct Hu as [Hf _].
  apply empty_false_iff in Hc. rewrite Hc, andb_false_r. cbn [andb].
  destruct (Z.gtb_spec (size (SSTableBuilder.cur_data_block_ b) + getEntrySize key value)
              DATA_BLOCK_SIZE_THRESHOLD); [lia|].
  rewrite writeKV_record, Hf. reflexivity.
Qed.

(** A record that does not fit the block: the block is flushed first. *)
Lemma Add_flush (b : SSTableBuilder.t) (key value : bytes) :
  usable b -> SSTableBuilder.cur_data_block_ b <> [] ->
  size (SSTableBuilder.cur_data_block_ b) + getEntrySize key value
    > DATA_BLOCK_SIZE_THRESHOLD ->
  SSTableBuilder.Add b key value =
  (true, SSTableBuilder.mk
           (mk_ofstream (of_is_open (SSTableBuilder.ofs_ b)) false
                        (written b ++ SSTableBuilder.cur_data_block_ b))
           false (record key value) key
           (u64 (size (written b ++ SSTableBuilder.cur_data_block_ b)))
           (map_assign (SSTableBuilder.index_data_ b)
              (SSTableBuilder.last_key_in_block_ b)
              (mkBlockHandle (SSTableBuilder.cur_data_block_offset_ b)
                 (u32 (size (SSTableBuilder.cur_data_block_ b)))))).
Proof.
  intros Hu Hc Hs. unfold SSTableBuilder.Add.
  rewrite (usable_open b Hu). destruct Hu as [Hf Hfail].
  apply empty_false_iff in Hc. rewrite Hc, andb_false_r. cbn [andb].
  destruct (Z.gtb_spec (size (SSTableBuilder.cur_data_block_ b) + getEntrySize key value)
              DATA_BLOCK_SIZE_THRESHOLD); [|lia].
  unfold SSTableBuilder.FlushDataBlock. rewrite Hc.
  rewrite (of_write_ok _ _ Hfail).
  cbn [SSTableBuilder.set_offset SSTableBuilder.ofs_ SSTableBuilder.finished_
       SSTableBuilder.cur_data_block_ SSTableBuilder.cur_data_block_offset_
       SSTableBuilder.index_data_ SSTableBuilder.last_key_in_block_].
  rewrite of_tellp_ok by reflexivity.
  rewrite writeKV_record, Hf. reflexivity.
Qed.

Lemma FlushDataBlock_empty (b : SSTableBuilder.t) :
  SSTableBuilder.cur_data_block_ b = [] -> SSTableBuilder.FlushDataBlock b = b.
Proof. intros H. unfold SSTableBuilder.FlushDataBlock. now rewrite H. Qed.

Lemma size_value_4G_minus_8 : size value_4G_minus_8 = 2 ^ 32 - 8.
Proof.
  unfold size, value_4G_minus_8. rewrite repeat_length. apply Z2Nat.id. lia.
Qed.

Lemma size_value_4G : size value_4G = 2 ^ 32.
Proof.
  unfold size, value_4G. rewrite repeat_length. apply Z2Nat.id. lia.
Qed.

(* ================================================================== *)
(** * Block splitting *)

(** C7, as stated, at a record of [2^32] bytes.  The builder holds the record
    of the empty key and value, 8 bytes; the record of the empty key and
    [value_4G_minus_8] would take the buffer far past 128 bytes, but
    [getEntrySize] returns its size as a [uint32_t], which is 0: [Add]
    succeeds, nothing is written, and the record joins the buffer. *)
Lemma Add_flush_counterexample :
  let b := snd (SSTableBuilder.Add (SSTableBuilder.new true) [] []) in
  let b' := snd (SSTableBuilder.Add b [] value_4G_minus_8) in
  fst (SSTableBuilder.Add b [] value_4G_minus_8) = true /\
  SSTableBuilder.cur_data_block_ b <> [] /\
  size (SSTableBuilder.cur_data_block_ b) + size (record [] value_4G_minus_8)
    > DATA_BLOCK_SIZE_THRESHOLD /\
  written b' <> written b ++ SSTableBuilder.cur_data_block_ b /\
  written b' = [] /\
  SSTableBuilder.cur_data_block_ b' = record [] [] ++ record [] value_4G_minus_8.
Proof.
  cbv zeta.
  assert (Hb : snd (SSTableBuilder.Add (SSTableBuilder.new true) [] []) =
               SSTableBuilder.mk (mk_ofstream true false []) false (record [] []) [] 0 [])
    by reflexivity.
  rewrite Hb. clear Hb.
  set (b := SSTableBuilder.mk (mk_ofstream true false []) false (record [] []) [] 0 []).
  assert (Hu : usable b) by (split; reflexivity).
  assert (Hc : SSTableBuilder.cur_data_block_ b <> []) by (cbn; discriminate).
  assert (Hsz : size (SSTableBuilder.cur_data_block_ b) = 8) by reflexivity.
  assert (He : getEntrySize [] value_4G_minus_8 = 0).
  { unfold getEntrySize. rewrite size_value_4G_minus_8, size_nil. reflexivity. }
  assert (Ha := Add_append b [] value_4G_minus_8 Hu Hc).
  rewrite Hsz, He in Ha. specialize (Ha ltac:(unfold DATA_BLOCK_SIZE_THRESHOLD; lia)).
  rewrite Ha. cbn [fst snd].
  split; [reflexivity|]. split; [exact Hc|]. split.
  { rewrite Hsz, size_record, size_value_4G_minus_8, size_nil.
    unfold DATA_BLOCK_SIZE_THRESHOLD. lia. }
  unfold written. cbn [SSTableBuilder.ofs_ SSTableBuilder.cur_data_block_ of_data b].
  split; [|split; reflexivity].
  cbn [app]. intros E. symmetry in E. exact (record_not_nil [] [] E).
Qed.

(** C7. On a successful [Add] of a record whose encoded size fits 32 bits,
    when the buffer is not empty and the record would take it past 128
    bytes: the buffer has been written to the file and entered in the index
    under the last key, the record alone is the new buffer, and the offset
    tag is the end of the file after the write.  And [FlushDataBlock] on an
    empty buffer changes nothing: no byte written, no index entry. *)
Theorem Add_flushes_before_crossing_threshold :
  (forall (b : SSTableBuilder.t) (key value : bytes),
     fst (SSTableBuilder.Add b key value) = true ->
     SSTableBuilder.cur_data_block_ b <> [] ->
     fits32 key value ->
     size (SSTableBuilder.cur_data_block_ b) + size (record key value)
       > DATA_BLOCK_SIZE_THRESHOLD ->
     let b' := snd (SSTableBuilder.Add b key value) in
     written b' = written b ++ SSTableBuilder.cur_data_block_ b /\
     SSTableBuilder.index_data_ b' =
       map_assign (SSTableBuilder.index_data_ b) (SSTableBuilder.last_key_in_block_ b)
         (mkBlockHandle (SSTableBuilder.cur_data_block_offset_ b)
            (u32 (size (SSTableBuilder.cur_data_block_ b)))) /\
     SSTableBuilder.cur_data_block_ b' = record key value /\
     SSTableBuilder.cur_data_block_offset_ b' = u64 (size (written b'))) /\
  (forall b : SSTableBuilder.t,
     SSTableBuilder.cur_data_block_ b = [] -> SSTableBuilder.FlushDataBlock b = b).
Proof.
  split; [|exact FlushDataBlock_empty].
  intros b key value Hok Hc Hfit Hs b'. subst b'.
  apply Add_true_usable in Hok.
  rewrite <- (getEntrySize_fits key value Hfit) in Hs.
  rewrite (Add_flush b key value Hok Hc Hs). cbn [snd].
  unfold written. cbn. auto.
Qed.

(** A buffer of 100 bytes and a record of 39. *)
Lemma Add_flushes_before_crossing_threshold_witness :
  let k1 := [x61] in let v1 := repeat x00 91 in
  let k2 := [x62] in let v2 := repeat x00 30 in
  let b := snd (SSTableBuilder.Add (SSTableBuilder.new true) k1 v1) in
  let b' := snd (SSTableBuilder.Add b k2 v2) in
  written b = [] /\ written b' = record k1 v1 /\
  SSTableBuilder.index_data_ b' = [(k1, mkBlockHandle 0 100)] /\
  SSTableBuilder.cur_data_block_ b' = record k2 v2 /\
  SSTableBuilder.cur_data_block_offset_ b' = 100.
Proof.
  cbv zeta.
  destruct Add_flushes_before_crossing_threshold as [H _].
  specialize (H (snd (SSTableBuilder.Add (SSTableBuilder.new true) [x61] (repeat x00 91)))
                [x62] (repeat x00 30)).
  cbv zeta in H.
  destruct H as (Hw & Hi & Hc & Ho).
  - reflexivity.
  - vm_compute. discriminate.
  - unfold fits32. vm_compute. reflexivity.
  - vm_compute. reflexivity.
  - split; [reflexivity|]. rewrite Hw, Hi, Hc, Ho, Hw. repeat split.
Defined.

(* ================================================================== *)
(** * The size of the block buffer *)

Lemma AddAll_app (b : SSTableBuilder.t) (kvs1 kvs2 : list (bytes * bytes)) :
  AddAll b (kvs1 ++ kvs2) = AddAll (AddAll b kvs1) kvs2.
Proof.
  revert b. induction kvs1 as [|[k v] kvs1 IH]; intros b; [reflexivity|].
  cbn [AddAll app]. apply IH.
Qed.

Lemma accepting_new : accepting (SSTableBuilder.new true).
Proof. repeat split. Qed.

Lemma Add_accepting (b : SSTableBuilder.t) (key value : bytes) :
  accepting b ->
  fst (SSTableBuilder.Add b key value) = true /\
  accepting (snd (SSTableBuilder.Add b key value)).
Proof.
  intros [Hu He].
  assert (Hne : forall l, l ++ record key value <> []).
  { intros l E. apply app_eq_nil in E. exact (record_not_nil key value (proj2 E)). }
  destruct (SSTableBuilder.cur_data_block_ b) as [|c cur] eqn:Hc.
  - rewrite (Add_first b key value Hu Hc (or_introl (He eq_refl))).
    split; [reflexivity|]. split; [split; [reflexivity | apply Hu]|].
    cbn. intros E. destruct (record_not_nil key value E).
  - assert (Hc' : SSTableBuilder.cur_data_block_ b <> []) by (rewrite Hc; discriminate).
    destruct (Z_gt_le_dec
                (size (SSTableBuilder.cur_data_block_ b) + getEntrySize key value)
                DATA_BLOCK_SIZE_THRESHOLD) as [Hs|Hs].
    + rewrite (Add_flush b key value Hu Hc' Hs).
      split; [reflexivity|]. split; [split; reflexivity|].
      cbn. intros E. destruct (record_not_nil key value E).
    + rewrite (Add_append b key value Hu Hc' Hs).
      split; [reflexivity|]. split; [split; [reflexivity | apply Hu]|].
      cbn [SSTableBuilder.cur_data_block_]. intros E. destruct (Hne _ E).
Qed.

Lemma AddAll_accepting (b : SSTableBuilder.t) (kvs : list (bytes * bytes)) :
  accepting b -> accepting (AddAll b kvs).
Proof.
  revert b. induction kvs as [|[k v] kvs IH]; intros b Hb; [exact Hb|].
  cbn [AddAll]. apply IH. now apply Add_accepting.
Qed.

Lemma str_lt_dec (a b : bytes) : {str_lt a b} + {~ str_lt a b}.
Proof.
  unfold str_lt. destruct (compare a b); [right | left | right]; congruence.
Qed.

Lemma first_of_block_cases (b : SSTableBuilder.t) (key : bytes) :
  (SSTableBuilder.last_key_in_block_ b = [] \/
   str_lt (SSTableBuilder.last_key_in_block_ b) key) \/
  (SSTableBuilder.last_key_in_block_ b <> [] /\
   ~ str_lt (SSTableBuilder.last_key_in_block_ b) key).
Proof.
  destruct (SSTableBuilder.last_key_in_block_ b) as [|c l] eqn:E; [left; now left|].
  destruct (str_lt_dec (c :: l) key) as [H|H].
  - left. now right.
  - right. split; [discriminate | exact H].
Qed.

Lemma Add_small_or_single (b : SSTableBuilder.t) (key value : bytes) :
  fst (SSTableBuilder.Add b key value) = true -> fits32 key value ->
  size (SSTableBuilder.cur_data_block_ (snd (SSTableBuilder.Add b key value)))
    <= DATA_BLOCK_SIZE_THRESHOLD \/
  SSTableBuilder.cur_data_block_ (snd (SSTableBuilder.Add b key value)) = record key value.
Proof.
  intros Hok Hfit. pose proof (Add_true_usable b key value Hok) as Hu.
  destruct (SSTableBuilder.cur_data_block_ b) as [|c cur] eqn:Hc.
  - right.
    destruct (first_of_block_cases b key) as [Hk|[Hl Hk]].
    + rewrite (Add_first b key value Hu Hc Hk). reflexivity.
    + rewrite (Add_reject b key value Hc Hl Hk) in Hok. discriminate Hok.
  - assert (Hc' : SSTableBuilder.cur_data_block_ b <> []) by (rewrite Hc; discriminate).
    destruct (Z_gt_le_dec
                (size (SSTableBuilder.cur_data_block_ b) + getEntrySize key value)
                DATA_BLOCK_SIZE_THRESHOLD) as [Hs|Hs].
    + right. rewrite (Add_flush b key value Hu Hc' Hs). reflexivity.
    + left. rewrite (Add_append b key value Hu Hc' Hs).
      cbn [snd SSTableBuilder.cur_data_block_].
      rewrite size_app, <- (getEntrySize_fits key value Hfit). exact Hs.
Qed.

Lemma Forall_zero_repeat (n : nat) : Forall (eq x00) (repeat x00 n).
Proof. apply Forall_forall. intros x Hx. symmetry. exact (repeat_spec _ _ _ Hx). Qed.

Lemma le4_zero (z : Z) : le_bytes 4 z = [x00; x00; x00; x00] -> u32 z = 0.
Proof.
  intros H. rewrite <- le4_value, H. reflexivity.
Qed.

(** Two records in a row, the second with a value of [2^32] zero bytes, are
    not the encoding of any one record. *)
Lemma two_records_not_one (v : bytes) :
  size v = 2 ^ 32 -> Forall (eq x00) v ->
  ~ exists key value, record [] [] ++ record [x61] v = record key value.
Proof.
  intros Hs Hz (k & w & E).
  pose proof (size_nonneg k) as Hk0. pose proof (size_nonneg w) as Hw0.
  assert (Hsize : 17 + 2 ^ 32 = 8 + size k + size w).
  { apply (f_equal size) in E. rewrite size_app, !size_record, Hs in E.
    change (size []) with 0 in E. change (size [x61]) with 1 in E. lia. }
  rewrite (record_unfold [x61] v), (record_unfold k w), Hs in E.
  change (record [] []) with [x00; x00; x00; x00; x00; x00; x00; x00] in E.
  change (le_bytes 4 (u32 (size [x61]))) with [x01; x00; x00; x00] in E.
  change (le_bytes 4 (u32 (2 ^ 32))) with [x00; x00; x00; x00] in E.
  cbn [app le_bytes] in E. injection E as e0 e1 e2 e3 E.
  assert (HK : le_bytes 4 (u32 (size k)) = [x00; x00; x00; x00])
    by (cbn [le_bytes]; now rewrite <- e0, <- e1, <- e2, <- e3).
  apply le4_zero in HK. clear e0 e1 e2 e3.
  assert (Hu : u32 (size k) = 0) by (rewrite <- HK; unfold u32; now rewrite Z.mod_mod).
  unfold u32 in Hu.
  pose proof (Z.div_mod (size k) (2 ^ 32) ltac:(lia)) as Hdm. rewrite Hu in Hdm.
  assert (Hcase : size k = 0 \/ size k = 2 ^ 32) by lia.
  destruct Hcase as [Hk|Hk].
  - assert (k = []) by (destruct k; [reflexivity | discriminate Hk]). subst k.
    cbn [app le_bytes] in E. injection E as e0 e1 e2 e3 E.
    assert (HW : le_bytes 4 (u32 (size w)) = [x00; x00; x00; x00])
      by (cbn [le_bytes]; now rewrite <- e0, <- e1, <- e2, <- e3).
    apply le4_zero in HW.
    assert (Hw : size w = 9 + 2 ^ 32) by (change (size []) with 0 in Hsize; lia).
    rewrite Hw in HW. vm_compute in HW. discriminate HW.
  - assert (Hw : size w = 9) by lia.
    rewrite Hw in E. change (le_bytes 4 (u32 9)) with [x09; x00; x00; x00] in E.
    change (x00 :: x00 :: x00 :: x00 :: x01 :: x00 :: x00 :: x00 :: x61
              :: x00 :: x00 :: x00 :: x00 :: v)
      with ([x00; x00; x00; x00; x01; x00; x00; x00; x61; x00; x00; x00; x00] ++ v) in E.
    apply app_eq_app in E. destruct E as (l & [[E1 E2] | [E1 E2]]).
    + apply (f_equal size) in E1. rewrite size_app, Hk in E1.
      pose proof (size_nonneg l). change (size _) with 13 in E1 at 1. lia.
    + rewrite E2 in Hz. apply Forall_app in Hz. destruct Hz as [_ Hz].
      inversion Hz as [|? ? H9 _]. discriminate H9.
Qed.

(** C9, as stated, at a record of more than [2^32] bytes.  The buffer holds
    one record of 8 bytes; the record of key [a] and [value_4G] has
    [getEntrySize] 9, so it joins the buffer without a flush, and the buffer
    then holds two records in more than 128 bytes. *)
Lemma Add_block_invariant_counterexample :
  let b := snd (SSTableBuilder.Add (SSTableBuilder.new true) [] []) in
  let b' := snd (SSTableBuilder.Add b [x61] value_4G) in
  small_or_single (SSTableBuilder.cur_data_block_ b) /\
  fst (SSTableBuilder.Add b [x61] value_4G) = true /\
  SSTableBuilder.cur_data_block_ b' = record [] [] ++ record [x61] value_4G /\
  ~ small_or_single (SSTableBuilder.cur_data_block_ b').
Proof.
  cbv zeta.
  assert (Hb : snd (SSTableBuilder.Add (SSTableBuilder.new true) [] []) =
               SSTableBuilder.mk (mk_ofstream true false []) false (record [] []) [] 0 [])
    by reflexivity.
  rewrite Hb. clear Hb.
  set (b := SSTableBuilder.mk (mk_ofstream true false []) false (record [] []) [] 0 []).
  assert (Hu : usable b) by (split; reflexivity).
  assert (Hc : SSTableBuilder.cur_data_block_ b <> []) by (cbn; discriminate).
  assert (Hsz : size (SSTableBuilder.cur_data_block_ b) = 8) by reflexivity.
  assert (He : getEntrySize [x61] value_4G = 9).
  { unfold getEntrySize. rewrite size_value_4G. reflexivity. }
  assert (Ha := Add_append b [x61] value_4G Hu Hc).
  rewrite Hsz, He in Ha. specialize (Ha ltac:(unfold DATA_BLOCK_SIZE_THRESHOLD; lia)).
  rewrite Ha. cbn [fst snd SSTableBuilder.cur_data_block_ b].
  split; [left; vm_compute; discriminate|].
  split; [reflexivity|]. split; [reflexivity|].
  intros [Hsmall | Hone].
  - rewrite size_app, !size_record, size_value_4G in Hsmall.
    change (size []) with 0 in Hsmall. change (size [x61]) with 1 in Hsmall.
    unfold DATA_BLOCK_SIZE_THRESHOLD in Hsmall. lia.
  - exact (two_records_not_one value_4G size_value_4G (Forall_zero_repeat _) Hone).
Qed.

(** C9. Every successful [Add] of a record whose encoded size fits 32 bits
    leaves a buffer of at most 128 bytes or of that record alone.  A builder
    between its constructor and [Finish] accepts every record, whatever its
    size.  A record of more than 128 bytes offered to a fresh builder is
    accepted and is the buffer; flushed, it is one data block of its own
    size. *)
Theorem Add_block_small_or_single :
  (forall (b : SSTableBuilder.t) (key value : bytes),
     fst (SSTableBuilder.Add b key value) = true -> fits32 key value ->
     small_or_single (SSTableBuilder.cur_data_block_ b) ->
     small_or_single
       (SSTableBuilder.cur_data_block_ (snd (SSTableBuilder.Add b key value)))) /\
  (forall (kvs : list (bytes * bytes)) (key value : bytes),
     fst (SSTableBuilder.Add (AddAll (SSTableBuilder.new true) kvs) key value) = true) /\
  (forall key value : bytes,
     fits32 key value -> DATA_BLOCK_SIZE_THRESHOLD < size (record key value) ->
     let b := snd (SSTableBuilder.Add (SSTableBuilder.new true) key value) in
     fst (SSTableBuilder.Add (SSTableBuilder.new true) key value) = true /\
     SSTableBuilder.cur_data_block_ b = record key value /\
     written (SSTableBuilder.FlushDataBlock b) = record key value /\
     SSTableBuilder.index_data_ (SSTableBuilder.FlushDataBlock b) =
       [(key, mkBlockHandle 0 (size (record key value)))]).
Proof.
  split; [|split].
  - intros b key value Hok Hfit _.
    destruct (Add_small_or_single b key value Hok Hfit) as [H|H].
    + left. exact H.
    + right. exists key, value. exact H.
  - intros kvs key value.
    apply Add_accepting, AddAll_accepting, accepting_new.
  - intros key value Hfit Hbig b. subst b.
    rewrite (Add_first (SSTableBuilder.new true) key value
               (proj1 accepting_new) eq_refl (or_introl eq_refl)).
    cbn [fst snd SSTableBuilder.cur_data_block_].
    split; [reflexivity|]. split; [reflexivity|].
    unfold SSTableBuilder.FlushDataBlock.
    cbn [SSTableBuilder.cur_data_block_].
    destruct (empty (record key value)) eqn:E.
    { apply empty_true_iff in E. destruct (record_not_nil key value E). }
    unfold written, written.
    cbn [SSTableBuilder.ofs_ SSTableBuilder.index_data_ SSTableBuilder.new
         SSTableBuilder.cur_data_block_offset_ SSTableBuilder.last_key_in_block_
         of_write ofstream_open of_fail of_data of_is_open map_assign app].
    change (size []) with 0. change (u64 0) with 0.
    rewrite u32_small; [auto|].
    unfold fits32 in Hfit. rewrite size_record.
    pose proof (size_nonneg key). pose proof (size_nonneg value). lia.
Qed.

(** A record of 208 bytes offered to a fresh builder, then one of 10. *)
Lemma Add_block_small_or_single_witness :
  let k1 := [x61] in let v1 := repeat x00 199 in
  let b := snd (SSTableBuilder.Add (SSTableBuilder.new true) k1 v1) in
  fst (SSTableBuilder.Add (SSTableBuilder.new true) k1 v1) = true /\
  SSTableBuilder.cur_data_block_ b = record k1 v1 /\
  SSTableBuilder.index_data_ (SSTableBuilder.FlushDataBlock b) =
    [(k1, mkBlockHandle 0 208)] /\
  small_or_single
    (SSTableBuilder.cur_data_block_ (snd (SSTableBuilder.Add b [x62] [x31]))).
Proof.
  cbv zeta. destruct Add_block_small_or_single as (Hstep & _ & Hbig).
  assert (Hfit : fits32 [x61] (repeat x00 199)) by (unfold fits32; vm_compute; reflexivity).
  assert (Hsz : DATA_BLOCK_SIZE_THRESHOLD < size (record [x61] (repeat x00 199)))
    by (vm_compute; reflexivity).
  destruct (Hbig [x61] (repeat x00 199) Hfit Hsz) as (Hok & Hcur & _ & Hidx).
  split; [exact Hok|]. split; [exact Hcur|]. split; [exact Hidx|].
  apply Hstep.
  - reflexivity.
  - unfold fits32. vm_compute. reflexivity.
  - right. exists [x61], (repeat x00 199). exact Hcur.
Defined.

(* ================================================================== *)
(** * The layout the builder produces *)

Lemma encode_block_app (a b : block) :
  encode_block (a ++ b) = encode_block a ++ encode_block b.
Proof. unfold encode_block. now rewrite map_app, concat_app. Qed.

Lemma encode_block_single (k v : bytes) : encode_block [(k, v)] = record k v.
Proof. unfold encode_block. cbn [map concat fst snd]. apply app_nil_r. Qed.

Lemma encode_block_cons (k v : bytes) (blk : block) :
  encode_block ((k, v) :: blk) = record k v ++ encode_block blk.
Proof. reflexivity. Qed.

Lemma encode_block_nil_iff (blk : block) : encode_block blk = [] <-> blk = [].
Proof.
  split; [|intros ->; reflexivity].
  destruct blk as [|[k v] blk]; [reflexivity|].
  rewrite encode_block_cons. intros E. apply app_eq_nil in E.
  destruct (record_not_nil k v (proj1 E)).
Qed.

Lemma encode_blocks_app (a b : list block) :
  encode_blocks (a ++ b) = encode_blocks a ++ encode_blocks b.
Proof. unfold encode_blocks. now rewrite map_app, concat_app. Qed.

Lemma encode_blocks_single (blk : block) : encode_blocks [blk] = encode_block blk.
Proof. unfold encode_blocks. cbn [map concat]. apply app_nil_r. Qed.

Lemma block_last_key_snoc (l : block) (k v : bytes) :
  block_last_key (l ++ [(k, v)]) = k.
Proof. unfold block_last_key. now rewrite last_last. Qed.

Lemma block_last_key_app (a b : block) :
  b <> [] -> block_last_key (a ++ b) = block_last_key b.
Proof.
  intros Hb. destruct (exists_last Hb) as (b' & [k v] & ->).
  now rewrite app_assoc, !block_last_key_snoc.
Qed.

Lemma block_last_key_in (blk : block) :
  blk <> [] -> In (block_last_key blk) (map fst blk).
Proof.
  intros Hb. destruct (exists_last Hb) as (b' & [k v] & ->).
  rewrite block_last_key_snoc, map_app, in_app_iff. right. now left.
Qed.

Lemma index_of_app (a b : list block) (off : Z) :
  index_of (a ++ b) off = index_of a off ++ index_of b (off + size (encode_blocks a)).
Proof.
  revert off. induction a as [|blk a IH]; intros off.
  - cbn. now rewrite Z.add_0_r.
  - cbn [app index_of]. rewrite IH. cbn [app]. do 3 f_equal.
    change (encode_blocks (blk :: a)) with (encode_block blk ++ encode_blocks a).
    rewrite size_app. lia.
Qed.

Lemma index_of_keys (blocks : list block) (off : Z) :
  map fst (index_of blocks off) = map block_last_key blocks.
Proof.
  revert off. induction blocks as [|blk blocks IH]; intros off; [reflexivity|].
  cbn. now rewrite IH.
Qed.

Lemma map_assign_append (m : index_map) (k : bytes) (h : BlockHandle) :
  Forall (fun e => str_lt (fst e) k) m -> map_assign m k h = m ++ [(k, h)].
Proof.
  induction 1 as [|[k' h'] m Hlt _ IH]; [reflexivity|].
  cbn [map_assign app]. cbn [fst] in Hlt.
  apply str_lt_gt in Hlt. rewrite Hlt, IH. reflexivity.
Qed.

Lemma layout_new : layout [] [] (SSTableBuilder.new true).
Proof.
  unfold layout. repeat split; try reflexivity; try constructor.
Qed.

Lemma StronglySorted_app_elim (a b : list bytes) :
  StronglySorted str_lt (a ++ b) ->
  StronglySorted str_lt a /\ StronglySorted str_lt b /\
  (forall x y, In x a -> In y b -> str_lt x y).
Proof.
  induction a as [|x a IH]; intros H.
  - repeat split; [constructor | exact H | intros x y []].
  - cbn in H. apply StronglySorted_inv in H. destruct H as [Hs Hf].
    destruct (IH Hs) as (IH1 & IH2 & IH3).
    apply Forall_app in Hf. destruct Hf as [Hf1 Hf2].
    repeat split; [constructor; assumption | assumption |].
    intros y z [<- | Hy] Hz.
    + exact (proj1 (Forall_forall _ _) Hf2 z Hz).
    + now apply IH3.
Qed.

Lemma StronglySorted_snoc (l : list bytes) (k : bytes) :
  StronglySorted str_lt (l ++ [k]) ->
  StronglySorted str_lt l /\ Forall (fun x => str_lt x k) l.
Proof.
  induction l as [|x l IH]; intros H.
  - split; constructor.
  - cbn in H. apply StronglySorted_inv in H. destruct H as [Hs Hf].
    destruct (IH Hs) as [IH1 IH2].
    apply Forall_app in Hf. destruct Hf as [Hf1 Hf2].
    split; constructor; auto. now inversion Hf2.
Qed.

(** The index entry [FlushDataBlock] assigns goes to the end of the index. *)
Lemma index_after_flush (done : list block) (cur : block) :
  cur <> [] ->
  Forall (fun blk => blk <> [] /\ size (encode_block blk) < 2 ^ 32) done ->
  StronglySorted str_lt (map fst (concat done ++ cur)) ->
  map_assign (index_of done 0) (block_last_key (concat done ++ cur))
    (mkBlockHandle (u64 (size (encode_blocks done))) (u32 (size (encode_block cur)))) =
  index_of (done ++ [cur]) 0.
Proof.
  intros Hcur Hd Hs.
  rewrite index_of_app. cbn [index_of]. rewrite Z.add_0_l.
  rewrite (block_last_key_app _ _ Hcur).
  apply map_assign_append.
  apply Forall_forall. intros e Hin.
  apply (in_map fst) in Hin. rewrite index_of_keys in Hin.
  apply in_map_iff in Hin. destruct Hin as (blk & Hblk & Hin).
  rewrite map_app in Hs. apply StronglySorted_app_elim in Hs.
  rewrite <- Hblk.
  pose proof (proj1 (Forall_forall _ _) Hd blk Hin) as [Hne _].
  pose proof (block_last_key_in blk Hne) as Hin1.
  pose proof (block_last_key_in cur Hcur) as Hin2.
  destruct Hs as (_ & _ & Hs). apply Hs; [|exact Hin2].
  rewrite concat_map. apply in_concat. exists (map fst blk).
  split; [now apply in_map | exact Hin1].
Qed.

(** One [Add] of a record that fits 32 bits and whose key is above those
    added so far. *)
Lemma Add_layout (done : list block) (cur : block) (b : SSTableBuilder.t)
  (k v : bytes) :
  layout done cur b -> fits32 k v ->
  StronglySorted str_lt (map fst ((concat done ++ cur) ++ [(k, v)])) ->
  fst (SSTableBuilder.Add b k v) = true /\
  exists done' cur',
    layout done' cur' (snd (SSTableBuilder.Add b k v)) /\
    concat done' ++ cur' = (concat done ++ cur) ++ [(k, v)].
Proof.
  intros (Hu & Hopen & Hw & Hc & Hi & Hl & Ho & He & Hd & Hcs & Hs) Hfit Hs'.
  pose proof (size_nonneg k) as Hk0. pose proof (size_nonneg v) as Hv0.
  assert (Hrec : size (record k v) < 2 ^ 32)
    by (rewrite size_record; unfold fits32 in Hfit; lia).
  destruct cur as [|c0 cur0].
  - (* the first record of the table *)
    specialize (He eq_refl). subst done. cbn [concat app] in *.
    rewrite (Add_first b k v Hu Hc (or_introl Hl)). cbn [fst snd].
    split; [reflexivity|]. exists [], [(k, v)]. split; [|reflexivity].
    unfold layout, written in *.
    cbn [SSTableBuilder.ofs_ SSTableBuilder.finished_ SSTableBuilder.cur_data_block_
         SSTableBuilder.last_key_in_block_ SSTableBuilder.cur_data_block_offset_
         SSTableBuilder.index_data_ concat app].
    rewrite encode_block_single.
    repeat split; auto; try apply Hu; try discriminate.
  - set (cur := c0 :: cur0) in *.
    assert (Hcur : cur <> []) by discriminate.
    assert (Hcne : SSTableBuilder.cur_data_block_ b <> []).
    { rewrite Hc. intros E. apply encode_block_nil_iff in E. contradiction. }
    destruct (Z_gt_le_dec
                (size (SSTableBuilder.cur_data_block_ b) + getEntrySize k v)
                DATA_BLOCK_SIZE_THRESHOLD) as [Hbig|Hsmall].
    + (* the buffer is flushed, the record starts the next block *)
      rewrite (Add_flush b k v Hu Hcne Hbig). cbn [fst snd].
      split; [reflexivity|]. exists (done ++ [cur]), [(k, v)].
      split; [|now rewrite concat_app; cbn [concat]; rewrite app_nil_r, <- app_assoc].
      unfold layout, written in *.
      cbn [SSTableBuilder.ofs_ SSTableBuilder.finished_ SSTableBuilder.cur_data_block_
           SSTableBuilder.last_key_in_block_ SSTableBuilder.cur_data_block_offset_
           SSTableBuilder.index_data_ of_data of_is_open of_fail].
      rewrite encode_block_single, encode_blocks_app, encode_blocks_single.
      rewrite Hw, Hc, Hi, Hl, (Ho Hcur), Hw.
      pose proof (index_after_flush done cur Hcur Hd Hs) as Hidx.
      rewrite Hidx.
      repeat split; auto.
      * rewrite concat_app. cbn [concat]. rewrite app_nil_r.
        now rewrite block_last_key_snoc.
      * discriminate.
      * apply Forall_app. split; [exact Hd|]. constructor; [|constructor].
        split; [exact Hcur | exact Hcs].
      * rewrite concat_app. cbn [concat]. rewrite app_nil_r. exact Hs'.
    + (* the record joins the buffer *)
      rewrite (Add_append b k v Hu Hcne Hsmall). cbn [fst snd].
      split; [reflexivity|]. exists done, (cur ++ [(k, v)]).
      split; [|now rewrite app_assoc].
      unfold layout, written in *.
      cbn [SSTableBuilder.ofs_ SSTableBuilder.finished_ SSTableBuilder.cur_data_block_
           SSTableBuilder.last_key_in_block_ SSTableBuilder.cur_data_block_offset_
           SSTableBuilder.index_data_].
      rewrite encode_block_app, encode_block_single, Hc.
      repeat split; auto; try apply Hu.
      * now rewrite app_assoc, block_last_key_snoc.
      * intros E. apply app_eq_nil in E. destruct E as [_ E]. discriminate E.
      * rewrite size_app. rewrite (getEntrySize_fits k v Hfit), Hc in Hsmall.
        unfold DATA_BLOCK_SIZE_THRESHOLD in Hsmall. lia.
      * rewrite app_assoc. exact Hs'.
Qed.

Lemma AddAll_layout (kvs : list (bytes * bytes)) :
  forall (done : list block) (cur : block) (b : SSTableBuilder.t),
  layout done cur b ->
  Forall (fun kv => fits32 (fst kv) (snd kv)) kvs ->
  StronglySorted str_lt (map fst ((concat done ++ cur) ++ kvs)) ->
  exists done' cur',
    layout done' cur' (AddAll b kvs) /\
    concat done' ++ cur' = (concat done ++ cur) ++ kvs.
Proof.
  induction kvs as [|[k v] kvs IH]; intros done cur b Hl Hfit Hs.
  - exists done, cur. rewrite app_nil_r. split; [exact Hl | reflexivity].
  - cbn [AddAll]. inversion Hfit as [|? ? Hkv Hfit']. subst. cbn [fst snd] in Hkv.
    change ((k, v) :: kvs) with ([(k, v)] ++ kvs) in Hs. rewrite app_assoc in Hs.
    assert (Hs1 : StronglySorted str_lt (map fst ((concat done ++ cur) ++ [(k, v)]))).
    { rewrite map_app in Hs. now apply StronglySorted_app_elim in Hs. }
    destruct (Add_layout done cur b k v Hl Hkv Hs1) as (_ & done1 & cur1 & Hl1 & E1).
    rewrite <- E1 in Hs.
    destruct (IH done1 cur1 _ Hl1 Hfit' Hs) as (done2 & cur2 & Hl2 & E2).
    exists done2, cur2. split; [exact Hl2|].
    rewrite E2, E1, <- app_assoc. reflexivity.
Qed.

Lemma ascending_StronglySorted (keys : list bytes) :
  ascending keys -> StronglySorted str_lt keys.
Proof.
  apply Sorted_StronglySorted. intros x y z. apply str_lt_trans.
Qed.

(** The builder after the records of a well-formed input. *)
Lemma AddAll_new_layout (kvs : list (bytes * bytes)) :
  Forall (fun kv => fits32 (fst kv) (snd kv)) kvs ->
  ascending (map fst kvs) ->
  exists done cur,
    layout done cur (AddAll (SSTableBuilder.new true) kvs) /\ concat done ++ cur = kvs.
Proof.
  intros Hfit Hs.
  destruct (AddAll_layout kvs [] [] _ layout_new Hfit
              (ascending_StronglySorted _ Hs)) as (done & cur & Hl & E).
  exists done, cur. split; [exact Hl | exact E].
Qed.

Lemma size_encode_footer (d i : Z) : size (encode_footer d i) = 20.
Proof.
  unfold encode_footer, Footer_EncodeTo, BlockHandle_EncodeTo.
  rewrite !size_app, !size_le_bytes. reflexivity.
Qed.

Lemma view_all (n : Z) (s : bytes) : size s = n -> view n s = s.
Proof.
  intros H. rewrite <- (app_nil_r s) at 1. now apply view_app.
Qed.

Lemma concat_blocks_of (done : list block) (cur : block) :
  concat (blocks_of done cur) = concat done ++ cur.
Proof.
  destruct cur; cbn [blocks_of]; [now rewrite app_nil_r|].
  rewrite concat_app. cbn [concat]. now rewrite app_nil_r.
Qed.

(** [Finish] on a builder in a layout: the file is the data blocks, the index
    block and the footer. *)
Lemma Finish_layout (done : list block) (cur : block) (b : SSTableBuilder.t) :
  layout done cur b ->
  let blocks := blocks_of done cur in
  let index := index_of blocks 0 in
  fst (SSTableBuilder.Finish b) = true /\
  SSTableBuilder.index_data_ (snd (SSTableBuilder.Finish b)) = index /\
  written (snd (SSTableBuilder.Finish b)) =
    (encode_blocks blocks ++ encode_index index) ++
    encode_footer (size (encode_blocks blocks)) (size (encode_index index)) /\
  Forall (fun blk => blk <> [] /\ size (encode_block blk) < 2 ^ 32) blocks /\
  StronglySorted str_lt (map fst (concat blocks)).
Proof.
  intros (Hu & Hopen & Hw & Hc & Hi & Hl & Ho & He & Hd & Hcs & Hs).
  cbv zeta. rewrite concat_blocks_of.
  unfold SSTableBuilder.Finish. rewrite (usable_open b Hu).
  destruct Hu as [Hfin Hfail]. unfold written in *.
  destruct cur as [|c0 cur0].
  - rewrite (FlushDataBlock_empty b) by (rewrite Hc; reflexivity).
    cbn [blocks_of fst snd SSTableBuilder.index_data_ SSTableBuilder.ofs_].
    rewrite !of_write_ok by (try rewrite of_write_ok by exact Hfail; try exact Hfail; reflexivity).
    rewrite of_tellp_ok by exact Hfail.
    cbn [of_data of_close of_is_open]. rewrite Hopen. cbn [of_data].
    rewrite Hi, Hw.
    fold (encode_index (index_of done 0)).
    fold (encode_footer (size (encode_blocks done)) (size (encode_index (index_of done 0)))).
    rewrite (view_all FOOTER_SIZE) by apply size_encode_footer.
    repeat split; auto.
  - set (cur := c0 :: cur0) in *.
    assert (Hcur : cur <> []) by discriminate.
    assert (Hcne : empty (SSTableBuilder.cur_data_block_ b) = false).
    { apply empty_false_iff. rewrite Hc. intros E.
      apply encode_block_nil_iff in E. contradiction. }
    unfold SSTableBuilder.FlushDataBlock. rewrite Hcne.
    cbn [blocks_of fst snd SSTableBuilder.index_data_ SSTableBuilder.ofs_].
    rewrite (of_write_ok (SSTableBuilder.ofs_ b)) by exact Hfail.
    rewrite !of_write_ok by (try rewrite of_write_ok by reflexivity; reflexivity).
    rewrite of_tellp_ok by reflexivity.
    cbn [of_data of_close of_is_open]. rewrite Hopen. cbn [of_data].
    rewrite Hi, Hw, Hc, Hl, (Ho Hcur), Hw.
    pose proof (index_after_flush done cur Hcur Hd Hs) as Hidx.
    rewrite Hidx, <- encode_blocks_single, <- encode_blocks_app.
    fold (encode_index (index_of (done ++ [cur]) 0)).
    fold (encode_footer (size (encode_blocks (done ++ [cur])))
            (size (encode_index (index_of (done ++ [cur]) 0)))).
    rewrite (view_all FOOTER_SIZE) by apply size_encode_footer.
    repeat split; auto.
    apply Forall_app. split; [exact Hd|]. constructor; [|constructor].
    split; [exact Hcur | exact Hcs].
Qed.

(* ================================================================== *)
(** * The loops of the reader end *)

Lemma size_remove_prefix (n : Z) (s : bytes) :
  0 <= n <= size s -> size (remove_prefix n s) = size s - n.
Proof.
  intros H. unfold remove_prefix, size in *. rewrite length_skipn. lia.
Qed.

(** A successful [readKV] consumes at least the two length fields. *)
Lemma readKV_consumes (input key value input' key' value' : bytes) :
  readKV input key value = (true, input', key', value') ->
  size input' + 8 <= size input.
Proof.
  unfold readKV.
  destruct (Z.ltb_spec (size input) 4) as [|H1]; [discriminate|].
  pose proof (le_value_nonneg (firstn 4 input)) as Hk.
  fold (memcpy_uint 4 input) in Hk.
  set (key_len := memcpy_uint 4 input) in *.
  assert (E1 : size (remove_prefix 4 input) = size input - 4)
    by (apply size_remove_prefix; lia).
  destruct (Z.ltb_spec (size (remove_prefix 4 input)) key_len) as [|H2]; [discriminate|].
  set (input1 := remove_prefix 4 input) in *.
  assert (E2 : size (remove_prefix key_len input1) = size input1 - key_len)
    by (apply size_remove_prefix; lia).
  destruct (Z.ltb_spec (size (remove_prefix key_len input1)) 4) as [|H3]; [discriminate|].
  set (input2 := remove_prefix key_len input1) in *.
  pose proof (le_value_nonneg (firstn 4 input2)) as Hv.
  fold (memcpy_uint 4 input2) in Hv.
  set (value_len := memcpy_uint 4 input2) in *.
  assert (E3 : size (remove_prefix 4 input2) = size input2 - 4)
    by (apply size_remove_prefix; lia).
  destruct (Z.ltb_spec (size (remove_prefix 4 input2)) value_len) as [|H4]; [discriminate|].
  set (input3 := remove_prefix 4 input2) in *.
  intros E. injection E as <- _ _.
  rewrite size_remove_prefix by lia. lia.
Qed.

(** With one unit of fuel per input byte the loop of [LoadIndex] is never
    cut short. *)
Lemma LoadIndex_loop_ends (fuel : nat) :
  forall (input : bytes) (index : index_map),
  (length input <= fuel)%nat ->
  SSTableReader.LoadIndex_loop fuel input index <> None.
Proof.
  induction fuel as [|fuel IH]; intros input index Hlen.
  - destruct input; [cbn; discriminate | cbn in Hlen; lia].
  - cbn [SSTableReader.LoadIndex_loop].
    destruct (empty input); [discriminate|].
    destruct (readKV input [] []) as [[[ok input'] k] v] eqn:E.
    destruct ok; cbn [negb]; [|discriminate].
    apply readKV_consumes in E.
    destruct (BlockHandle_DecodeFrom BlockHandle_default v) as [[ok h] rest].
    destruct ok; cbn [negb]; [|discriminate].
    apply IH. unfold size in E. lia.
Qed.

(** Likewise the scan of [FindInBlock]. *)
Lemma FindInBlock_loop_ends (fuel : nat) :
  forall input key : bytes,
  (length input <= fuel)%nat ->
  SSTableReader.FindInBlock_loop fuel input key <> None.
Proof.
  induction fuel as [|fuel IH]; intros input key Hlen.
  - destruct input; [cbn; discriminate | cbn in Hlen; lia].
  - cbn [SSTableReader.FindInBlock_loop].
    destruct (empty input); [discriminate|].
    destruct (readKV input [] []) as [[[ok input'] k] v] eqn:E.
    destruct ok; cbn [negb]; [|discriminate].
    apply readKV_consumes in E.
    destruct (str_eqb k key); [discriminate|].
    destruct (str_gtb k key); [discriminate|].
    apply IH. unfold size in E. lia.
Qed.

(* ================================================================== *)
(** * The index block and its loading *)

Lemma size_BlockHandle_EncodeTo (h : BlockHandle) :
  size (BlockHandle_EncodeTo h []) = 12.
Proof.
  unfold BlockHandle_EncodeTo. rewrite !size_app, !size_le_bytes. reflexivity.
Qed.

Lemma BlockHandle_DecodeFrom_EncodeTo (h0 h : BlockHandle) :
  BlockHandle_DecodeFrom h0 (BlockHandle_EncodeTo h []) =
  (true, mkBlockHandle (u64 (offset_ h)) (u32 (size_ h)), []).
Proof.
  unfold BlockHandle_DecodeFrom. rewrite size_BlockHandle_EncodeTo.
  cbn [Z.ltb Z.add Z.compare Pos.add Pos.succ Pos.compare Pos.compare_cont].
  unfold BlockHandle_EncodeTo. cbn [app].
  rewrite (memcpy_uint_app 8) by apply le_bytes_length.
  rewrite (remove_prefix_app 8) by apply size_le_bytes.
  rewrite <- (app_nil_r (le_bytes 4 (size_ h))).
  rewrite (memcpy_uint_app 4) by apply le_bytes_length.
  rewrite (remove_prefix_app 4) by apply size_le_bytes.
  now rewrite le8_value, le4_value.
Qed.

Lemma index_block_concat (m : index_map) (buffer : bytes) :
  SSTableBuilder.index_block m buffer = buffer ++ concat (map index_entry m).
Proof.
  revert buffer. induction m as [|[k h] m IH]; intros buffer.
  - cbn. now rewrite app_nil_r.
  - cbn [SSTableBuilder.index_block map concat]. rewrite IH, writeKV_record.
    rewrite <- app_assoc. reflexivity.
Qed.

Lemma encode_index_concat (m : index_map) : encode_index m = concat (map index_entry m).
Proof. unfold encode_index. now rewrite index_block_concat. Qed.

Lemma encode_index_cons (e : bytes * BlockHandle) (m : index_map) :
  encode_index (e :: m) = index_entry e ++ encode_index m.
Proof. now rewrite !encode_index_concat. Qed.

Lemma size_index_entry (e : bytes * BlockHandle) : size (index_entry e) = 20 + size (fst e).
Proof.
  unfold index_entry. rewrite size_record, size_BlockHandle_EncodeTo. lia.
Qed.

Lemma empty_app_record (k v rest : bytes) : empty (record k v ++ rest) = false.
Proof.
  apply empty_false_iff. intros E. apply app_eq_nil in E.
  exact (record_not_nil k v (proj1 E)).
Qed.

(** Loading an index block: every entry is assigned in turn, its handle
    with its fields converted to their types. *)
Lemma LoadIndex_loop_encode_index (m : index_map) :
  forall (fuel : nat) (acc : index_map),
  (length (encode_index m) <= fuel)%nat ->
  Forall (fun e => size (fst e) < 2 ^ 32) m ->
  SSTableReader.LoadIndex_loop fuel (encode_index m) acc =
  Some (true,
        fold_left (fun a e => map_assign a (fst e)
                                (mkBlockHandle (u64 (offset_ (snd e))) (u32 (size_ (snd e)))))
                  m acc).
Proof.
  induction m as [|[k h] m IH]; intros fuel acc Hfuel Hk.
  - destruct fuel; reflexivity.
  - rewrite encode_index_cons in *. unfold index_entry in *. cbn [fst snd] in *.
    inversion Hk as [|? ? Hk1 Hk2]. subst. cbn [fst] in Hk1.
    assert (Hlen : size (record k (BlockHandle_EncodeTo h [])) = 20 + size k)
      by (rewrite size_record, size_BlockHandle_EncodeTo; lia).
    pose proof (size_nonneg k) as Hk0.
    destruct fuel as [|fuel].
    { rewrite length_app in Hfuel. unfold size in Hlen. lia. }
    cbn [SSTableReader.LoadIndex_loop]. rewrite empty_app_record.
    rewrite readKV_record
      by (try rewrite size_BlockHandle_EncodeTo; try exact Hk1; lia).
    cbn [negb]. rewrite BlockHandle_DecodeFrom_EncodeTo. cbn [negb].
    rewrite IH; [reflexivity | | exact Hk2].
    rewrite length_app in Hfuel. unfold size in Hlen. lia.
Qed.

Lemma fold_assign_sorted (m acc : index_map) :
  StronglySorted str_lt (map fst (acc ++ m)) ->
  fold_left (fun a e => map_assign a (fst e) (snd e)) m acc = acc ++ m.
Proof.
  revert acc. induction m as [|[k h] m IH]; intros acc Hs.
  - cbn. now rewrite app_nil_r.
  - cbn [fold_left fst snd].
    change ((k, h) :: m) with ([(k, h)] ++ m) in Hs. rewrite app_assoc in Hs.
    rewrite map_assign_append.
    + rewrite IH by exact Hs. now rewrite <- app_assoc.
    + rewrite map_app in Hs. apply StronglySorted_app_elim in Hs.
      destruct Hs as (Hs & _ & _). rewrite map_app in Hs.
      apply StronglySorted_snoc in Hs. destruct Hs as [_ Hs].
      apply Forall_forall. intros e He.
      exact (proj1 (Forall_forall _ _) Hs (fst e) (in_map fst _ _ He)).
Qed.

(* ================================================================== *)
(** * The reader on a file of data, index block and footer *)

Lemma Footer_DecodeFrom_encode (f0 : Footer) (d i : Z) :
  Footer_DecodeFrom f0 (encode_footer d i) =
  (true, mkFooter (mkBlockHandle (u64 d) (u32 i)) SSTABLE_MAGIC_NUMBER).
Proof.
  unfold Footer_DecodeFrom. rewrite size_encode_footer.
  change (20 <? BLOCK_HANDLE_SIZE + 8) with false. cbv iota.
  unfold encode_footer, Footer_EncodeTo. cbn [index_block_handle_ magic_number_].
  assert (Hh : size (BlockHandle_EncodeTo (mkBlockHandle (u64 d) (u32 i)) []) =
               BLOCK_HANDLE_SIZE) by apply size_BlockHandle_EncodeTo.
  rewrite (remove_prefix_app _ _ _ Hh).
  rewrite <- (app_nil_r (le_bytes 8 SSTABLE_MAGIC_NUMBER)) at 1.
  rewrite (memcpy_uint_app 8) by apply le_bytes_length.
  rewrite le8_value, (u64_small _ magic_range), Z.eqb_refl. cbn [negb].
  unfold substr. change (Z.to_nat 0) with 0%nat. cbn [skipn].
  fold (view BLOCK_HANDLE_SIZE
          (BlockHandle_EncodeTo (mkBlockHandle (u64 d) (u32 i)) [] ++
           le_bytes 8 SSTABLE_MAGIC_NUMBER)).
  rewrite (view_app _ _ _ Hh), BlockHandle_DecodeFrom_EncodeTo.
  cbn [offset_ size_]. unfold u64, u32. now rewrite !Z.mod_mod by lia.
Qed.

Lemma ReadDataBlock_in (r : SSTableReader.t) (h : BlockHandle) :
  if_fail (SSTableReader.ifs_ r) = false ->
  if_is_open (SSTableReader.ifs_ r) = true ->
  handle_in (size (if_data (SSTableReader.ifs_ r))) h ->
  SSTableReader.ReadDataBlock r h =
  (true, substr (if_data (SSTableReader.ifs_ r)) (offset_ h) (size_ h),
   SSTableReader.set_ifs r
     (mk_ifstream true false (offset_ h + size_ h) (if_data (SSTableReader.ifs_ r))
        (if_log (SSTableReader.ifs_ r) ++ [(offset_ h, size_ h)]))).
Proof.
  intros Hfail Hopen (Hoff & Hsz & Hend).
  unfold SSTableReader.ReadDataBlock, if_seekg, if_read.
  rewrite Hfail, Hopen. cbn [negb orb].
  rewrite s64_small by exact Hoff.
  destruct (Z.ltb_spec (offset_ h) 0); [lia|].
  cbn [if_fail if_is_open if_pos if_data if_log negb orb].
  rewrite size_substr by lia.
  rewrite resized_full by (apply size_substr; lia).
  rewrite Z.eqb_refl, Z.ltb_irrefl. reflexivity.
Qed.

Lemma Get_serving (file : bytes) (index : index_map) (r : SSTableReader.t)
  (key : bytes) :
  serving file index r ->
  Forall (fun e => handle_in (size file) (snd e)) index ->
  serving file index (snd (SSTableReader.Get r key)) /\
  fst (SSTableReader.Get r key) =
    match lower_bound index key with
    | None => None
    | Some (_, h) => SSTableReader.FindInBlock (substr file (offset_ h) (size_ h)) key
    end.
Proof.
  intros (Hv & Hi & Hd & Hf & Ho) Hh.
  unfold SSTableReader.Get. rewrite Hv, Hi. cbn [negb].
  destruct (lower_bound index key) as [[k' h]|] eqn:E.
  - assert (Hin : handle_in (size file) h).
    { assert (In (k', h) index) as Hin.
      { clear -E. induction index as [|[k0 h0] index IH]; [discriminate|].
        cbn in E. destruct (str_ltb k0 key).
        - right. now apply IH.
        - left. congruence. }
      exact (proj1 (Forall_forall _ _) Hh _ Hin). }
    rewrite <- Hd in Hin. rewrite (ReadDataBlock_in r h Hf Ho Hin). cbn [negb fst snd].
    rewrite Hd. split; [|reflexivity].
    unfold serving. cbn. repeat split; assumption.
  - cbn [fst snd]. split; [|reflexivity]. repeat split; assumption.
Qed.

Lemma GetAll_serving (file : bytes) (index : index_map) (qs : list bytes) :
  forall r : SSTableReader.t,
  serving file index r ->
  Forall (fun e => handle_in (size file) (snd e)) index ->
  serving file index (GetAll r qs).
Proof.
  induction qs as [|q qs IH]; intros r Hr Hh; [exact Hr|].
  cbn [GetAll]. apply IH; [|exact Hh].
  exact (proj1 (Get_serving file index r q Hr Hh)).
Qed.

(** The reader opened on a file whose footer names, by the values [d] and
    [i] that [Finish] converted to the handle's field types, the offset and
    the size of an index block; [gap] is whatever lies between that index
    block and the footer. *)
Lemma new_serving_gap (data : bytes) (index : index_map) (gap : bytes) (d i : Z) :
  let file := ((data ++ encode_index index) ++ gap) ++ encode_footer d i in
  u64 d = size data -> size data < 2 ^ 63 ->
  u32 i = size (encode_index index) ->
  Forall (fun e => size (fst e) < 2 ^ 32) index ->
  Forall (fun e => u64 (offset_ (snd e)) = offset_ (snd e) /\
                   u32 (size_ (snd e)) = size_ (snd e)) index ->
  StronglySorted str_lt (map fst index) ->
  serving file index (SSTableReader.new (Some file)).
Proof.
  intros file Hdu Hd Hiu Hk Hn Hs.
  pose proof (size_nonneg data) as Hd0.
  pose proof (size_nonneg (encode_index index)) as Hi0.
  pose proof (size_nonneg gap) as Hg0.
  pose proof (u32_range i) as Hi. rewrite Hiu in Hi.
  assert (Hsize : size file = size data + size (encode_index index) + size gap + 20).
  { unfold file. now rewrite !size_app, size_encode_footer. }
  assert (Hft : substr file (size file - 20) 20 = encode_footer d i).
  { unfold file at 1. rewrite <- (app_nil_r (encode_footer _ _)) at 1.
    rewrite app_assoc. apply substr_app_mid.
    - rewrite !size_app. lia.
    - apply size_encode_footer. }
  assert (Hix : substr file (size data) (size (encode_index index)) = encode_index index).
  { unfold file. rewrite <- app_assoc. apply substr_app_mid; reflexivity. }
  clearbody file.
  unfold SSTableReader.new. cbn [ifstream_open SSTableReader.ifs_ if_fail].
  unfold SSTableReader.LoadIndex.
  cbn [SSTableReader.ifs_ if_tellg if_fail if_pos].
  change FOOTER_SIZE with 20.
  destruct (Z.ltb_spec (size file) 20); [lia|].
  rewrite footer_read by lia.
  rewrite Hft, size_encode_footer, resized_full by apply size_encode_footer.
  cbn [Z.eqb Pos.eqb negb SSTableReader.set_ifs SSTableReader.footer_].
  rewrite Footer_DecodeFrom_encode. cbn [negb].
  cbn [SSTableReader.footer_ SSTableReader.ifs_ SSTableReader.is_valid_
       SSTableReader.index_data_ index_block_handle_].
  rewrite Hdu, Hiu.
  rewrite ReadDataBlock_in;
    [ | reflexivity | reflexivity
      | unfold handle_in;
        cbn [SSTableReader.set_ifs SSTableReader.ifs_ if_data offset_ size_]; lia ].
  cbn [negb SSTableReader.ifs_ if_data offset_ size_ SSTableReader.set_ifs
       SSTableReader.footer_ SSTableReader.is_valid_ SSTableReader.index_data_].
  rewrite Hix, LoadIndex_loop_encode_index by (try exact Hk; lia).
  cbn [negb SSTableReader.ifs_ SSTableReader.footer_ SSTableReader.is_valid_
       SSTableReader.index_data_].
  assert (Hfold : fold_left
            (fun a e => map_assign a (fst e)
                          (mkBlockHandle (u64 (offset_ (snd e))) (u32 (size_ (snd e)))))
            index [] = index).
  { assert (G : forall (m acc : index_map),
              Forall (fun e => u64 (offset_ (snd e)) = offset_ (snd e) /\
                               u32 (size_ (snd e)) = size_ (snd e)) m ->
              fold_left (fun a e => map_assign a (fst e)
                           (mkBlockHandle (u64 (offset_ (snd e))) (u32 (size_ (snd e)))))
                        m acc =
              fold_left (fun a e => map_assign a (fst e) (snd e)) m acc).
    { induction m as [|[k [o s]] m IH]; intros acc Hm; [reflexivity|].
      inversion Hm as [|? ? [H1 H2] Hm']. subst. cbn [fst snd offset_ size_] in *.
      cbn [fold_left fst snd offset_ size_]. rewrite H1, H2. now apply IH. }
    rewrite G by exact Hn. exact (fold_assign_sorted index [] Hs). }
  rewrite Hfold. unfold serving. cbn. repeat split.
Qed.

(** The reader opened on data, an index block and the footer for them. *)
Lemma new_serving (data : bytes) (index : index_map) :
  let file := (data ++ encode_index index) ++
              encode_footer (size data) (size (encode_index index)) in
  size data < 2 ^ 63 ->
  size (encode_index index) < 2 ^ 32 ->
  Forall (fun e => size (fst e) < 2 ^ 32) index ->
  Forall (fun e => u64 (offset_ (snd e)) = offset_ (snd e) /\
                   u32 (size_ (snd e)) = size_ (snd e)) index ->
  StronglySorted str_lt (map fst index) ->
  serving file index (SSTableReader.new (Some file)).
Proof.
  intros file Hd Hi Hk Hn Hs.
  pose proof (size_nonneg data) as Hd0.
  pose proof (size_nonneg (encode_index index)) as Hi0.
  pose proof (new_serving_gap data index [] (size data) (size (encode_index index)))
    as H.
  cbv zeta in H. rewrite app_nil_r in H.
  apply H; auto; [apply u64_small | apply u32_small]; lia.
Qed.

(* ================================================================== *)
(** * Searching a block, searching the index *)

Lemma assoc_none (key : bytes) (kvs : list (bytes * bytes)) :
  ~ In key (map fst kvs) <-> assoc key kvs = None.
Proof.
  induction kvs as [|[k v] kvs IH]; cbn [assoc map fst In].
  - split; [reflexivity | intros _ []].
  - destruct (str_eqb k key) eqn:E.
    + apply str_eqb_eq in E. split; [intros H; destruct H; now left | discriminate].
    + apply str_eqb_neq in E. rewrite <- IH. tauto.
Qed.

Lemma assoc_app (key : bytes) (a b : list (bytes * bytes)) :
  assoc key (a ++ b) =
  match assoc key a with Some v => Some v | None => assoc key b end.
Proof.
  induction a as [|[k v] a IH]; [reflexivity|].
  cbn [app assoc]. destruct (str_eqb k key); [reflexivity | exact IH].
Qed.

Lemma assoc_in (key value : bytes) (kvs : list (bytes * bytes)) :
  StronglySorted str_lt (map fst kvs) -> In (key, value) kvs ->
  assoc key kvs = Some value.
Proof.
  induction kvs as [|[k v] kvs IH]; intros Hs Hin; [destruct Hin|].
  cbn [map fst] in Hs. apply StronglySorted_inv in Hs. destruct Hs as [Hs Hf].
  cbn [assoc]. destruct Hin as [E|Hin].
  - injection E as -> ->. now rewrite (proj2 (str_eqb_eq key key) eq_refl).
  - destruct (str_eqb k key) eqn:E; [|now apply IH].
    apply str_eqb_eq in E. subst k.
    pose proof (proj1 (Forall_forall _ _) Hf key (in_map fst _ _ Hin)) as Hlt.
    destruct (str_lt_irrefl key Hlt).
Qed.

Lemma size_record_in_block (k v : bytes) (blk : block) :
  In (k, v) blk -> size (record k v) <= size (encode_block blk).
Proof.
  induction blk as [|[k' v'] blk IH]; intros Hin; [destruct Hin|].
  rewrite encode_block_cons, size_app.
  pose proof (size_nonneg (record k' v')). pose proof (size_nonneg (encode_block blk)).
  destruct Hin as [E|Hin]; [injection E as -> ->; lia | specialize (IH Hin); lia].
Qed.

(** The scan of an encoded block with ascending keys finds what the block
    records for the key. *)
Lemma FindInBlock_loop_block (key : bytes) (blk : block) :
  forall fuel : nat,
  (length (encode_block blk) <= fuel)%nat ->
  StronglySorted str_lt (map fst blk) ->
  size (encode_block blk) < 2 ^ 32 ->
  SSTableReader.FindInBlock_loop fuel (encode_block blk) key = Some (assoc key blk).
Proof.
  induction blk as [|[k v] blk IH]; intros fuel Hfuel Hs Hsz.
  - destruct fuel; reflexivity.
  - rewrite encode_block_cons in *.
    pose proof (size_nonneg k) as Hk0. pose proof (size_nonneg v) as Hv0.
    pose proof (size_nonneg (encode_block blk)) as Hb0.
    rewrite size_app, size_record in Hsz.
    assert (Hlen : (8 <= length (record k v))%nat).
    { pose proof (size_record k v) as E. unfold size in *. lia. }
    rewrite length_app in Hfuel.
    destruct fuel as [|fuel]; [lia|].
    cbn [SSTableReader.FindInBlock_loop]. rewrite empty_app_record.
    rewrite readKV_record by lia. cbn [negb assoc].
    cbn [map fst] in Hs. apply StronglySorted_inv in Hs. destruct Hs as [Hs Hf].
    destruct (str_eqb k key) eqn:Eeq; [reflexivity|].
    destruct (str_gtb k key) eqn:Egt.
    + apply str_gtb_lt in Egt. f_equal. symmetry. apply assoc_none.
      intros Hin. pose proof (proj1 (Forall_forall _ _) Hf key Hin) as Hlt.
      exact (str_lt_irrefl key (str_lt_trans _ _ _ Egt Hlt)).
    + apply IH; [lia | exact Hs | lia].
Qed.

Lemma FindInBlock_block (key : bytes) (blk : block) :
  StronglySorted str_lt (map fst blk) ->
  size (encode_block blk) < 2 ^ 32 ->
  SSTableReader.FindInBlock (encode_block blk) key = assoc key blk.
Proof.
  intros Hs Hsz. unfold SSTableReader.FindInBlock.
  now rewrite FindInBlock_loop_block.
Qed.

Lemma block_keys_below_last (blk : block) (k : bytes) :
  StronglySorted str_lt (map fst blk) -> In k (map fst blk) ->
  k = block_last_key blk \/ str_lt k (block_last_key blk).
Proof.
  intros Hs Hin.
  destruct blk as [|kv0 blk0]; [destruct Hin|].
  destruct (@exists_last _ (kv0 :: blk0) ltac:(discriminate)) as (l & [kl vl] & E).
  rewrite E in *. rewrite block_last_key_snoc.
  rewrite map_app in Hs, Hin. cbn [map fst] in Hs, Hin.
  apply StronglySorted_snoc in Hs. destruct Hs as [_ Hf].
  apply in_app_iff in Hin. destruct Hin as [Hin|[<-|[]]].
  - right. exact (proj1 (Forall_forall _ _) Hf k Hin).
  - now left.
Qed.

(** The block [lower_bound] selects from the index of ascending blocks is
    the only block that can hold the key. *)
Lemma lower_bound_index_of (key : bytes) (blocks : list block) :
  forall off : Z,
  Forall (fun blk => blk <> []) blocks ->
  StronglySorted str_lt (map fst (concat blocks)) ->
  match lower_bound (index_of blocks off) key with
  | None => assoc key (concat blocks) = None
  | Some (_, h) =>
      exists pre blk post,
        blocks = pre ++ blk :: post /\
        h = mkBlockHandle (u64 (off + size (encode_blocks pre)))
                          (u32 (size (encode_block blk))) /\
        assoc key (concat blocks) = assoc key blk
  end.
Proof.
  induction blocks as [|blk blocks IH]; intros off Hne Hs; [reflexivity|].
  inversion Hne as [|? ? Hblk Hne']. subst.
  cbn [concat] in Hs. rewrite map_app in Hs.
  pose proof (StronglySorted_app_elim _ _ Hs) as (Hs1 & Hs2 & Hcross).
  cbn [index_of lower_bound concat]. rewrite assoc_app.
  destruct (str_ltb (block_last_key blk) key) eqn:E.
  - apply str_ltb_lt in E.
    assert (Hnone : assoc key blk = None).
    { apply assoc_none. intros Hin.
      destruct (block_keys_below_last blk key Hs1 Hin) as [Hk|Hk].
      - rewrite <- Hk in E. exact (str_lt_irrefl key E).
      - exact (str_lt_irrefl key (str_lt_trans _ _ _ Hk E)). }
    rewrite Hnone.
    specialize (IH (off + size (encode_block blk)) Hne' Hs2).
    destruct (lower_bound (index_of blocks (off + size (encode_block blk))) key)
      as [[k' h]|]; [|exact IH].
    destruct IH as (pre & blk' & post & -> & -> & IH).
    exists (blk :: pre), blk', post. split; [reflexivity|]. split; [|exact IH].
    f_equal. f_equal.
    change (encode_blocks (blk :: pre)) with (encode_block blk ++ encode_blocks pre).
    rewrite size_app. lia.
  - apply str_ltb_nlt in E.
    exists [], blk, blocks. split; [reflexivity|]. split.
    + change (encode_blocks []) with (@nil byte). now rewrite size_nil, Z.add_0_r.
    + destruct (assoc key blk) as [v|] eqn:Ea; [reflexivity|].
      apply assoc_none. intros Hin. apply E.
      apply Hcross; [|exact Hin]. now apply block_last_key_in.
Qed.

(* ================================================================== *)
(** * Sizes: what the 32-bit index-block size implies *)

Lemma index_size_lower (blocks : list block) (off : Z) :
  20 * Z.of_nat (length blocks) <= size (encode_index (index_of blocks off)).
Proof.
  revert off. induction blocks as [|blk blocks IH]; intros off.
  - cbn. lia.
  - cbn [index_of length]. rewrite encode_index_cons, size_app, size_index_entry.
    cbn [fst]. pose proof (size_nonneg (block_last_key blk)).
    specialize (IH (off + size (encode_block blk))). lia.
Qed.

Lemma data_size_upper (blocks : list block) :
  Forall (fun blk => blk <> [] /\ size (encode_block blk) < 2 ^ 32) blocks ->
  size (encode_blocks blocks) <= 2 ^ 32 * Z.of_nat (length blocks).
Proof.
  induction 1 as [|blk blocks [_ Hb] _ IH].
  - cbn. lia.
  - change (encode_blocks (blk :: blocks)) with (encode_block blk ++ encode_blocks blocks).
    rewrite size_app. cbn [length]. lia.
Qed.

Lemma data_size_bound (blocks : list block) :
  Forall (fun blk => blk <> [] /\ size (encode_block blk) < 2 ^ 32) blocks ->
  size (encode_index (index_of blocks 0)) < 2 ^ 32 ->
  size (encode_blocks blocks) < 2 ^ 62.
Proof.
  intros Hb Hi. pose proof (data_size_upper blocks Hb).
  pose proof (index_size_lower blocks 0). lia.
Qed.

Lemma index_of_handles (limit : Z) (blocks : list block) :
  forall off : Z,
  0 <= off -> off + size (encode_blocks blocks) <= limit -> limit < 2 ^ 63 ->
  Forall (fun blk => blk <> [] /\ size (encode_block blk) < 2 ^ 32) blocks ->
  Forall (fun e => handle_in limit (snd e) /\
                   u64 (offset_ (snd e)) = offset_ (snd e) /\
                   u32 (size_ (snd e)) = size_ (snd e) /\
                   size (fst e) < 2 ^ 32)
         (index_of blocks off).
Proof.
  induction blocks as [|blk blocks IH]; intros off Hoff Hlim Hl Hb; [constructor|].
  inversion Hb as [|? ? [Hne Hsz] Hb']. subst.
  change (encode_blocks (blk :: blocks)) with (encode_block blk ++ encode_blocks blocks)
    in Hlim.
  rewrite size_app in Hlim.
  pose proof (size_nonneg (encode_block blk)) as H0.
  pose proof (size_nonneg (encode_blocks blocks)) as H1.
  cbn [index_of]. constructor.
  - cbn [fst snd offset_ size_]. unfold handle_in. cbn [offset_ size_].
    rewrite (u64_small off), (u32_small (size (encode_block blk))) by lia.
    rewrite (u64_small off), (u32_small (size (encode_block blk))) by lia.
    repeat split; try lia.
    pose proof (block_last_key_in blk Hne) as Hin.
    apply in_map_iff in Hin. destruct Hin as ([k v] & Hk & Hin).
    cbn [fst] in Hk. subst k.
    pose proof (size_record_in_block _ _ _ Hin) as Hr. rewrite size_record in Hr.
    pose proof (size_nonneg v). lia.
  - apply IH; [lia | lia | exact Hl | exact Hb'].
Qed.

Lemma index_of_sorted (blocks : list block) (off : Z) :
  Forall (fun blk => blk <> []) blocks ->
  StronglySorted str_lt (map fst (concat blocks)) ->
  StronglySorted str_lt (map fst (index_of blocks off)).
Proof.
  rewrite index_of_keys.
  induction blocks as [|blk blocks IH]; intros Hne Hs; [constructor|].
  inversion Hne as [|? ? Hblk Hne']. subst.
  cbn [concat] in Hs. rewrite map_app in Hs.
  pose proof (StronglySorted_app_elim _ _ Hs) as (Hs1 & Hs2 & Hcross).
  cbn [map]. constructor; [now apply IH|].
  apply Forall_forall. intros k Hk.
  apply in_map_iff in Hk. destruct Hk as (blk' & <- & Hin).
  apply Hcross; [now apply block_last_key_in|].
  rewrite concat_map. apply in_concat. exists (map fst blk').
  split; [now apply in_map|].
  apply block_last_key_in. exact (proj1 (Forall_forall _ _) Hne' blk' Hin).
Qed.

Lemma Forall_weaken {A : Type} (P Q : A -> Prop) (l : list A) :
  (forall x, P x -> Q x) -> Forall P l -> Forall Q l.
Proof. intros H. induction 1; constructor; auto. Qed.

(* ================================================================== *)
(** * Lookups in a built table *)

(** What the builder and the reader agree on, for records that fit 32 bits,
    keys that ascend, and an index block that fits 32 bits. *)
Lemma build_serving (kvs : list (bytes * bytes)) :
  ascending (map fst kvs) ->
  Forall (fun kv => fits32 (fst kv) (snd kv)) kvs ->
  index_block_size kvs < 2 ^ 32 ->
  exists blocks : list block,
    concat blocks = kvs /\
    Forall (fun blk => blk <> [] /\ size (encode_block blk) < 2 ^ 32) blocks /\
    size (encode_blocks blocks) < 2 ^ 62 /\
    size (encode_index (index_of blocks 0)) < 2 ^ 32 /\
    build kvs = (encode_blocks blocks ++ encode_index (index_of blocks 0)) ++
                encode_footer (size (encode_blocks blocks))
                              (size (encode_index (index_of blocks 0))) /\
    serving (build kvs) (index_of blocks 0) (SSTableReader.new (Some (build kvs))) /\
    Forall (fun e => handle_in (size (build kvs)) (snd e)) (index_of blocks 0).
Proof.
  intros Hs Hfit Hidx.
  destruct (AddAll_new_layout kvs Hfit Hs) as (done & cur & Hl & E).
  pose proof (Finish_layout done cur _ Hl) as H. cbv zeta in H.
  destruct H as (_ & Hi & Hw & Hb & Hss).
  set (blocks := blocks_of done cur) in *.
  unfold index_block_size in Hidx. rewrite Hi in Hidx.
  pose proof (data_size_bound blocks Hb Hidx) as Hd.
  assert (Hbuild : build kvs =
            (encode_blocks blocks ++ encode_index (index_of blocks 0)) ++
            encode_footer (size (encode_blocks blocks))
                          (size (encode_index (index_of blocks 0))))
    by exact Hw.
  pose proof (size_nonneg (encode_blocks blocks)) as Hd0.
  pose proof (size_nonneg (encode_index (index_of blocks 0))) as Hi0.
  assert (Hne : Forall (fun blk : block => blk <> []) blocks)
    by (revert Hb; apply Forall_weaken; tauto).
  pose proof (index_of_handles (size (encode_blocks blocks)) blocks 0
                ltac:(lia) ltac:(lia) ltac:(lia) Hb) as Hh.
  exists blocks. split; [unfold blocks; rewrite concat_blocks_of; exact E|].
  split; [exact Hb|]. split; [exact Hd|]. split; [exact Hidx|].
  split; [exact Hbuild|]. split.
  - rewrite Hbuild. apply new_serving; try lia.
    + revert Hh. apply Forall_weaken. tauto.
    + revert Hh. apply Forall_weaken. tauto.
    + now apply index_of_sorted.
  - revert Hh. apply Forall_weaken. intros e ((Ho & Hz & He) & _).
    unfold handle_in. rewrite Hbuild, !size_app, size_encode_footer. lia.
Qed.

(** Every lookup in a table built from a well-formed input returns what the
    input records for the key, whatever lookups came before. *)
Lemma Get_build_assoc (kvs : list (bytes * bytes)) (qs : list bytes) (key : bytes) :
  ascending (map fst kvs) ->
  Forall (fun kv => fits32 (fst kv) (snd kv)) kvs ->
  index_block_size kvs < 2 ^ 32 ->
  fst (SSTableReader.Get (GetAll (SSTableReader.new (Some (build kvs))) qs) key) =
  assoc key kvs.
Proof.
  intros Hs Hfit Hidx.
  destruct (build_serving kvs Hs Hfit Hidx)
    as (blocks & E & Hb & Hd & Hi & Hbuild & Hserv & Hh).
  subst kvs.
  pose proof (GetAll_serving _ _ qs _ Hserv Hh) as Hr.
  destruct (Get_serving _ _ _ key Hr Hh) as [_ Hget]. rewrite Hget. clear Hget.
  assert (Hne : Forall (fun blk : block => blk <> []) blocks)
    by (revert Hb; apply Forall_weaken; tauto).
  assert (Hss : StronglySorted str_lt (map fst (concat blocks)))
    by (now apply ascending_StronglySorted).
  pose proof (lower_bound_index_of key blocks 0 Hne Hss) as Hlb.
  destruct (lower_bound (index_of blocks 0) key) as [[k' h]|].
  - destruct Hlb as (pre & blk & post & Eb & -> & Ha). cbn [offset_ size_].
    rewrite Ha.
    assert (Hblk : blk <> [] /\ size (encode_block blk) < 2 ^ 32).
    { apply (proj1 (Forall_forall _ _) Hb). rewrite Eb. apply in_elt. }
    pose proof (size_nonneg (encode_blocks pre)) as Hp0.
    pose proof (size_nonneg (encode_block blk)) as Hb0.
    assert (Hpre : size (encode_blocks pre) <= size (encode_blocks blocks)).
    { rewrite Eb, encode_blocks_app, size_app.
      pose proof (size_nonneg (encode_blocks (blk :: post))). lia. }
    rewrite Z.add_0_l, u64_small, u32_small by lia.
    assert (Hsub : substr (build (concat blocks)) (size (encode_blocks pre))
                     (size (encode_block blk)) =
                   encode_block blk).
    { rewrite Hbuild, Eb at 1. rewrite encode_blocks_app.
      change (encode_blocks (blk :: post)) with (encode_block blk ++ encode_blocks post).
      rewrite <- !app_assoc, (app_assoc (encode_blocks pre)).
      apply substr_app_mid; reflexivity. }
    rewrite Hsub. apply FindInBlock_block; [|apply Hblk].
    rewrite Eb, concat_app in Hss. cbn [concat] in Hss. rewrite !map_app in Hss.
    apply StronglySorted_app_elim in Hss. destruct Hss as (_ & Hss & _).
    now apply StronglySorted_app_elim in Hss.
  - symmetry. exact Hlb.
Qed.

(* ================================================================== *)
(** * Round trip and negative lookups *)

Lemma Finish_usable (b : SSTableBuilder.t) :
  usable b -> fst (SSTableBuilder.Finish b) = true.
Proof.
  intros Hu. unfold SSTableBuilder.Finish. now rewrite (usable_open b Hu).
Qed.

Lemma calls_build_calls (kvs : list (bytes * bytes)) :
  forall b : SSTableBuilder.t,
  accepting b ->
  calls b (build_calls kvs) =
  (map (fun _ => true) (build_calls kvs), snd (SSTableBuilder.Finish (AddAll b kvs))).
Proof.
  unfold build_calls.
  induction kvs as [|[k v] kvs IH]; intros b Hb.
  - cbn [map app calls call AddAll].
    pose proof (Finish_usable b (proj1 Hb)) as Hf.
    destruct (SSTableBuilder.Finish b) as [ok b']. cbn [fst snd] in *. now subst ok.
  - cbn [map app calls call AddAll fst snd].
    destruct (Add_accepting b k v Hb) as [Hok Hb1].
    destruct (SSTableBuilder.Add b k v) as [ok b1]. cbn [fst snd] in *. subst ok.
    rewrite (IH b1 Hb1). reflexivity.
Qed.

Lemma calls_build (kvs : list (bytes * bytes)) :
  fst (calls (SSTableBuilder.new true) (build_calls kvs)) =
    map (fun _ => true) (build_calls kvs) /\
  written (snd (calls (SSTableBuilder.new true) (build_calls kvs))) = build kvs.
Proof.
  rewrite (calls_build_calls kvs _ accepting_new). split; reflexivity.
Qed.

(** C2. For records with strictly ascending keys, each of an encoded size
    that fits 32 bits, and an index block that fits 32 bits: every [Add] and
    the [Finish] succeed, and on the reader opened on the file, after any
    lookups, [Get] on an inserted key returns the value inserted with it. *)
Theorem Get_finds_every_inserted_key
  (kvs : list (bytes * bytes)) (qs : list bytes) (key value : bytes)
  (Hasc : ascending (map fst kvs))
  (Hfit : Forall (fun kv => fits32 (fst kv) (snd kv)) kvs)
  (Hidx : index_block_size kvs < 2 ^ 32)
  (Hin : In (key, value) kvs) :
  fst (calls (SSTableBuilder.new true) (build_calls kvs)) =
    map (fun _ => true) (build_calls kvs) /\
  written (snd (calls (SSTableBuilder.new true) (build_calls kvs))) = build kvs /\
  fst (SSTableReader.Get (GetAll (SSTableReader.new (Some (build kvs))) qs) key) =
    Some value.
Proof.
  destruct (calls_build kvs) as [H1 H2].
  split; [exact H1|]. split; [exact H2|].
  rewrite (Get_build_assoc kvs qs key Hasc Hfit Hidx).
  apply assoc_in; [|exact Hin]. now apply ascending_StronglySorted.
Qed.

(** C3. For a table built as in C2, [Get] on a key that was never inserted
    returns not-found: between two inserted keys, below the smallest or
    above the greatest. *)
Theorem Get_misses_every_other_key
  (kvs : list (bytes * bytes)) (qs : list bytes) (key : bytes)
  (Hasc : ascending (map fst kvs))
  (Hfit : Forall (fun kv => fits32 (fst kv) (snd kv)) kvs)
  (Hidx : index_block_size kvs < 2 ^ 32)
  (Hout : ~ In key (map fst kvs)) :
  fst (SSTableReader.Get (GetAll (SSTableReader.new (Some (build kvs))) qs) key) = None.
Proof.
  rewrite (Get_build_assoc kvs qs key Hasc Hfit Hidx).
  now apply assoc_none.
Qed.

Lemma test_data_ascending : ascending (map fst Driver.test_data).
Proof. unfold ascending. repeat constructor. Qed.

Lemma test_data_fits : Forall (fun kv => fits32 (fst kv) (snd kv)) Driver.test_data.
Proof. repeat constructor. Qed.

Lemma test_data_index : index_block_size Driver.test_data < 2 ^ 32.
Proof. vm_compute. reflexivity. Qed.

(** The driver's test: the table has three data blocks; [s08_Heidi] is in
    the second. *)
Lemma Get_finds_every_inserted_key_witness :
  length (SSTableReader.index_data_ (SSTableReader.new (Some (build Driver.test_data))))
    = 3%nat /\
  fst (SSTableReader.Get
         (GetAll (SSTableReader.new (Some (build Driver.test_data)))
                 [Driver.s01_David; Driver.zzz_Nobody])
         Driver.s08_Heidi) = Some [x37; x38].
Proof.
  split; [vm_compute; reflexivity|].
  refine (proj2 (proj2 (Get_finds_every_inserted_key Driver.test_data
                          [Driver.s01_David; Driver.zzz_Nobody]
                          Driver.s08_Heidi [x37; x38]
                          test_data_ascending test_data_fits test_data_index _))).
  do 7 right. left. reflexivity.
Defined.

(** The driver's three negative lookups: between two keys, above all keys,
    below all keys. *)
Lemma Get_misses_every_other_key_witness :
  let r := SSTableReader.new (Some (build Driver.test_data)) in
  fst (SSTableReader.Get (GetAll r []) Driver.s01_MiddleKey) = None /\
  fst (SSTableReader.Get (GetAll r [Driver.s01_MiddleKey]) Driver.zzz_Nobody) = None /\
  fst (SSTableReader.Get (GetAll r [Driver.s01_MiddleKey; Driver.zzz_Nobody])
         Driver.aaa_Nobody) = None.
Proof.
  cbv zeta.
  assert (Hout : forall key,
            existsb (fun k => str_eqb k key) (map fst Driver.test_data) = false ->
            ~ In key (map fst Driver.test_data)).
  { intros key H Hin. apply Bool.not_true_iff_false in H. apply H.
    apply existsb_exists. exists key. split; [exact Hin|]. now apply str_eqb_eq. }
  split; [|split].
  - exact (Get_misses_every_other_key Driver.test_data [] Driver.s01_MiddleKey
             test_data_ascending test_data_fits test_data_index
             (Hout Driver.s01_MiddleKey eq_refl)).
  - exact (Get_misses_every_other_key Driver.test_data [Driver.s01_MiddleKey]
             Driver.zzz_Nobody
             test_data_ascending test_data_fits test_data_index
             (Hout Driver.zzz_Nobody eq_refl)).
  - exact (Get_misses_every_other_key Driver.test_data
             [Driver.s01_MiddleKey; Driver.zzz_Nobody] Driver.aaa_Nobody
             test_data_ascending test_data_fits test_data_index
             (Hout Driver.aaa_Nobody eq_refl)).
Defined.

(* ================================================================== *)
(** * Tables with a record of [2^32] bytes or more *)

Lemma empty_record (k v : bytes) : empty (record k v) = false.
Proof. apply empty_false_iff, record_not_nil. Qed.

(** The file built from one record, whatever its size. *)
Lemma build_single (k v : bytes) :
  let index := [(k, mkBlockHandle 0 (u32 (size (record k v))))] in
  build [(k, v)] =
  (record k v ++ encode_index index) ++
  encode_footer (size (record k v)) (size (encode_index index)).
Proof.
  cbv zeta. unfold build. cbn [AddAll].
  rewrite (Add_first (SSTableBuilder.new true) k v
             (proj1 accepting_new) eq_refl (or_introl eq_refl)).
  cbn [snd]. unfold SSTableBuilder.Finish, SSTableBuilder.FlushDataBlock.
  cbn [SSTableBuilder.finished_ SSTableBuilder.ofs_ SSTableBuilder.new
       SSTableBuilder.cur_data_block_ SSTableBuilder.index_data_
       SSTableBuilder.last_key_in_block_ SSTableBuilder.cur_data_block_offset_
       ofstream_open of_fail orb written of_data].
  rewrite empty_record.
  cbn [SSTableBuilder.finished_ SSTableBuilder.ofs_
       SSTableBuilder.cur_data_block_ SSTableBuilder.index_data_
       SSTableBuilder.last_key_in_block_ SSTableBuilder.cur_data_block_offset_
       of_write of_fail of_is_open of_data of_tellp of_close snd map_assign app].
  change (size []) with 0. change (u64 0) with 0.
  fold (encode_index [(k, mkBlockHandle 0 (u32 (size (record k v))))]).
  pose proof (size_encode_footer (size (record k v))
                (size (encode_index [(k, mkBlockHandle 0 (u32 (size (record k v))))])))
    as Hf.
  unfold encode_footer in Hf |- *.
  rewrite (view_all FOOTER_SIZE _ Hf). reflexivity.
Qed.

(** With the empty key and a value of [2^32] bytes the block handle records
    8 bytes, and the lookup of the key returns the empty value. *)
Lemma Get_value_4G (v : bytes) :
  size v = 2 ^ 32 ->
  fst (SSTableReader.Get (SSTableReader.new (Some (build [([], v)]))) []) = Some [].
Proof.
  intros Hv.
  assert (Hrec : size (record [] v) = 8 + 2 ^ 32)
    by (rewrite size_record, Hv; reflexivity).
  pose proof (build_single [] v) as Hb. cbv zeta in Hb.
  rewrite Hrec in Hb. change (u32 (8 + 2 ^ 32)) with 8 in Hb.
  unfold bytes in *.
  set (index := [(@nil byte, mkBlockHandle 0 8)]) in *.
  assert (Hserv : serving (build [([], v)]) index
                    (SSTableReader.new (Some (build [([], v)])))).
  { rewrite Hb. rewrite <- Hrec.
    apply new_serving.
    - rewrite Hrec. lia.
    - vm_compute. reflexivity.
    - repeat constructor.
    - repeat constructor.
    - repeat constructor. }
  assert (Hh : Forall (fun e => handle_in (size (build [([], v)])) (snd e)) index).
  { constructor; [|constructor]. unfold handle_in. cbn [snd offset_ size_].
    rewrite Hb, !size_app, size_encode_footer, Hrec.
    pose proof (size_nonneg (encode_index index)). lia. }
  destruct (Get_serving _ _ _ [] Hserv Hh) as [_ Hget].
  etransitivity; [exact Hget|]. clear Hget.
  cbn [index lower_bound offset_ size_].
  change (str_ltb [] []) with false. cbv iota. cbn [offset_ size_].
  assert (Hsub : substr (build [([], v)]) 0 8 = [x00; x00; x00; x00; x00; x00; x00; x00]).
  { rewrite Hb, record_unfold, Hv.
    change (le_bytes 4 (u32 (size []))) with [x00; x00; x00; x00].
    change (le_bytes 4 (u32 (2 ^ 32))) with [x00; x00; x00; x00].
    set (tail := encode_index index).
    set (foot := encode_footer (8 + 2 ^ 32) (size tail)).
    replace ((([x00; x00; x00; x00] ++ [] ++ [x00; x00; x00; x00] ++ v) ++ tail) ++ foot)
      with (([] ++ [x00; x00; x00; x00; x00; x00; x00; x00]) ++ (v ++ tail ++ foot))
      by (cbn [app]; now rewrite <- !app_assoc).
    apply substr_app_mid; reflexivity. }
  rewrite Hsub. reflexivity.
Qed.

Lemma Some_size_neq (a b : bytes) : size a <> size b -> Some a <> Some b.
Proof. intros H E. apply H. congruence. Qed.

(** C2, as stated, at a value of [2^32] bytes: the key is inserted with
    [value_4G], and [Get] returns found with the empty value.  [writeKV]
    stores the value's length as a [uint32_t], which is 0, and
    [FlushDataBlock] the block's size, which is 8. *)
Lemma Get_round_trip_counterexample :
  let kvs := [([], value_4G)] in
  ascending (map fst kvs) /\
  In ([], value_4G) kvs /\
  fst (calls (SSTableBuilder.new true) (build_calls kvs)) = [true; true] /\
  fst (SSTableReader.Get (SSTableReader.new (Some (build kvs))) []) = Some [] /\
  fst (SSTableReader.Get (SSTableReader.new (Some (build kvs))) []) <> Some value_4G.
Proof.
  cbv zeta.
  split; [repeat constructor|]. split; [left; reflexivity|].
  split; [exact (proj1 (calls_build [([], value_4G)]))|].
  split; [exact (Get_value_4G value_4G size_value_4G)|].
  intros E.
  assert (E' : Some (@nil byte) = Some value_4G)
    by (rewrite <- E; symmetry; exact (Get_value_4G value_4G size_value_4G)).
  revert E'. apply Some_size_neq. rewrite size_value_4G. discriminate.
Qed.

Lemma size_crafted_key : size crafted_key = 2 ^ 32.
Proof.
  unfold crafted_key. rewrite size_app.
  change (size (le_bytes 4 12 ++ BlockHandle_EncodeTo (mkBlockHandle 0 20) [])) with 16.
  unfold size. rewrite repeat_length, Z2Nat.id by lia. lia.
Qed.

(** With a key of [2^32] bytes that starts as [crafted_key] does, the index
    block the footer names is 20 bytes long and reads as one entry for the
    empty key, and the lookup of the empty key finds a record. *)
Lemma Get_crafted (z : bytes) :
  size z = 2 ^ 32 - 16 ->
  let key := (le_bytes 4 12 ++ BlockHandle_EncodeTo (mkBlockHandle 0 20) []) ++ z in
  SSTableReader.is_valid (SSTableReader.new (Some (build [(key, [])]))) = true /\
  fst (SSTableReader.Get (SSTableReader.new (Some (build [(key, [])]))) []) =
    Some (BlockHandle_EncodeTo (mkBlockHandle 0 20) []).
Proof.
  intros Hz key.
  set (P := le_bytes 4 12 ++ BlockHandle_EncodeTo (mkBlockHandle 0 20) []) in *.
  assert (HP : size P = 16) by reflexivity.
  assert (Hkey : size key = 2 ^ 32) by (unfold key; rewrite size_app, HP, Hz; lia).
  assert (Hrec : size (record key []) = 8 + 2 ^ 32)
    by (rewrite size_record, Hkey; reflexivity).
  pose proof (build_single key []) as Hb. cbv zeta in Hb.
  rewrite Hrec in Hb. change (u32 (8 + 2 ^ 32)) with 8 in Hb.
  set (index := [(@nil byte, mkBlockHandle 0 20)]).
  set (gap := z ++ le_bytes 4 12 ++ BlockHandle_EncodeTo (mkBlockHandle 0 8) []).
  assert (Hidx : encode_index [(key, mkBlockHandle 0 8)] = encode_index index ++ gap).
  { unfold index. rewrite !encode_index_cons. unfold index_entry. cbn [fst snd].
    change (encode_index []) with (@nil byte). rewrite !app_nil_r.
    rewrite (record_unfold key), (record_unfold []), Hkey.
    rewrite size_BlockHandle_EncodeTo.
    change (le_bytes 4 (u32 (2 ^ 32))) with [x00; x00; x00; x00].
    change (le_bytes 4 (u32 (size []))) with [x00; x00; x00; x00].
    change (le_bytes 4 (u32 12)) with (le_bytes 4 12).
    unfold key, gap. fold P.
    cbn [app]. rewrite <- !app_assoc. reflexivity. }
  assert (Hisz : size (encode_index [(key, mkBlockHandle 0 8)]) = 2 ^ 32 + 20).
  { rewrite encode_index_cons, size_app, size_index_entry. cbn [fst].
    rewrite Hkey. change (size (encode_index [])) with 0. lia. }
  unfold bytes in *. rewrite Hisz, Hidx, app_assoc in Hb.
  assert (Hserv : serving (build [(key, [])]) index
                    (SSTableReader.new (Some (build [(key, [])])))).
  { rewrite Hb. apply new_serving_gap.
    - rewrite Hrec. reflexivity.
    - rewrite Hrec. lia.
    - reflexivity.
    - repeat constructor.
    - repeat constructor.
    - repeat constructor. }
  split; [exact (proj1 Hserv)|].
  assert (Hh : Forall (fun e => handle_in (size (build [(key, [])])) (snd e)) index).
  { constructor; [|constructor]. unfold handle_in. cbn [snd offset_ size_].
    rewrite Hb, !size_app, size_encode_footer, Hrec.
    pose proof (size_nonneg (encode_index index)). pose proof (size_nonneg gap). lia. }
  destruct (Get_serving _ _ _ [] Hserv Hh) as [_ Hget].
  etransitivity; [exact Hget|]. clear Hget.
  cbn [index lower_bound]. change (str_ltb [] []) with false. cbv iota.
  cbn [offset_ size_].
  assert (Hsub : substr (build [(key, [])]) 0 20 = [x00; x00; x00; x00] ++ P).
  { rewrite Hb, (record_unfold key), Hkey.
    change (le_bytes 4 (u32 (2 ^ 32))) with [x00; x00; x00; x00].
    unfold key.
    set (t1 := le_bytes 4 (u32 (size [])) ++ []).
    set (t2 := encode_index index). set (t3 := encode_footer _ _).
    replace (((([x00; x00; x00; x00] ++ (P ++ z) ++ t1) ++ t2) ++ gap) ++ t3)
      with (([] ++ ([x00; x00; x00; x00] ++ P)) ++ (z ++ t1 ++ t2 ++ gap ++ t3))
      by (rewrite <- !app_assoc; reflexivity).
    apply substr_app_mid; reflexivity. }
  rewrite Hsub. reflexivity.
Qed.

(** C3, as stated, at a key of [2^32] bytes.  The only key inserted is
    [crafted_key]; [writeKV] stores its length as a [uint32_t], which is 0,
    [Finish] the size of the index block, which is 20; the reader is valid,
    and [Get] on the empty key, never inserted, returns found. *)
Lemma Get_not_found_counterexample :
  let kvs := [(crafted_key, [])] in
  ascending (map fst kvs) /\
  ~ In [] (map fst kvs) /\
  SSTableReader.is_valid (SSTableReader.new (Some (build kvs))) = true /\
  fst (SSTableReader.Get (SSTableReader.new (Some (build kvs))) []) <> None.
Proof.
  cbv zeta.
  assert (Hz : size (repeat x00 (Z.to_nat (2 ^ 32 - 16))) = 2 ^ 32 - 16)
    by (unfold size; rewrite repeat_length; apply Z2Nat.id; lia).
  pose proof (Get_crafted _ Hz) as H. cbv zeta in H.
  fold crafted_key in H. destruct H as [Hv Hg].
  split; [repeat constructor|]. split.
  - intros [E|[]]. apply (f_equal size) in E. cbn [fst] in E.
    rewrite size_crafted_key in E. discriminate E.
  - split; [exact Hv|]. intros E.
    assert (E' : Some (BlockHandle_EncodeTo (mkBlockHandle 0 20) []) = None)
      by (rewrite <- E; symmetry; exact Hg).
    discriminate E'.
Qed.

(* ================================================================== *)
(** * The order of keys *)




(* ================================================================== *)
(** * Further properties of the codec (base.h) *)

Lemma firstn_app_ge {A : Type} (n : nat) (a b : list A) :
  (length a <= n)%nat -> firstn n (a ++ b) = a ++ firstn (n - length a) b.
Proof.
  intros H. rewrite firstn_app, firstn_all2 by exact H. reflexivity.
Qed.

Lemma handle_typed_u (h : BlockHandle) :
  handle_typed h -> u64 (offset_ h) = offset_ h /\ u32 (size_ h) = size_ h.
Proof.
  intros [Ho Hs]. split; [now apply u64_small | now apply u32_small].
Qed.

Lemma BlockHandle_EncodeTo_app (h : BlockHandle) (dst : bytes) :
  BlockHandle_EncodeTo h dst = dst ++ BlockHandle_EncodeTo h [].
Proof. unfold BlockHandle_EncodeTo. cbn [app]. now rewrite <- app_assoc. Qed.

Lemma BlockHandle_DecodeFrom_app (h0 h : BlockHandle) (rest : bytes) :
  BlockHandle_DecodeFrom h0 (BlockHandle_EncodeTo h [] ++ rest) =
  (true, mkBlockHandle (u64 (offset_ h)) (u32 (size_ h)), rest).
Proof.
  unfold BlockHandle_DecodeFrom.
  rewrite size_app, size_BlockHandle_EncodeTo.
  pose proof (size_nonneg rest) as Hr.
  destruct (Z.ltb_spec (12 + size rest) (8 + 4)) as [|_]; [lia|].
  unfold BlockHandle_EncodeTo. cbn [app]. rewrite <- app_assoc.
  rewrite (memcpy_uint_app 8) by apply le_bytes_length.
  rewrite (remove_prefix_app 8) by apply size_le_bytes.
  rewrite (memcpy_uint_app 4) by apply le_bytes_length.
  rewrite (remove_prefix_app 4) by apply size_le_bytes.
  now rewrite le8_value, le4_value.
Qed.

(** X1. [BlockHandle::EncodeTo] appends 12 bytes to its destination, and
    [BlockHandle::DecodeFrom] on those bytes, whatever follows them, gives
    the handle back and leaves the view on what follows. *)
Theorem BlockHandle_round_trip (h0 h : BlockHandle) (dst rest : bytes)
  (Hh : handle_typed h) :
  BlockHandle_EncodeTo h dst = dst ++ BlockHandle_EncodeTo h [] /\
  size (BlockHandle_EncodeTo h []) = BLOCK_HANDLE_SIZE /\
  BlockHandle_DecodeFrom h0 (BlockHandle_EncodeTo h [] ++ rest) = (true, h, rest).
Proof.
  split; [apply BlockHandle_EncodeTo_app|]. split; [apply size_BlockHandle_EncodeTo|].
  rewrite BlockHandle_DecodeFrom_app.
  destruct (handle_typed_u h Hh) as [-> ->]. now destruct h.
Qed.

Lemma BlockHandle_round_trip_witness :
  BlockHandle_DecodeFrom BlockHandle_default
    (BlockHandle_EncodeTo (mkBlockHandle 4294967304 128) [] ++ [x61; x62]) =
  (true, mkBlockHandle 4294967304 128, [x61; x62]).
Proof.
  refine (proj2 (proj2 (BlockHandle_round_trip BlockHandle_default
                          (mkBlockHandle 4294967304 128) [] [x61; x62] _))).
  unfold handle_typed. cbn [offset_ size_]. lia.
Defined.

(** X2. [BlockHandle::DecodeFrom] on fewer than 12 bytes fails and changes
    neither the handle nor the view; on 12 bytes or more it succeeds, removes
    exactly the first 12 bytes from the view, and the handle it fills encodes
    to those 12 bytes. *)
Theorem BlockHandle_DecodeFrom_result (h0 : BlockHandle) (input : bytes) :
  (size input < 12 -> BlockHandle_DecodeFrom h0 input = (false, h0, input)) /\
  (12 <= size input ->
   exists h,
     BlockHandle_DecodeFrom h0 input = (true, h, skipn 12 input) /\
     handle_typed h /\
     BlockHandle_EncodeTo h [] = firstn 12 input).
Proof.
  unfold BlockHandle_DecodeFrom. change (8 + 4) with 12.
  split; intros H; destruct (Z.ltb_spec (size input) 12) as [H'|H']; try lia.
  - reflexivity.
  - exists (mkBlockHandle (memcpy_uint 8 input) (memcpy_uint 4 (remove_prefix 8 input))).
    assert (Hl : (12 <= length input)%nat) by (unfold size in H; lia).
    split; [|split].
    + unfold remove_prefix. rewrite skipn_skipn. reflexivity.
    + unfold handle_typed, memcpy_uint, remove_prefix. cbn [offset_ size_].
      pose proof (le_value_range (firstn 8 input)) as R8.
      pose proof (le_value_range (firstn 4 (skipn (Z.to_nat 8) input))) as R4.
      rewrite length_firstn in R8, R4. rewrite length_skipn in R4.
      replace (Nat.min 8 (length input)) with 8%nat in R8 by lia.
      replace (Nat.min 4 (length input - Z.to_nat 8)) with 4%nat in R4 by lia.
      change (256 ^ Z.of_nat 8) with (2 ^ 64) in R8.
      change (256 ^ Z.of_nat 4) with (2 ^ 32) in R4. lia.
    + unfold BlockHandle_EncodeTo, memcpy_uint, remove_prefix. cbn [offset_ size_ app].
      rewrite (bytes_of_value 8) by (rewrite length_firstn; lia).
      rewrite (bytes_of_value 4) by (rewrite length_firstn, length_skipn; lia).
      change (Z.to_nat 8) with 8%nat.
      rewrite <- (firstn_skipn 8 (firstn 12 input)).
      rewrite firstn_firstn. change (Nat.min 8 12) with 8%nat. f_equal.
      rewrite skipn_firstn_comm. reflexivity.
Qed.

(** X3. [Footer::EncodeTo] produces 20 bytes.  [Footer::DecodeFrom] on them
    gives the footer back when its magic number is the constant; with any
    other magic number it fails, having stored that number but not the
    handle. *)
Theorem Footer_round_trip (f0 f : Footer)
  (Hh : handle_typed (index_block_handle_ f))
  (Hm : 0 <= magic_number_ f < 2 ^ 64) :
  size (Footer_EncodeTo f []) = FOOTER_SIZE /\
  Footer_DecodeFrom f0 (Footer_EncodeTo f []) =
    if magic_number_ f =? SSTABLE_MAGIC_NUMBER then (true, f)
    else (false, mkFooter (index_block_handle_ f0) (magic_number_ f)).
Proof.
  assert (Hsz : size (Footer_EncodeTo f []) = 20).
  { unfold Footer_EncodeTo. now rewrite size_app, size_BlockHandle_EncodeTo, size_le_bytes. }
  split; [exact Hsz|].
  unfold Footer_DecodeFrom. rewrite Hsz.
  change (20 <? BLOCK_HANDLE_SIZE + 8) with false. cbv iota.
  unfold Footer_EncodeTo.
  assert (Hhs : size (BlockHandle_EncodeTo (index_block_handle_ f) []) = BLOCK_HANDLE_SIZE)
    by apply size_BlockHandle_EncodeTo.
  rewrite !(remove_prefix_app _ _ _ Hhs).
  assert (Hmg : memcpy_uint 8 (le_bytes 8 (magic_number_ f)) = magic_number_ f).
  { rewrite <- (app_nil_r (le_bytes 8 (magic_number_ f))).
    rewrite (memcpy_uint_app 8) by apply le_bytes_length.
    now rewrite le8_value, (u64_small _ Hm). }
  rewrite !Hmg.
  destruct (magic_number_ f =? SSTABLE_MAGIC_NUMBER) eqn:E; cbn [negb]; [|reflexivity].
  unfold substr. change (Z.to_nat 0) with 0%nat. cbn [skipn].
  fold (view BLOCK_HANDLE_SIZE
          (BlockHandle_EncodeTo (index_block_handle_ f) [] ++ le_bytes 8 (magic_number_ f))).
  rewrite (view_app _ _ _ Hhs).
  cbn [index_block_handle_].
  rewrite <- (app_nil_r (BlockHandle_EncodeTo (index_block_handle_ f) [])).
  rewrite BlockHandle_DecodeFrom_app.
  destruct (handle_typed_u _ Hh) as [-> ->].
  destruct f as [[o s] m]. reflexivity.
Qed.

Lemma Footer_round_trip_witness :
  Footer_DecodeFrom Footer_default
    (Footer_EncodeTo (mkFooter (mkBlockHandle 277 86) SSTABLE_MAGIC_NUMBER) []) =
    (true, mkFooter (mkBlockHandle 277 86) SSTABLE_MAGIC_NUMBER) /\
  Footer_DecodeFrom (mkFooter (mkBlockHandle 1 2) 3)
    (Footer_EncodeTo (mkFooter (mkBlockHandle 277 86) 0) []) =
    (false, mkFooter (mkBlockHandle 1 2) 0).
Proof.
  split.
  - refine (proj2 (Footer_round_trip Footer_default
                     (mkFooter (mkBlockHandle 277 86) SSTABLE_MAGIC_NUMBER) _ _)).
    + unfold handle_typed. cbn [index_block_handle_ offset_ size_]. lia.
    + apply magic_range.
  - refine (proj2 (Footer_round_trip (mkFooter (mkBlockHandle 1 2) 3)
                     (mkFooter (mkBlockHandle 277 86) 0) _ _)).
    + unfold handle_typed. cbn [index_block_handle_ offset_ size_]. lia.
    + cbn [magic_number_]. lia.
Defined.

(** X4. [writeKV] leaves what the buffer held in place and appends
    [8 + key.size() + value.size()] bytes; for a record that fits 32 bits
    that is the number [getEntrySize] returns. *)
Theorem writeKV_appends_entry_size (buffer key value : bytes) :
  prefix_of buffer (writeKV buffer key value) /\
  size (writeKV buffer key value) = size buffer + (8 + size key + size value) /\
  (fits32 key value ->
   size (writeKV buffer key value) = size buffer + getEntrySize key value).
Proof.
  rewrite writeKV_record. split; [now exists (record key value)|].
  rewrite size_app, size_record. split; [reflexivity|].
  intros Hfit. rewrite (getEntrySize_fits key value Hfit), size_record. reflexivity.
Qed.

(** X5. [readKV] on what [writeKV] wrote into an empty buffer, whatever
    follows it, returns the key and the value written and leaves the view on
    what follows; the lengths must fit their 32-bit fields. *)
Theorem readKV_writeKV_round_trip (key value rest key0 value0 : bytes)
  (Hk : size key < 2 ^ 32) (Hv : size value < 2 ^ 32) :
  readKV (writeKV [] key value ++ rest) key0 value0 = (true, rest, key, value).
Proof. exact (readKV_record key value rest key0 value0 Hk Hv). Qed.

Lemma readKV_writeKV_round_trip_witness :
  readKV (writeKV (writeKV [] [x61] [x31; x32]) [x62] []) [] [] =
  (true, writeKV [] [x62] [], [x61], [x31; x32]).
Proof.
  rewrite (writeKV_record (writeKV [] [x61] [x31; x32])).
  apply (readKV_writeKV_round_trip [x61] [x31; x32]); reflexivity.
Defined.

(** X6. [readKV] fails on every proper prefix of an encoded record: a record
    cut short anywhere is not decoded. *)
Theorem readKV_truncated_record (key value key0 value0 : bytes) (n : nat)
  (Hk : size key < 2 ^ 32) (Hv : size value < 2 ^ 32)
  (Hn : (n < length (writeKV [] key value))%nat) :
  fst (fst (fst (readKV (firstn n (writeKV [] key value)) key0 value0))) = false.
Proof.
  fold (record key value) in *.
  pose proof (size_nonneg key) as Hk0. pose proof (size_nonneg value) as Hv0.
  assert (Hlen : Z.of_nat (length (record key value)) = 8 + size key + size value)
    by apply size_record.
  rewrite record_unfold, !u32_small by lia.
  set (L1 := le_bytes 4 (size key)). set (L2 := le_bytes 4 (size value)).
  assert (HL1 : length L1 = 4%nat) by apply le_bytes_length.
  assert (HL2 : length L2 = 4%nat) by apply le_bytes_length.
  assert (HvL1 : le_value L1 = size key)
    by (unfold L1; rewrite le4_value; apply u32_small; lia).
  assert (HvL2 : le_value L2 = size value)
    by (unfold L2; rewrite le4_value; apply u32_small; lia).
  assert (Hsz : forall m (l : bytes), (m <= length l)%nat -> size (firstn m l) = Z.of_nat m).
  { intros m l H. unfold size. rewrite length_firstn. lia. }
  assert (Hall : length (L1 ++ key ++ L2 ++ value) = length (record key value))
    by (rewrite record_unfold, !u32_small by lia; reflexivity).
  unfold readKV.
  rewrite Hsz by lia.
  destruct (Z.ltb_spec (Z.of_nat n) 4) as [|H1]; [reflexivity|].
  rewrite (firstn_app_ge n L1) by lia. rewrite HL1.
  rewrite !(memcpy_uint_app 4 L1) by exact HL1.
  rewrite (remove_prefix_app 4) by (unfold size; rewrite HL1; reflexivity).
  rewrite !HvL1.
  assert (Hrest : length (key ++ L2 ++ value) = (length (record key value) - 4)%nat).
  { rewrite <- Hall, (length_app L1), HL1. lia. }
  rewrite Hsz by lia.
  destruct (Z.ltb_spec (Z.of_nat (n - 4)) (size key)) as [|H2]; [reflexivity|].
  assert (Hkl : (length key <= n - 4)%nat) by (unfold size in H2; lia).
  rewrite (firstn_app_ge (n - 4) key) by exact Hkl.
  rewrite (remove_prefix_app (size key)) by reflexivity.
  assert (Hrest2 : length (L2 ++ value) = (length (record key value) - 4 - length key)%nat).
  { rewrite length_app in Hrest. lia. }
  rewrite Hsz by lia.
  destruct (Z.ltb_spec (Z.of_nat (n - 4 - length key)) 4) as [|H3]; [reflexivity|].
  rewrite (firstn_app_ge (n - 4 - length key) L2) by lia. rewrite HL2.
  rewrite !(memcpy_uint_app 4 L2) by exact HL2.
  rewrite (remove_prefix_app 4) by (unfold size; rewrite HL2; reflexivity).
  rewrite !HvL2.
  assert (Hrest3 : length value = (length (record key value) - 8 - length key)%nat).
  { rewrite length_app, HL2 in Hrest2. lia. }
  rewrite Hsz by lia.
  destruct (Z.ltb_spec (Z.of_nat (n - 4 - length key - 4)) (size value)) as [|H4];
    [reflexivity|].
  unfold size in H4. lia.
Qed.

Lemma readKV_truncated_record_witness :
  fst (fst (fst (readKV (firstn 9 (writeKV [] [x61; x62] [x31; x32; x33])) [] []))) = false.
Proof.
  apply (readKV_truncated_record [x61; x62] [x31; x32; x33] [] [] 9).
  - reflexivity.
  - reflexivity.
  - vm_compute. lia.
Defined.

(* ================================================================== *)
(** * Further properties of the builder *)

Lemma prefix_of_refl (a : bytes) : prefix_of a a.
Proof. exists []. now rewrite app_nil_r. Qed.

Lemma prefix_of_trans (a b c : bytes) : prefix_of a b -> prefix_of b c -> prefix_of a c.
Proof. intros [r1 ->] [r2 ->]. exists (r1 ++ r2). now rewrite app_assoc. Qed.

Lemma prefix_of_size (a b : bytes) : prefix_of a b -> size a <= size b.
Proof. intros [r ->]. rewrite size_app. pose proof (size_nonneg r). lia. Qed.

Lemma of_write_prefix (s : ofstream) (buf : bytes) :
  prefix_of (of_data s) (of_data (of_write s buf)).
Proof.
  unfold of_write. destruct (of_fail s); [apply prefix_of_refl|].
  now exists buf.
Qed.

Lemma of_close_data (s : ofstream) : of_data (of_close s) = of_data s.
Proof. unfold of_close. now destruct (of_is_open s). Qed.

Lemma FlushDataBlock_prefix (b : SSTableBuilder.t) :
  prefix_of (written b) (written (SSTableBuilder.FlushDataBlock b)).
Proof.
  unfold SSTableBuilder.FlushDataBlock, written.
  destruct (empty _); [apply prefix_of_refl | apply of_write_prefix].
Qed.

Lemma Add_prefix (b : SSTableBuilder.t) (key value : bytes) :
  prefix_of (written b) (written (snd (SSTableBuilder.Add b key value))).
Proof.
  unfold SSTableBuilder.Add.
  destruct (_ || _); [apply prefix_of_refl|].
  destruct (_ && _ && _); [apply prefix_of_refl|].
  destruct (empty _); [apply prefix_of_refl|].
  destruct (_ >? _); [|apply prefix_of_refl].
  apply FlushDataBlock_prefix.
Qed.

Lemma Finish_prefix (b : SSTableBuilder.t) :
  prefix_of (written b) (written (snd (SSTableBuilder.Finish b))).
Proof.
  unfold SSTableBuilder.Finish.
  destruct (_ || _); [apply prefix_of_refl|].
  unfold written at 2. cbn [snd SSTableBuilder.ofs_]. rewrite of_close_data.
  eapply prefix_of_trans; [apply FlushDataBlock_prefix|].
  eapply prefix_of_trans; apply of_write_prefix.
Qed.

Lemma calls_snd_cons (b : SSTableBuilder.t) (c : builder_call) (cs : list builder_call) :
  snd (calls b (c :: cs)) = snd (calls (snd (call b c)) cs).
Proof.
  cbn [calls]. destruct (call b c) as [r b1]. cbn [snd].
  now destruct (calls b1 cs).
Qed.

(** X7. Whatever calls are made on a builder, in whatever state, the bytes
    it had written stay where they are: the file only grows at its end. *)
Theorem builder_only_appends (b : SSTableBuilder.t) (cs : list builder_call) :
  prefix_of (written b) (written (snd (calls b cs))).
Proof.
  revert b. induction cs as [|c cs IH]; intros b; [apply prefix_of_refl|].
  rewrite calls_snd_cons.
  eapply prefix_of_trans; [|apply IH].
  destruct c as [key value|]; [apply Add_prefix | apply Finish_prefix].
Qed.

(** ** The index the builder keeps *)

Lemma map_assign_keys_in (m : index_map) (k : bytes) (h : BlockHandle) (x : bytes) :
  In x (map fst (map_assign m k h)) -> x = k \/ In x (map fst m).
Proof.
  induction m as [|[k' h'] m IH]; cbn [map_assign map fst In].
  - intros [<-|[]]. now left.
  - destruct (compare k k') eqn:E; cbn [map fst In].
    + tauto.
    + intros [<-|H]; tauto.
    + intros [<-|H]; [tauto|]. destruct (IH H); tauto.
Qed.

Lemma map_assign_sorted (m : index_map) (k : bytes) (h : BlockHandle) :
  StronglySorted str_lt (map fst m) ->
  StronglySorted str_lt (map fst (map_assign m k h)).
Proof.
  induction m as [|[k' h'] m IH]; intros Hs.
  - cbn. constructor; constructor.
  - cbn [map fst] in Hs. apply StronglySorted_inv in Hs. destruct Hs as [Hs Hf].
    cbn [map_assign]. destruct (compare k k') eqn:E; cbn [map fst].
    + constructor; assumption.
    + constructor; [constructor; assumption|].
      constructor; [exact E|].
      revert Hf. apply Forall_weaken. intros x. now apply str_lt_trans.
    + constructor; [now apply IH|].
      apply Forall_forall. intros x Hx.
      destruct (map_assign_keys_in _ _ _ _ Hx) as [->|Hx'].
      * now apply str_lt_gt.
      * exact (proj1 (Forall_forall _ _) Hf x Hx').
Qed.

Lemma map_assign_Forall (P : bytes * BlockHandle -> Prop) (m : index_map)
  (k : bytes) (h : BlockHandle) :
  (forall k', P (k', h)) -> Forall P m -> Forall P (map_assign m k h).
Proof.
  intros Hh. induction 1 as [|[k' h'] m Hp Hm IH].
  - cbn. constructor; [apply Hh | constructor].
  - cbn [map_assign]. destruct (compare k k'); constructor; auto.
Qed.

Lemma u64_le (z : Z) : 0 <= z -> 0 <= u64 z <= z /\ u64 z < 2 ^ 64.
Proof.
  intros H. unfold u64. pose proof (Z.mod_pos_bound z (2 ^ 64) ltac:(lia)).
  pose proof (Z.mod_le z (2 ^ 64) H ltac:(lia)). lia.
Qed.

Lemma u32_le (z : Z) : 0 <= z -> 0 <= u32 z <= z /\ u32 z < 2 ^ 32.
Proof.
  intros H. unfold u32. pose proof (Z.mod_pos_bound z (2 ^ 32) ltac:(lia)).
  pose proof (Z.mod_le z (2 ^ 32) H ltac:(lia)). lia.
Qed.

Lemma handle_within_mono (n n' : Z) (h : BlockHandle) :
  n <= n' -> handle_within n h -> handle_within n' h.
Proof. intros Hn [Ht Hw]. split; [exact Ht | lia]. Qed.

Lemma index_sound_new (can_open : bool) : index_sound (SSTableBuilder.new can_open).
Proof.
  unfold index_sound, written. destruct can_open; cbn;
    repeat split; try constructor; try lia; try discriminate.
Qed.

Lemma FlushDataBlock_index_sound (b : SSTableBuilder.t) :
  index_sound b -> index_sound (SSTableBuilder.FlushDataBlock b).
Proof.
  intros Hb. unfold SSTableBuilder.FlushDataBlock.
  destruct (empty (SSTableBuilder.cur_data_block_ b)) eqn:E; [exact Hb|].
  destruct Hb as (Hs & Hh & Ho & Ho64 & Hf).
  apply empty_false_iff in E.
  destruct (of_fail (SSTableBuilder.ofs_ b)) eqn:Ef; [destruct (E (Hf eq_refl))|].
  unfold index_sound, written in *.
  cbn [SSTableBuilder.ofs_ SSTableBuilder.index_data_ SSTableBuilder.cur_data_block_
       SSTableBuilder.cur_data_block_offset_].
  rewrite (of_write_ok _ _ Ef). cbn [of_data of_fail].
  rewrite size_app.
  pose proof (size_nonneg (SSTableBuilder.cur_data_block_ b)) as Hc0.
  pose proof (u32_le _ Hc0) as Hu.
  split; [now apply map_assign_sorted|]. split; [|repeat split; try lia; discriminate].
  apply map_assign_Forall.
  - intros k'. cbn [snd]. unfold handle_within, handle_typed. cbn [offset_ size_]. lia.
  - revert Hh. apply Forall_weaken. intros e. apply handle_within_mono. lia.
Qed.

Lemma Add_index_sound (b : SSTableBuilder.t) (key value : bytes) :
  index_sound b -> index_sound (snd (SSTableBuilder.Add b key value)).
Proof.
  intros Hb. unfold SSTableBuilder.Add.
  destruct (SSTableBuilder.finished_ b || of_fail (SSTableBuilder.ofs_ b)) eqn:Eu;
    [exact Hb|].
  apply orb_false_iff in Eu. destruct Eu as [_ Ef].
  destruct (_ && _ && _); [exact Hb|].
  cbn [snd].
  destruct (empty (SSTableBuilder.cur_data_block_ b)) eqn:E.
  - destruct Hb as (Hs & Hh & Ho & Ho64 & Hf).
    unfold index_sound, written in *.
    cbn [SSTableBuilder.set_offset SSTableBuilder.ofs_ SSTableBuilder.index_data_
         SSTableBuilder.cur_data_block_ SSTableBuilder.cur_data_block_offset_].
    rewrite (of_tellp_ok _ Ef).
    pose proof (u64_le _ (size_nonneg (of_data (SSTableBuilder.ofs_ b)))).
    repeat split; try assumption; try lia. rewrite Ef. discriminate.
  - destruct (_ >? _).
    + pose proof (FlushDataBlock_index_sound b Hb) as (Hs & Hh & Ho & Ho64 & Hf).
      assert (Ef' : of_fail (SSTableBuilder.ofs_ (SSTableBuilder.FlushDataBlock b)) = false).
      { unfold SSTableBuilder.FlushDataBlock. rewrite E.
        cbn [SSTableBuilder.ofs_]. now rewrite (of_write_ok _ _ Ef). }
      unfold index_sound, written in *.
      cbn [SSTableBuilder.set_offset SSTableBuilder.ofs_ SSTableBuilder.index_data_
           SSTableBuilder.cur_data_block_ SSTableBuilder.cur_data_block_offset_].
      rewrite (of_tellp_ok _ Ef').
      pose proof (u64_le _ (size_nonneg
                    (of_data (SSTableBuilder.ofs_ (SSTableBuilder.FlushDataBlock b))))).
      repeat split; try assumption; try lia. rewrite Ef'. discriminate.
    + destruct Hb as (Hs & Hh & Ho & Ho64 & Hf).
      unfold index_sound, written in *.
      cbn [SSTableBuilder.ofs_ SSTableBuilder.index_data_
           SSTableBuilder.cur_data_block_ SSTableBuilder.cur_data_block_offset_].
      repeat split; try assumption; try lia. rewrite Ef. discriminate.
Qed.

Lemma FlushDataBlock_cur (b : SSTableBuilder.t) :
  SSTableBuilder.cur_data_block_ (SSTableBuilder.FlushDataBlock b) = [].
Proof.
  unfold SSTableBuilder.FlushDataBlock.
  destruct (empty (SSTableBuilder.cur_data_block_ b)) eqn:E; [|reflexivity].
  now apply empty_true_iff.
Qed.

Lemma Finish_index_sound (b : SSTableBuilder.t) :
  index_sound b -> index_sound (snd (SSTableBuilder.Finish b)).
Proof.
  intros Hb. unfold SSTableBuilder.Finish.
  destruct (SSTableBuilder.finished_ b || of_fail (SSTableBuilder.ofs_ b)) eqn:Eu;
    [exact Hb|].
  pose proof (FlushDataBlock_index_sound b Hb) as (Hs & Hh & Ho & Ho64 & Hf).
  set (b1 := SSTableBuilder.FlushDataBlock b) in *.
  unfold index_sound. cbn [snd SSTableBuilder.index_data_ SSTableBuilder.cur_data_block_
                            SSTableBuilder.cur_data_block_offset_].
  match goal with
  | |- context [written ?x] => set (b2 := x)
  end.
  assert (Hsz : size (written b1) <= size (written b2)).
  { apply prefix_of_size. unfold written, b2. cbn [SSTableBuilder.ofs_].
    rewrite of_close_data.
    eapply prefix_of_trans; apply of_write_prefix. }
  split; [exact Hs|]. split; [|split; [lia|split; [exact Ho64|]]].
  - revert Hh. apply Forall_weaken. intros e. now apply handle_within_mono.
  - intros _. apply FlushDataBlock_cur.
Qed.

Lemma call_index_sound (b : SSTableBuilder.t) (c : builder_call) :
  index_sound b -> index_sound (snd (call b c)).
Proof.
  destruct c as [key value|]; [apply Add_index_sound | apply Finish_index_sound].
Qed.

(** X8. After any calls on a fresh builder, whether or not its file could be
    opened and whatever the order of the keys: the keys of the index ascend
    strictly, and every handle in it has fields of its types and names a
    range inside the bytes written. *)
Theorem builder_index_in_written (can_open : bool) (cs : list builder_call) :
  let b := snd (calls (SSTableBuilder.new can_open) cs) in
  StronglySorted str_lt (map fst (SSTableBuilder.index_data_ b)) /\
  Forall (fun e => handle_within (size (written b)) (snd e))
         (SSTableBuilder.index_data_ b).
Proof.
  cbv zeta.
  assert (H : forall cs b, index_sound b -> index_sound (snd (calls b cs))).
  { clear. induction cs as [|c cs IH]; intros b Hb; [exact Hb|].
    rewrite calls_snd_cons. apply IH. now apply call_index_sound. }
  destruct (H cs _ (index_sound_new can_open)) as (Hs & Hh & _).
  split; assumption.
Qed.

(** ** The index comes back from the file *)

Lemma FlushDataBlock_usable (b : SSTableBuilder.t) :
  usable b -> usable (SSTableBuilder.FlushDataBlock b).
Proof.
  intros [Hf Hs]. unfold SSTableBuilder.FlushDataBlock.
  destruct (empty _); [split; assumption|].
  split; [exact Hf|]. cbn [SSTableBuilder.ofs_]. now rewrite (of_write_ok _ _ Hs).
Qed.

(** The file [Finish] leaves: what was written once the buffer is flushed,
    the index block, the footer. *)
Lemma Finish_shape (b : SSTableBuilder.t) :
  usable b ->
  let b1 := SSTableBuilder.FlushDataBlock b in
  SSTableBuilder.index_data_ (snd (SSTableBuilder.Finish b)) =
    SSTableBuilder.index_data_ b1 /\
  written (snd (SSTableBuilder.Finish b)) =
    (written b1 ++ encode_index (SSTableBuilder.index_data_ b1)) ++
    encode_footer (size (written b1))
                  (size (encode_index (SSTableBuilder.index_data_ b1))).
Proof.
  intros Hu b1. pose proof (FlushDataBlock_usable b Hu) as [_ Hs1]. fold b1 in Hs1.
  unfold SSTableBuilder.Finish. rewrite (usable_open b Hu). fold b1.
  cbn [snd SSTableBuilder.index_data_]. split; [reflexivity|].
  unfold written. cbn [SSTableBuilder.ofs_]. rewrite of_close_data.
  rewrite (of_write_ok (SSTableBuilder.ofs_ b1)) by exact Hs1.
  rewrite of_write_ok by reflexivity. cbn [of_data].
  rewrite (of_tellp_ok _ Hs1).
  fold (encode_index (SSTableBuilder.index_data_ b1)).
  fold (encode_footer (size (of_data (SSTableBuilder.ofs_ b1)))
          (size (encode_index (SSTableBuilder.index_data_ b1)))).
  rewrite (view_all FOOTER_SIZE) by apply size_encode_footer.
  reflexivity.
Qed.

Lemma AddAll_index_sound (kvs : list (bytes * bytes)) :
  forall b, index_sound b -> index_sound (AddAll b kvs).
Proof.
  induction kvs as [|[k v] kvs IH]; intros b Hb; [exact Hb|].
  cbn [AddAll]. apply IH. now apply Add_index_sound.
Qed.

Lemma encode_index_key_sizes (m : index_map) :
  size (encode_index m) < 2 ^ 32 -> Forall (fun e => size (fst e) < 2 ^ 32) m.
Proof.
  induction m as [|e m IH]; intros H; [constructor|].
  rewrite encode_index_cons, size_app, size_index_entry in H.
  pose proof (size_nonneg (encode_index m)). pose proof (size_nonneg (fst e)).
  constructor; [lia | apply IH; lia].
Qed.

(** X9. For any records offered to a fresh builder, in any key order, when
    the finished file is smaller than [2^63] bytes and its index block
    smaller than [2^32]: the reader opened on the file is valid, the index
    it has loaded is the index the builder held, and no sequence of lookups
    makes a read fail. *)
Theorem LoadIndex_reads_back_index (kvs : list (bytes * bytes)) (qs : list bytes)
  (Hsize : size (build kvs) < 2 ^ 63)
  (Hidx : index_block_size kvs < 2 ^ 32) :
  let b := snd (SSTableBuilder.Finish (AddAll (SSTableBuilder.new true) kvs)) in
  let r := SSTableReader.new (Some (build kvs)) in
  SSTableReader.is_valid r = true /\
  SSTableReader.index_data_ r = SSTableBuilder.index_data_ b /\
  SSTableReader.index_data_ (GetAll r qs) = SSTableBuilder.index_data_ b /\
  if_fail (SSTableReader.ifs_ (GetAll r qs)) = false.
Proof.
  cbv zeta.
  set (b0 := AddAll (SSTableBuilder.new true) kvs) in *.
  assert (Hu : usable b0) by apply (AddAll_accepting _ _ accepting_new).
  pose proof (Finish_shape b0 Hu) as H. cbv zeta in H. destruct H as [Hi Hw].
  pose proof (FlushDataBlock_index_sound b0
                (AddAll_index_sound kvs _ (index_sound_new true)))
    as (Hs & Hh & _).
  set (b1 := SSTableBuilder.FlushDataBlock b0) in *.
  unfold index_block_size in Hidx. fold b0 in Hidx. rewrite Hi in Hidx.
  assert (Hb : build kvs =
               (written b1 ++ encode_index (SSTableBuilder.index_data_ b1)) ++
               encode_footer (size (written b1))
                 (size (encode_index (SSTableBuilder.index_data_ b1))))
    by exact Hw.
  assert (Hd : size (written b1) < 2 ^ 63).
  { rewrite Hb, !size_app in Hsize.
    pose proof (size_nonneg (encode_index (SSTableBuilder.index_data_ b1))).
    pose proof (size_nonneg (encode_footer (size (written b1))
                  (size (encode_index (SSTableBuilder.index_data_ b1))))). lia. }
  rewrite Hi.
  assert (Hserv : serving (build kvs) (SSTableBuilder.index_data_ b1)
                    (SSTableReader.new (Some (build kvs)))).
  { rewrite Hb. apply new_serving; try assumption.
    - now apply encode_index_key_sizes.
    - revert Hh. apply Forall_weaken. intros e [Ht _]. now apply handle_typed_u. }
  assert (Hin : Forall (fun e => handle_in (size (build kvs)) (snd e))
                  (SSTableBuilder.index_data_ b1)).
  { revert Hh. apply Forall_weaken. intros e [[Ho Hz] Hw'].
    unfold handle_in. rewrite Hb, !size_app, size_encode_footer.
    pose proof (size_nonneg (encode_index (SSTableBuilder.index_data_ b1))). lia. }
  pose proof (GetAll_serving _ _ qs _ Hserv Hin) as Hq.
  split; [exact (proj1 Hserv)|]. split; [exact (proj1 (proj2 Hserv))|].
  split; [exact (proj1 (proj2 Hq)) | exact (proj1 (proj2 (proj2 (proj2 Hq))))].
Qed.

(** Keys out of order, one of them twice. *)
Lemma LoadIndex_reads_back_index_witness :
  let kvs := [([x62], repeat x31 100); ([x61], repeat x32 100);
              ([x62], repeat x33 100); ([x63], [])] in
  SSTableReader.index_data_ (SSTableReader.new (Some (build kvs))) =
    [([x61], mkBlockHandle 109 109); ([x62], mkBlockHandle 0 109);
     ([x63], mkBlockHandle 218 118)] /\
  if_fail (SSTableReader.ifs_
             (GetAll (SSTableReader.new (Some (build kvs))) [[x61]; [x62]; [x63]])) = false.
Proof.
  cbv zeta.
  pose proof (LoadIndex_reads_back_index
                [([x62], repeat x31 100); ([x61], repeat x32 100);
                 ([x62], repeat x33 100); ([x63], [])]
                [[x61]; [x62]; [x63]]) as H.
  cbv zeta in H.
  destruct H as (_ & Hi & _ & Hf).
  - vm_compute. reflexivity.
  - vm_compute. reflexivity.
  - split; [rewrite Hi; vm_compute; reflexivity | exact Hf].
Defined.

(* ================================================================== *)
(** * Further properties of the reader *)

Lemma ReadDataBlock_keeps (r : SSTableReader.t) (h : BlockHandle) :
  let r' := snd (SSTableReader.ReadDataBlock r h) in
  SSTableReader.is_valid_ r' = SSTableReader.is_valid_ r /\
  SSTableReader.index_data_ r' = SSTableReader.index_data_ r /\
  SSTableReader.footer_ r' = SSTableReader.footer_ r /\
  if_data (SSTableReader.ifs_ r') = if_data (SSTableReader.ifs_ r) /\
  if_is_open (SSTableReader.ifs_ r') = if_is_open (SSTableReader.ifs_ r).
Proof.
  cbv zeta. unfold SSTableReader.ReadDataBlock, if_read, if_seekg.
  destruct (if_fail (SSTableReader.ifs_ r) || negb (if_is_open (SSTableReader.ifs_ r)));
    cbn; [repeat split|].
  destruct (s64 (offset_ h) <? 0); cbn; [repeat split|].
  destruct (negb (if_is_open (SSTableReader.ifs_ r))); cbn; repeat split.
Qed.

Lemma Get_keeps (r : SSTableReader.t) (key : bytes) :
  let r' := snd (SSTableReader.Get r key) in
  SSTableReader.is_valid_ r' = SSTableReader.is_valid_ r /\
  SSTableReader.index_data_ r' = SSTableReader.index_data_ r /\
  SSTableReader.footer_ r' = SSTableReader.footer_ r /\
  if_data (SSTableReader.ifs_ r') = if_data (SSTableReader.ifs_ r) /\
  if_is_open (SSTableReader.ifs_ r') = if_is_open (SSTableReader.ifs_ r).
Proof.
  cbv zeta. unfold SSTableReader.Get.
  destruct (negb (SSTableReader.is_valid_ r)); [repeat split|].
  destruct (lower_bound _ _) as [[k h]|]; [|repeat split].
  pose proof (ReadDataBlock_keeps r h) as H. cbv zeta in H.
  destruct (SSTableReader.ReadDataBlock r h) as [[ok content] r1]. cbn [snd] in H.
  destruct (negb ok); exact H.
Qed.

(** X10. No lookup, found or not, failed or not, changes what the reader
    loaded when it was opened: after any lookups the validity flag, the
    index, the footer and the file content are the same. *)
Theorem Get_keeps_loaded_state (r : SSTableReader.t) (qs : list bytes) :
  SSTableReader.is_valid_ (GetAll r qs) = SSTableReader.is_valid_ r /\
  SSTableReader.index_data_ (GetAll r qs) = SSTableReader.index_data_ r /\
  SSTableReader.footer_ (GetAll r qs) = SSTableReader.footer_ r /\
  if_data (SSTableReader.ifs_ (GetAll r qs)) = if_data (SSTableReader.ifs_ r).
Proof.
  revert r. induction qs as [|q qs IH]; intros r; [repeat split|].
  cbn [GetAll].
  pose proof (Get_keeps r q) as H. cbv zeta in H.
  destruct H as (H1 & H2 & H3 & H4 & _).
  destruct (IH (snd (SSTableReader.Get r q))) as (I1 & I2 & I3 & I4).
  rewrite I1, I2, I3, I4. repeat split; assumption.
Qed.

(** X11. On any reader, a key above every key of the index is not found, and
    the lookup issues no read: the reader is left as it was. *)
Theorem Get_above_index_reads_nothing (r : SSTableReader.t) (key : bytes)
  (Habove : Forall (fun e => str_lt (fst e) key) (SSTableReader.index_data_ r)) :
  SSTableReader.Get r key = (None, r).
Proof.
  unfold SSTableReader.Get.
  destruct (negb (SSTableReader.is_valid_ r)); [reflexivity|].
  assert (E : lower_bound (SSTableReader.index_data_ r) key = None).
  { induction Habove as [|[k h] m Hlt _ IH]; [reflexivity|].
    cbn [lower_bound]. cbn [fst] in Hlt.
    apply str_ltb_lt in Hlt. now rewrite Hlt. }
  now rewrite E.
Qed.

Lemma Get_above_index_reads_nothing_witness :
  let r := SSTableReader.new (Some (build Driver.test_data)) in
  SSTableReader.Get r Driver.zzz_Nobody = (None, r).
Proof.
  cbv zeta. apply Get_above_index_reads_nothing.
  vm_compute. repeat constructor.
Defined.

(** ** What a block scan can return *)

Lemma split_prefix (n : Z) (s : bytes) :
  0 <= n <= size s ->
  s = view n s ++ remove_prefix n s /\ size (view n s) = n.
Proof.
  intros H. unfold view, remove_prefix, size in *.
  split; [now rewrite firstn_skipn|]. rewrite length_firstn. lia.
Qed.

(** A successful [readKV] has read one encoded record off the front of its
    input. *)
Lemma readKV_true (input key0 value0 rest key value : bytes) :
  readKV input key0 value0 = (true, rest, key, value) ->
  input = record key value ++ rest /\ size key < 2 ^ 32 /\ size value < 2 ^ 32.
Proof.
  unfold readKV.
  destruct (Z.ltb_spec (size input) 4) as [|H1]; [discriminate|].
  destruct (split_prefix 4 input ltac:(pose proof (size_nonneg input); lia)) as [E1 S1].
  assert (R1 : 0 <= memcpy_uint 4 input < 2 ^ 32).
  { unfold memcpy_uint. pose proof (le_value_range (firstn 4 input)) as R.
    unfold view, size in S1. change (Z.to_nat 4) with 4%nat in S1.
    replace (length (firstn 4 input)) with 4%nat in R by lia. exact R. }
  set (key_len := memcpy_uint 4 input) in *.
  set (input1 := remove_prefix 4 input) in *.
  destruct (Z.ltb_spec (size input1) key_len) as [|H2]; [discriminate|].
  destruct (split_prefix key_len input1 ltac:(lia)) as [E2 S2].
  set (input2 := remove_prefix key_len input1) in *.
  destruct (Z.ltb_spec (size input2) 4) as [|H3]; [discriminate|].
  destruct (split_prefix 4 input2 ltac:(lia)) as [E3 S3].
  assert (R3 : 0 <= memcpy_uint 4 input2 < 2 ^ 32).
  { unfold memcpy_uint. pose proof (le_value_range (firstn 4 input2)) as R.
    unfold view, size in S3. change (Z.to_nat 4) with 4%nat in S3.
    replace (length (firstn 4 input2)) with 4%nat in R by lia. exact R. }
  set (value_len := memcpy_uint 4 input2) in *.
  set (input3 := remove_prefix 4 input2) in *.
  destruct (Z.ltb_spec (size input3) value_len) as [|H4]; [discriminate|].
  destruct (split_prefix value_len input3 ltac:(lia)) as [E4 S4].
  intros E. injection E as <- <- <-.
  split; [|split; lia].
  rewrite record_unfold, S2, S4, !u32_small by lia.
  assert (A1 : view 4 input = le_bytes 4 key_len).
  { symmetry. apply bytes_of_value. unfold size in S1. lia. }
  assert (A3 : view 4 input2 = le_bytes 4 value_len).
  { symmetry. apply bytes_of_value. unfold size in S3. lia. }
  rewrite <- A1, <- A3, <- !app_assoc, <- E4, <- E3, <- E2. exact E1.
Qed.

Lemma FindInBlock_loop_found (fuel : nat) :
  forall input key value : bytes,
  SSTableReader.FindInBlock_loop fuel input key = Some (Some value) ->
  exists before rest, records before /\ input = before ++ record key value ++ rest.
Proof.
  induction fuel as [|fuel IH]; intros input key value H.
  - cbn in H. destruct (empty input); discriminate.
  - cbn [SSTableReader.FindInBlock_loop] in H.
    destruct (empty input); [discriminate|].
    destruct (readKV input [] []) as [[[ok input'] k] v] eqn:E.
    destruct ok; cbn [negb] in H; [|discriminate].
    apply readKV_true in E. destruct E as (-> & Hk & Hv).
    destruct (str_eqb k key) eqn:Ek.
    + apply str_eqb_eq in Ek. injection H as <-. subst k.
      exists [], input'. split; [constructor | reflexivity].
    + destruct (str_gtb k key); [discriminate|].
      destruct (IH _ _ _ H) as (before & rest & Hb & ->).
      exists (record k v ++ before), rest.
      split; [now constructor | now rewrite <- app_assoc].
Qed.

(** X12. Whatever bytes a block holds, damaged or not, when [FindInBlock]
    returns a value the block holds the record of the key and that value,
    after a sequence of whole records. *)
Theorem FindInBlock_returns_stored_record (block_content key value : bytes)
  (Hfound : SSTableReader.FindInBlock block_content key = Some value) :
  exists before rest,
    records before /\ block_content = before ++ record key value ++ rest.
Proof.
  unfold SSTableReader.FindInBlock in Hfound.
  destruct (SSTableReader.FindInBlock_loop _ _ _) as [[v|]|] eqn:E; try discriminate.
  injection Hfound as ->. exact (FindInBlock_loop_found _ _ _ _ E).
Qed.

(** A block of two records followed by three stray bytes. *)
Lemma FindInBlock_returns_stored_record_witness :
  let block := record [x61] [x31] ++ record [x62] [x32] ++ [xff; xff; xff] in
  SSTableReader.FindInBlock block [x62] = Some [x32] /\
  exists before rest, records before /\ block = before ++ record [x62] [x32] ++ rest.
Proof.
  cbv zeta.
  assert (H : SSTableReader.FindInBlock
                (record [x61] [x31] ++ record [x62] [x32] ++ [xff; xff; xff]) [x62] =
              Some [x32]) by reflexivity.
  split; [exact H|].
  exact (FindInBlock_returns_stored_record _ _ _ H).
Defined.

(* ================================================================== *)
(** * Further properties of the builder's handle *)

Lemma Add_is_open (b : SSTableBuilder.t) (key value : bytes) :
  SSTableBuilder.is_open (snd (SSTableBuilder.Add b key value)) =
  SSTableBuilder.is_open b.
Proof.
  unfold SSTableBuilder.Add, SSTableBuilder.is_open.
  destruct (SSTableBuilder.finished_ b || of_fail (SSTableBuilder.ofs_ b)) eqn:Eu;
    [reflexivity|].
  apply orb_false_iff in Eu. destruct Eu as [_ Ef].
  destruct (_ && _ && _); [reflexivity|]. cbn [snd SSTableBuilder.ofs_].
  destruct (empty (SSTableBuilder.cur_data_block_ b)) eqn:E; [reflexivity|].
  destruct (_ >? _); [|reflexivity].
  unfold SSTableBuilder.FlushDataBlock. rewrite E.
  cbn [SSTableBuilder.set_offset SSTableBuilder.ofs_].
  now rewrite (of_write_ok _ _ Ef).
Qed.

(** X13. [is_open] tells whether the file could be opened, and keeps telling
    so through every [Add]; after [Finish] it is false, because the file is
    closed or never was open. *)
Theorem is_open_until_Finish (can_open : bool) (kvs : list (bytes * bytes)) :
  SSTableBuilder.is_open (AddAll (SSTableBuilder.new can_open) kvs) = can_open /\
  SSTableBuilder.is_open
    (snd (SSTableBuilder.Finish (AddAll (SSTableBuilder.new can_open) kvs))) = false.
Proof.
  assert (H : forall kvs b, SSTableBuilder.is_open (AddAll b kvs) = SSTableBuilder.is_open b).
  { clear. induction kvs as [|[k v] kvs IH]; intros b; [reflexivity|].
    cbn [AddAll]. now rewrite IH, Add_is_open. }
  split; [rewrite H; now destruct can_open|].
  destruct can_open.
  - unfold SSTableBuilder.Finish.
    rewrite (usable_open _ (proj1 (AddAll_accepting _ kvs accepting_new))).
    cbn [snd SSTableBuilder.is_open SSTableBuilder.ofs_].
    unfold of_close. now destruct (of_is_open _).
  - assert (Hc : AddAll (SSTableBuilder.new false) kvs = SSTableBuilder.new false).
    { clear. induction kvs as [|[k v] kvs IH]; [reflexivity|].
      cbn [AddAll]. rewrite Add_closed by reflexivity. exact IH. }
    rewrite Hc. reflexivity.
Qed.

(* ================================================================== *)
(** * memtable *)

Lemma smap_assign_keys_in {V : Type} (m : str_map V) (k : bytes) (v : V) (x : bytes) :
  In x (map fst (smap_assign m k v)) <-> x = k \/ In x (map fst m).
Proof.
  induction m as [|[k' v'] m IH]; cbn [smap_assign map fst In].
  - intuition congruence.
  - destruct (compare k k') eqn:E; cbn [map fst In].
    + apply compare_eq in E. subst k'. intuition congruence.
    + intuition congruence.
    + rewrite IH. intuition congruence.
Qed.

Lemma smap_assign_sorted {V : Type} (m : str_map V) (k : bytes) (v : V) :
  StronglySorted str_lt (map fst m) ->
  StronglySorted str_lt (map fst (smap_assign m k v)).
Proof.
  induction m as [|[k' v'] m IH]; intros Hs.
  - cbn. constructor; constructor.
  - cbn [map fst] in Hs. apply StronglySorted_inv in Hs. destruct Hs as [Hs Hf].
    cbn [smap_assign]. destruct (compare k k') eqn:E; cbn [map fst].
    + constructor; assumption.
    + constructor; [constructor; assumption|].
      constructor; [exact E|].
      apply (Forall_weaken (str_lt k')); [|exact Hf].
      intros x Hx. exact (str_lt_trans _ _ _ E Hx).
    + constructor; [now apply IH|].
      apply Forall_forall. intros x Hx. apply smap_assign_keys_in in Hx.
      destruct Hx as [->|Hx]; [now apply str_lt_gt|].
      rewrite Forall_forall in Hf. now apply Hf.
Qed.

Lemma smap_assign_Forall {V : Type} (P : bytes * V -> Prop)
      (m : str_map V) (k : bytes) (v : V) :
  P (k, v) -> Forall P m -> Forall P (smap_assign m k v).
Proof.
  intros Hk. induction m as [|[k' v'] m IH]; intros Hm.
  - cbn. constructor; [exact Hk | constructor].
  - cbn [smap_assign]. destruct (compare k k') eqn:E.
    + apply compare_eq in E. subst k'. inversion Hm; subst. now constructor.
    + now constructor.
    + inversion Hm; subst. constructor; [assumption | now apply IH].
Qed.

(** On a map, [find] is the lookup by key. *)
Lemma smap_find_assoc (m : str_map bytes) (key : bytes) :
  StronglySorted str_lt (map fst m) ->
  memtable.get (memtable.mk m) key = assoc key m.
Proof.
  unfold memtable.get, smap_find. cbn [memtable.memtable_].
  induction m as [|[k v] m IH]; intros Hs; [reflexivity|].
  cbn [map fst] in Hs. apply StronglySorted_inv in Hs. destruct Hs as [Hs Hf].
  cbn [smap_lower_bound assoc].
  destruct (str_ltb k key) eqn:El.
  - apply str_ltb_lt in El.
    assert (En : str_eqb k key = false).
    { apply str_eqb_neq. intros ->. exact (str_lt_irrefl _ El). }
    rewrite En. now apply IH.
  - apply str_ltb_nlt in El.
    destruct (str_lt_total k key) as [H|[->|H]]; [contradiction| |].
    + assert (E : str_ltb key key = false) by (apply str_ltb_nlt, str_lt_irrefl).
      rewrite E. now rewrite (proj2 (str_eqb_eq key key) eq_refl).
    + rewrite (proj2 (str_ltb_lt key k) H).
      assert (En : str_eqb k key = false).
      { apply str_eqb_neq. intros ->. exact (str_lt_irrefl _ H). }
      rewrite En. symmetry. apply assoc_none. intros Hin.
      rewrite Forall_forall in Hf. apply (str_lt_irrefl key).
      exact (str_lt_trans _ _ _ H (Hf _ Hin)).
Qed.

Lemma assoc_smap_assign (m : str_map bytes) (k v key : bytes) :
  StronglySorted str_lt (map fst m) ->
  assoc key (smap_assign m k v) = if str_eqb k key then Some v else assoc key m.
Proof.
  induction m as [|[k' v'] m IH]; intros Hs; [reflexivity|].
  cbn [map fst] in Hs. apply StronglySorted_inv in Hs. destruct Hs as [Hs Hf].
  cbn [smap_assign]. destruct (compare k k') eqn:E; cbn [assoc].
  - apply compare_eq in E. subst k'. now destruct (str_eqb k key).
  - reflexivity.
  - rewrite (IH Hs). destruct (str_eqb k' key) eqn:E'; [|reflexivity].
    apply str_eqb_eq in E'. subst k'.
    assert (En : str_eqb k key = false).
    { apply str_eqb_neq. intros ->. rewrite compare_refl in E. discriminate. }
    now rewrite En.
Qed.

Lemma PutAll_sorted (writes : list (bytes * bytes)) :
  forall m : memtable.t,
  StronglySorted str_lt (map fst (memtable.memtable_ m)) ->
  StronglySorted str_lt (map fst (memtable.memtable_ (PutAll m writes))).
Proof.
  induction writes as [|[k v] writes IH]; intros m Hs; [exact Hs|].
  cbn [PutAll]. apply IH. cbn. now apply smap_assign_sorted.
Qed.

Lemma PutAll_get (writes : list (bytes * bytes)) (key : bytes) :
  forall m : memtable.t,
  StronglySorted str_lt (map fst (memtable.memtable_ m)) ->
  memtable.get (PutAll m writes) key =
  match assoc key (rev writes) with
  | Some v => Some v
  | None => memtable.get m key
  end.
Proof.
  induction writes as [|[k v] writes IH]; intros m Hs; [reflexivity|].
  cbn [PutAll rev]. rewrite assoc_app.
  rewrite IH by (cbn; now apply smap_assign_sorted).
  destruct (assoc key (rev writes)); [reflexivity|].
  unfold memtable.put. rewrite smap_find_assoc by now apply smap_assign_sorted.
  rewrite assoc_smap_assign by exact Hs.
  cbn [assoc]. destruct (str_eqb k key); [reflexivity|].
  destruct m as [m]. cbn [memtable.memtable_] in *. symmetry. now apply smap_find_assoc.
Qed.

Lemma PutAll_Forall (P : bytes * bytes -> Prop) (writes : list (bytes * bytes)) :
  Forall P writes ->
  forall m : memtable.t,
  Forall P (memtable.memtable_ m) -> Forall P (memtable.memtable_ (PutAll m writes)).
Proof.
  induction 1 as [|[k v] writes Hk Hw IH]; intros m Hm; [exact Hm|].
  cbn [PutAll]. apply IH. cbn. now apply smap_assign_Forall.
Qed.

Lemma PutAll_keys (writes : list (bytes * bytes)) (x : bytes) :
  forall m : memtable.t,
  In x (map fst (memtable.memtable_ (PutAll m writes))) <->
  In x (map fst writes) \/ In x (map fst (memtable.memtable_ m)).
Proof.
  induction writes as [|[k v] writes IH]; intros m; cbn [PutAll map fst In]; [tauto|].
  rewrite IH. cbn [memtable.put memtable.memtable_]. rewrite smap_assign_keys_in.
  intuition congruence.
Qed.

(** X14. After any sequence of [put]s on a fresh memtable, [get] of a key
    gives the value of the last [put] of that key, and fails for a key that
    was never put. *)
Theorem memtable_get_last_put (writes : list (bytes * bytes)) (key : bytes) :
  memtable.get (PutAll memtable.new writes) key = assoc key (rev writes).
Proof.
  rewrite PutAll_get by (cbn; constructor).
  now destruct (assoc key (rev writes)).
Qed.

(** X15. After any sequence of [put]s on a fresh memtable, [GetMap] lists
    exactly the keys that were put, each once and in strictly ascending
    order. *)
Theorem memtable_GetMap_ascending (writes : list (bytes * bytes)) :
  StronglySorted str_lt (map fst (memtable.GetMap (PutAll memtable.new writes))) /\
  forall key : bytes,
    In key (map fst (memtable.GetMap (PutAll memtable.new writes))) <->
    In key (map fst writes).
Proof.
  unfold memtable.GetMap. split.
  - apply PutAll_sorted. cbn. constructor.
  - intros key. rewrite PutAll_keys. cbn. tauto.
Qed.

(** X16. A table built by adding the entries of [GetMap] in their order
    answers every [Get] as the memtable answers [get], after any earlier
    lookups, when every record put fits 32 bits and the index block of the
    table does. *)
Theorem memtable_flush_Get (writes : list (bytes * bytes)) (qs : list bytes) (key : bytes)
  (Hfit : Forall (fun kv => fits32 (fst kv) (snd kv)) writes)
  (Hidx : index_block_size (memtable.GetMap (PutAll memtable.new writes)) < 2 ^ 32) :
  fst (SSTableReader.Get
         (GetAll (SSTableReader.new
                    (Some (build (memtable.GetMap (PutAll memtable.new writes))))) qs)
         key) =
  memtable.get (PutAll memtable.new writes) key.
Proof.
  assert (Hs : StronglySorted str_lt
                 (map fst (memtable.memtable_ (PutAll memtable.new writes)))).
  { apply PutAll_sorted. cbn. constructor. }
  unfold memtable.GetMap in *.
  rewrite Get_build_assoc; [| now apply StronglySorted_Sorted | | exact Hidx].
  - destruct (PutAll memtable.new writes) as [m]. cbn [memtable.memtable_] in *.
    symmetry. now apply smap_find_assoc.
  - apply PutAll_Forall; [exact Hfit | constructor].
Qed.

(** Three writes, out of order and with a key written twice. *)
Lemma memtable_flush_Get_witness :
  let writes := [([x62], [x31]); ([x61], [x32]); ([x62], [x33])] in
  Forall (fun kv => fits32 (fst kv) (snd kv)) writes /\
  index_block_size (memtable.GetMap (PutAll memtable.new writes)) < 2 ^ 32 /\
  fst (SSTableReader.Get
         (GetAll (SSTableReader.new
                    (Some (build (memtable.GetMap (PutAll memtable.new writes))))) [[x61]])
         [x62]) =
  memtable.get (PutAll memtable.new writes) [x62].
Proof.
  cbv zeta.
  assert (Hfit : Forall (fun kv => fits32 (fst kv) (snd kv))
                   [([x62], [x31]); ([x61], [x32]); ([x62], [x33])]).
  { repeat constructor. }
  assert (Hidx : index_block_size
                   (memtable.GetMap
                      (PutAll memtable.new [([x62], [x31]); ([x61], [x32]); ([x62], [x33])]))
                 < 2 ^ 32).
  { vm_compute. reflexivity. }
  split; [exact Hfit|]. split; [exact Hidx|].
  exact (memtable_flush_Get _ [[x61]] [x62] Hfit Hidx).
Defined.

(* ================================================================== *)
(** * Lookups on any file *)

Lemma lower_bound_in (m : index_map) (key k : bytes) (h : BlockHandle) :
  lower_bound m key = Some (k, h) -> In (k, h) m /\ ~ str_lt k key.
Proof.
  induction m as [|[k' h'] m IH]; cbn [lower_bound]; [discriminate|].
  destruct (str_ltb k' key) eqn:E.
  - intros H. destruct (IH H). split; [now right | assumption].
  - intros H. injection H as -> ->. split; [now left | now apply str_ltb_nlt].
Qed.

(** A block read that succeeds has read nothing, for a handle of size 0, or
    the bytes of the file in the range of the handle. *)
Lemma ReadDataBlock_true (r : SSTableReader.t) (h : BlockHandle) :
  fst (fst (SSTableReader.ReadDataBlock r h)) = true ->
  (size_ h = 0 /\ snd (fst (SSTableReader.ReadDataBlock r h)) = []) \/
  (0 <= s64 (offset_ h) /\ 0 < size_ h /\
   s64 (offset_ h) + size_ h <= size (if_data (SSTableReader.ifs_ r)) /\
   snd (fst (SSTableReader.ReadDataBlock r h)) =
   substr (if_data (SSTableReader.ifs_ r)) (s64 (offset_ h)) (size_ h)).
Proof.
  unfold SSTableReader.ReadDataBlock, if_seekg, if_read.
  set (s := SSTableReader.ifs_ r). set (pos := s64 (offset_ h)). set (n := size_ h).
  assert (Hfailed : forall (o : bool) (p : Z) (d : bytes) (l l' : list (Z * Z)),
            (size (@nil byte) =? n) = true ->
            n = 0 /\ resized n [] = []).
  { intros _ _ _ _ _ H. apply Z.eqb_eq in H. rewrite <- H. split; reflexivity. }
  destruct (if_fail s) eqn:Ef; cbn [orb].
  { cbn [if_fail if_is_open orb fst snd]. intros H. left.
    exact (Hfailed true 0 [] [] [] H). }
  destruct (if_is_open s) eqn:Eo; cbn [orb negb].
  2:{ cbn [if_fail if_is_open orb fst snd]. intros H. left.
      exact (Hfailed true 0 [] [] [] H). }
  destruct (Z.ltb_spec pos 0) as [Hp|Hp].
  { cbn [if_fail if_is_open orb fst snd]. intros H. left.
    exact (Hfailed true 0 [] [] [] H). }
  cbn [if_fail if_is_open if_pos if_data if_log orb negb fst snd].
  intros H. apply Z.eqb_eq in H. rewrite (resized_full _ _ H).
  destruct (Z.eq_dec n 0) as [E0|E0].
  - left. split; [exact E0|]. apply length_zero_iff_nil. unfold size in H. lia.
  - right. pose proof (size_nonneg (substr (if_data s) pos n)).
    assert (Hn : 0 < n) by lia.
    split; [exact Hp|]. split; [exact Hn|]. split; [|reflexivity].
    unfold substr, size in *. rewrite length_firstn, length_skipn in H. lia.
Qed.

Lemma FindInBlock_found (block_content key value : bytes) :
  SSTableReader.FindInBlock block_content key = Some value ->
  exists before rest,
    records before /\ block_content = before ++ record key value ++ rest.
Proof.
  unfold SSTableReader.FindInBlock. intros H.
  destruct (SSTableReader.FindInBlock_loop _ _ _) as [[v|]|] eqn:E; try discriminate.
  injection H as ->. exact (FindInBlock_loop_found _ _ _ _ E).
Qed.

(** X17. On any file and with any index, damaged or not, a value that [Get]
    returns is stored in the file: the reader is valid, and an entry of its
    index whose key is not below the key looked up names a range of the file
    that holds the record of the key and the value after whole records. *)
Theorem Get_returns_stored_record (r : SSTableReader.t) (key value : bytes)
  (Hfound : fst (SSTableReader.Get r key) = Some value) :
  SSTableReader.is_valid r = true /\
  exists (last_key : bytes) (handle : BlockHandle) (before rest : bytes),
    In (last_key, handle) (SSTableReader.index_data_ r) /\
    ~ str_lt last_key key /\
    0 <= s64 (offset_ handle) /\
    s64 (offset_ handle) + size_ handle <= size (if_data (SSTableReader.ifs_ r)) /\
    records before /\
    substr (if_data (SSTableReader.ifs_ r)) (s64 (offset_ handle)) (size_ handle) =
    before ++ record key value ++ rest.
Proof.
  unfold SSTableReader.Get, SSTableReader.is_valid in *.
  destruct (SSTableReader.is_valid_ r); cbn [negb] in *; [|discriminate].
  split; [reflexivity|].
  destruct (lower_bound (SSTableReader.index_data_ r) key) as [[k h]|] eqn:El;
    [|discriminate].
  destruct (lower_bound_in _ _ _ _ El) as [Hin Hge].
  pose proof (ReadDataBlock_true r h) as Hread.
  destruct (SSTableReader.ReadDataBlock r h) as [[ok block] r1].
  cbn [fst snd] in Hread.
  destruct ok; cbn [negb fst] in Hfound; [|discriminate].
  destruct (Hread eq_refl) as [[_ ->]|(Hp & Hn & Hle & ->)]; [discriminate|].
  destruct (FindInBlock_found _ _ _ Hfound) as (before & rest & Hrec & Heq).
  exists k, h, before, rest. repeat split; assumption.
Qed.

(** The table of two records, and the lookup of the second. *)
Lemma Get_returns_stored_record_witness :
  let r := SSTableReader.new (Some (build [([x61], [x31]); ([x62], [x32])])) in
  fst (SSTableReader.Get r [x62]) = Some [x32] /\
  SSTableReader.is_valid r = true /\
  exists (last_key : bytes) (handle : BlockHandle) (before rest : bytes),
    In (last_key, handle) (SSTableReader.index_data_ r) /\
    ~ str_lt last_key [x62] /\
    0 <= s64 (offset_ handle) /\
    s64 (offset_ handle) + size_ handle <= size (if_data (SSTableReader.ifs_ r)) /\
    records before /\
    substr (if_data (SSTableReader.ifs_ r)) (s64 (offset_ handle)) (size_ handle) =
    before ++ record [x62] [x32] ++ rest.
Proof.
  cbv zeta.
  assert (H : fst (SSTableReader.Get
                     (SSTableReader.new (Some (build [([x61], [x31]); ([x62], [x32])])))
                     [x62]) = Some [x32]) by (vm_compute; reflexivity).
  split; [exact H|].
  exact (Get_returns_stored_record _ _ _ H).
Defined.

(** X18. The two parsing loops of the reader end on every input, damaged or
    not: each turn leaves the loop or takes a whole record of at least 8
    bytes off the input, so as many turns as the input has bytes are enough. *)
Theorem parsing_loops_end (input key : bytes) (index : index_map) :
  (exists found : option bytes,
     SSTableReader.FindInBlock_loop (length input) input key = Some found) /\
  (exists result : bool * index_map,
     SSTableReader.LoadIndex_loop (length input) input index = Some result).
Proof.
  split.
  - pose proof (FindInBlock_loop_ends (length input) input key (le_n _)) as H.
    destruct (SSTableReader.FindInBlock_loop _ _ _) as [found|];
      [now exists found | now destruct H].
  - pose proof (LoadIndex_loop_ends (length input) input index (le_n _)) as H.
    destruct (SSTableReader.LoadIndex_loop _ _ _) as [result|];
      [now exists result | now destruct H].
Qed.
